(** * SmoothScrub: a shallow embedding of the diagram engine

    The TypeScript class [SmoothScrub] (its source with inline style
    markers, version 0.2.0) turns text diagrams into SVG.  This development
    embeds the parts of it that its specification makes claims about: the character tables, the style-marker parser
    ([parseLineMarkers], [injectMarkersIntoLine], [isSafeColorValue]), the
    normaliser ([autoFormat]) and the structural part of [render] (grid,
    boxes, box styles, path commands, text zones).

    Conventions.
    - A JavaScript string is the list of its UTF-16 code units ([jsstring]);
      indices, [slice], [length] count code units, as in the source.
    - Regular expressions are values of [regex], run by a backtracking
      matcher that follows the ECMAScript priorities (greedy and lazy
      quantifiers, capture groups, leftmost match).
    - Grid cells are JavaScript objects compared with [===]; a cell object is
      created once per (row, column), so object identity is modelled by the
      column index inside a given row.
    - Pixel arithmetic is carried out in [Q]. *)

From Stdlib Require Import String Ascii.
From Stdlib Require Import List Bool Arith Lia NArith ZArith QArith Qabs Lqa.
Import ListNotations.
Close Scope Q_scope.

Set Implicit Arguments.

(* ================================================================== *)
(** * JavaScript strings *)

Module JS.

Definition char := N.
Definition jsstring := list char.

(** An ASCII literal of the source as a list of code units. *)
Definition js (s : string) : jsstring :=
  List.map N_of_ascii (list_ascii_of_string s).

(** The code unit of an ASCII character. *)
Definition cu (a : ascii) : char := N_of_ascii a.

Definition char_in (cs : list char) (c : char) : bool := existsb (N.eqb c) cs.

Definition in_range (lo hi c : N) : bool := (N.leb lo c && N.leb c hi)%bool.

Fixpoint str_eqb (a b : jsstring) : bool :=
  match a, b with
  | [], [] => true
  | x :: a', y :: b' => (N.eqb x y && str_eqb a' b')%bool
  | _, _ => false
  end.

(** WhiteSpace and LineTerminator code units: what [\s] matches and what
    [String.prototype.trim] removes. *)
Definition is_ws (c : char) : bool :=
  (char_in [9; 10; 11; 12; 13; 32; 160; 5760; 8232; 8233; 8239; 8287;
            12288; 65279] c
   || in_range 8192 8202 c)%N%bool.

Fixpoint dropWhile (p : char -> bool) (s : jsstring) : jsstring :=
  match s with
  | c :: s' => if p c then dropWhile p s' else s
  | [] => []
  end.

Fixpoint takeWhile (p : char -> bool) (s : jsstring) : jsstring :=
  match s with
  | c :: s' => if p c then c :: takeWhile p s' else []
  | [] => []
  end.

Definition trimStart (s : jsstring) : jsstring := dropWhile is_ws s.
Definition trimEnd (s : jsstring) : jsstring := rev (dropWhile is_ws (rev s)).
Definition trim (s : jsstring) : jsstring := trimEnd (trimStart s).

(** [s.slice(a, b)] for non-negative [a], [b]. *)
Definition slice (s : jsstring) (a b : nat) : jsstring :=
  firstn (b - a) (skipn a s).
(** [s.slice(a)]. *)
Definition slice_from (s : jsstring) (a : nat) : jsstring := skipn a s.
(** [s.slice(-1)]: the last code unit, or the empty string. *)
Definition slice_last (s : jsstring) : jsstring := skipn (length s - 1) s.
(** [s.slice(0, -1)]. *)
Definition slice_init (s : jsstring) : jsstring := firstn (length s - 1) s.
(** [s[0] ?? ''] as a string. *)
Definition char_at0 (s : jsstring) : jsstring := firstn 1 s.

Fixpoint startsWith (s pre : jsstring) : bool :=
  match pre, s with
  | [], _ => true
  | p :: pre', c :: s' => (N.eqb c p && startsWith s' pre')%bool
  | _ :: _, [] => false
  end.

Definition endsWith (s suf : jsstring) : bool := startsWith (rev s) (rev suf).

Fixpoint includes (s sub : jsstring) : bool :=
  (startsWith s sub ||
   match s with
   | [] => false
   | _ :: s' => includes s' sub
   end)%bool.

(** [toLowerCase] on the strings it is applied to in the source: marker keys
    matched by [[a-zA-Z]+] and values matched by [/^[a-z]+$/i].  On such
    letter-only strings the Unicode lower-casing is the ASCII one; other code
    units are left as they are. *)
Definition lower_char (c : char) : char :=
  if in_range 65 90 c then (c + 32)%N else c.
Definition toLowerCase (s : jsstring) : jsstring := List.map lower_char s.

(** [s.split('\n')]: always at least one piece. *)
Fixpoint split_on (sep : char) (s : jsstring) : list jsstring :=
  match s with
  | [] => [[]]
  | c :: s' =>
      if N.eqb c sep then [] :: split_on sep s'
      else match split_on sep s' with
           | l :: ls => (c :: l) :: ls
           | [] => [[c]]
           end
  end.

(** [arr.join(sep)]. *)
Fixpoint join (sep : jsstring) (ls : list jsstring) : jsstring :=
  match ls with
  | [] => []
  | [l] => l
  | l :: ls' => l ++ sep ++ join sep ls'
  end.

(** [String.prototype.repeat]: a negative count throws a RangeError. *)
Definition repeat_str (s : jsstring) (count : Z) : option jsstring :=
  if (count <? 0)%Z then None
  else Some (List.concat (List.repeat s (Z.to_nat count))).

Definition NL : char := 10%N.
Definition CR : char := 13%N.
Definition SPACE : char := 32%N.

End JS.
Import JS.

(* ================================================================== *)
(** * Regular expressions *)

Module Regex.

(** The constructs the source's patterns use.  Quantifiers only ever apply
    to a character class there, which keeps the matcher structural. *)
Inductive regex : Type :=
| REps
| RBol                                  (* ^ *)
| REol                                  (* $ *)
| RCls (p : char -> bool)               (* a literal or a class *)
| RStar (p : char -> bool)              (* p*   greedy *)
| RPlus (p : char -> bool)              (* p+   greedy *)
| RPlusLazy (p : char -> bool)          (* p+?  lazy *)
| RRep (n : nat) (p : char -> bool)     (* p{n} *)
| RGroup (r : regex)                    (* ( r ), captures in order *)
| RSeq (r1 r2 : regex).

(** End index and captures of a match. *)
Definition mresult := (nat * list jsstring)%type.
Definition kont := nat -> jsstring -> list jsstring -> option mresult.

Fixpoint star_greedy (p : char -> bool) (k : kont)
  (pos : nat) (s : jsstring) (caps : list jsstring) : option mresult :=
  match s with
  | c :: s' =>
      if p c then
        match star_greedy p k (S pos) s' caps with
        | Some r => Some r
        | None => k pos s caps
        end
      else k pos s caps
  | [] => k pos s caps
  end.

Fixpoint plus_lazy (p : char -> bool) (k : kont)
  (pos : nat) (s : jsstring) (caps : list jsstring) : option mresult :=
  match s with
  | c :: s' =>
      if p c then
        match k (S pos) s' caps with
        | Some r => Some r
        | None => plus_lazy p k (S pos) s' caps
        end
      else None
  | [] => None
  end.

Fixpoint rep_exact (n : nat) (p : char -> bool) (k : kont)
  (pos : nat) (s : jsstring) (caps : list jsstring) : option mresult :=
  match n with
  | 0 => k pos s caps
  | S n' =>
      match s with
      | c :: s' => if p c then rep_exact n' p k (S pos) s' caps else None
      | [] => None
      end
  end.

(** Backtracking matcher in continuation-passing style: [rmatch r k pos s
    caps] matches [r] at index [pos], where [s] is the input from [pos] on,
    and hands the rest to [k]; alternatives are tried in priority order. *)
Fixpoint rmatch (r : regex) (k : kont)
  (pos : nat) (s : jsstring) (caps : list jsstring) : option mresult :=
  match r with
  | REps => k pos s caps
  | RBol => if Nat.eqb pos 0 then k pos s caps else None
  | REol => match s with [] => k pos s caps | _ :: _ => None end
  | RCls p =>
      match s with
      | c :: s' => if p c then k (S pos) s' caps else None
      | [] => None
      end
  | RStar p => star_greedy p k pos s caps
  | RPlus p =>
      match s with
      | c :: s' => if p c then star_greedy p k (S pos) s' caps else None
      | [] => None
      end
  | RPlusLazy p => plus_lazy p k pos s caps
  | RRep n p => rep_exact n p k pos s caps
  | RGroup r' =>
      rmatch r'
        (fun pos' s' caps' => k pos' s' (caps' ++ [firstn (pos' - pos) s]))
        pos s caps
  | RSeq r1 r2 => rmatch r1 (rmatch r2 k) pos s caps
  end.

Definition accept : kont := fun pos _ caps => Some (pos, caps).

(** One attempt at index [pos] ([s] is the input from [pos] on). *)
Definition exec_at (r : regex) (pos : nat) (s : jsstring) : option mresult :=
  rmatch r accept pos s [].

(** Leftmost match at or after [pos]: start index, end index, captures. *)
Fixpoint search (r : regex) (pos : nat) (s : jsstring)
  : option (nat * mresult) :=
  match exec_at r pos s with
  | Some res => Some (pos, res)
  | None =>
      match s with
      | [] => None
      | _ :: s' => search r (S pos) s'
      end
  end.

(** [re.test(s)] for a pattern without the [g] flag. *)
Definition test (r : regex) (s : jsstring) : bool :=
  match search r 0 s with Some _ => true | None => false end.

Record rmatch_record : Type := MkMatch {
  m_index : nat;            (* match.index *)
  m_text : jsstring;        (* match[0] *)
  m_groups : list jsstring  (* match[1], match[2], ... *)
}.

(** [s.matchAll(r)] for a pattern with the [g] flag: successive leftmost
    matches; after a match the scan resumes at its end (one further when the
    match is empty).  [skip] counts the code units still covered by the last
    match. *)
Fixpoint matchAll_from (r : regex) (skip pos : nat) (s : jsstring)
  {struct s} : list rmatch_record :=
  match skip with
  | S n =>
      match s with
      | [] => []
      | _ :: s' => matchAll_from r n (S pos) s'
      end
  | 0 =>
      match exec_at r pos s with
      | Some (e, caps) =>
          MkMatch pos (firstn (e - pos) s) caps ::
          match s with
          | [] => []
          | _ :: s' => matchAll_from r (e - pos - 1) (S pos) s'
          end
      | None =>
          match s with
          | [] => []
          | _ :: s' => matchAll_from r 0 (S pos) s'
          end
      end
  end.

Definition matchAll (r : regex) (s : jsstring) : list rmatch_record :=
  matchAll_from r 0 0 s.

(** Sequence of a list of patterns. *)
Fixpoint rseq (rs : list regex) : regex :=
  match rs with
  | [] => REps
  | [r] => r
  | r :: rs' => RSeq r (rseq rs')
  end.

End Regex.
Import Regex.

(* ================================================================== *)
(** * Character tables *)

Module Glyph.

(** Box-drawing code units used by the source's tables. *)
Definition H  : char := 0x2500%N.  (* light horizontal *)
Definition V  : char := 0x2502%N.  (* light vertical *)
Definition DR : char := 0x250c%N.  (* down and right (top-left corner) *)
Definition DL : char := 0x2510%N.  (* down and left (top-right corner) *)
Definition UR : char := 0x2514%N.  (* up and right (bottom-left corner) *)
Definition UL : char := 0x2518%N.  (* up and left (bottom-right corner) *)
Definition VR : char := 0x251c%N.  (* vertical and right *)
Definition VL : char := 0x2524%N.  (* vertical and left *)
Definition DH : char := 0x252c%N.  (* down and horizontal (T) *)
Definition UH : char := 0x2534%N.  (* up and horizontal (inverted T) *)
Definition VH : char := 0x253c%N.  (* vertical and horizontal (cross) *)
Definition HH : char := 0x2550%N.  (* double horizontal *)
Definition VV : char := 0x2551%N.  (* double vertical *)

Definition PIPE  : char := cu "|".
Definition PLUS  : char := cu "+".
Definition MINUS : char := cu "-".
Definition EQUAL : char := cu "=".
Definition UNDER : char := cu "_".
Definition LOWV  : char := cu "v".
Definition CARET : char := cu "^".
Definition LBRACE : char := cu "{".
Definition RBRACE : char := cu "}".
Definition HASH  : char := cu "#".
Definition COLON : char := cu ":".

End Glyph.

(** [/[─│┌┐└┘├┤┬┴┼║]/] (both [RICH_MODE_DETECTOR] and
    [RICH_STRUCTURE_CHARS]). *)
Definition rich_glyphs : list char :=
  [Glyph.H; Glyph.V; Glyph.DR; Glyph.DL; Glyph.UR; Glyph.UL; Glyph.VR;
   Glyph.VL; Glyph.DH; Glyph.UH; Glyph.VH; Glyph.VV].

Definition RICH_MODE_DETECTOR : regex := RCls (char_in rich_glyphs).
Definition RICH_STRUCTURE_CHARS : regex := RCls (char_in rich_glyphs).
(** [/[─│┌┐└┘├┤┬┴┼║|_=/\\*+\-v<>]/] *)
Definition ASCII_STRUCTURE_CHARS : regex :=
  RCls (char_in (rich_glyphs ++
                 [cu "|"; cu "_"; cu "="; cu "/"; cu "\"; cu "*"; cu "+";
                  cu "-"; cu "v"; cu "<"; cu ">"])).
Definition RICH_VERTICAL_CHARS : regex := RCls (char_in [Glyph.V; Glyph.VV]).
Definition ASCII_VERTICAL_CHARS : regex :=
  RCls (char_in [Glyph.V; Glyph.VV; cu "|"]).
Definition CORNER_CHARS : regex :=
  RCls (char_in [Glyph.DR; Glyph.DL; Glyph.UR; Glyph.UL; Glyph.VR; Glyph.VL;
                 Glyph.DH; Glyph.UH; Glyph.VH]).

Definition is_letter (c : char) : bool :=
  (in_range 97 122 c || in_range 65 90 c)%N%bool.
Definition not_rbrace (c : char) : bool := negb (N.eqb c Glyph.RBRACE).
Definition lit (a : ascii) : regex := RCls (N.eqb (cu a)).
(** A letter under the [i] flag (no [u] flag): the two ASCII cases. *)
Definition lit_i (lo up : ascii) : regex :=
  RCls (fun c => (N.eqb c (cu lo) || N.eqb c (cu up))%bool).

(** [/\{\s*#([a-zA-Z]+)\s*:\s*([^}]+?)\s*\}/g] *)
Definition COLOR_MARKER_REGEX : regex :=
  rseq [lit "{"; RStar is_ws; lit "#"; RGroup (RPlus is_letter);
        RStar is_ws; lit ":"; RStar is_ws; RGroup (RPlusLazy not_rbrace);
        RStar is_ws; lit "}"].

Definition CSS_NAMED_COLORS : list jsstring :=
  [js "aliceblue"; js "antiquewhite"; js "aqua"; js "aquamarine"; js "azure";
   js "beige"; js "bisque"; js "black"; js "blanchedalmond"; js "blue";
   js "blueviolet"; js "brown"; js "burlywood"; js "cadetblue";
   js "chartreuse"; js "chocolate"; js "coral"; js "cornflowerblue";
   js "cornsilk"; js "crimson"; js "cyan"; js "darkblue"; js "darkcyan";
   js "darkgoldenrod"; js "darkgray"; js "darkgreen"; js "darkgrey";
   js "darkkhaki"; js "darkmagenta"; js "darkolivegreen"; js "darkorange";
   js "darkorchid"; js "darkred"; js "darksalmon"; js "darkseagreen";
   js "darkslateblue"; js "darkslategray"; js "darkslategrey";
   js "darkturquoise"; js "darkviolet"; js "deeppink"; js "deepskyblue";
   js "dimgray"; js "dimgrey"; js "dodgerblue"; js "firebrick";
   js "floralwhite"; js "forestgreen"; js "fuchsia"; js "gainsboro";
   js "ghostwhite"; js "gold"; js "goldenrod"; js "gray"; js "green";
   js "greenyellow"; js "grey"; js "honeydew"; js "hotpink"; js "indianred";
   js "indigo"; js "ivory"; js "khaki"; js "lavender"; js "lavenderblush";
   js "lawngreen"; js "lemonchiffon"; js "lightblue"; js "lightcoral";
   js "lightcyan"; js "lightgoldenrodyellow"; js "lightgray"; js "lightgreen";
   js "lightgrey"; js "lightpink"; js "lightsalmon"; js "lightseagreen";
   js "lightskyblue"; js "lightslategray"; js "lightslategrey";
   js "lightsteelblue"; js "lightyellow"; js "lime"; js "limegreen";
   js "linen"; js "magenta"; js "maroon"; js "mediumaquamarine";
   js "mediumblue"; js "mediumorchid"; js "mediumpurple"; js "mediumseagreen";
   js "mediumslateblue"; js "mediumspringgreen"; js "mediumturquoise";
   js "mediumvioletred"; js "midnightblue"; js "mintcream"; js "mistyrose";
   js "moccasin"; js "navajowhite"; js "navy"; js "oldlace"; js "olive";
   js "olivedrab"; js "orange"; js "orangered"; js "orchid";
   js "palegoldenrod"; js "palegreen"; js "paleturquoise"; js "palevioletred";
   js "papayawhip"; js "peachpuff"; js "peru"; js "pink"; js "plum";
   js "powderblue"; js "purple"; js "rebeccapurple"; js "red"; js "rosybrown";
   js "royalblue"; js "saddlebrown"; js "salmon"; js "sandybrown";
   js "seagreen"; js "seashell"; js "sienna"; js "silver"; js "skyblue";
   js "slateblue"; js "slategray"; js "slategrey"; js "snow";
   js "springgreen"; js "steelblue"; js "tan"; js "teal"; js "thistle";
   js "tomato"; js "turquoise"; js "violet"; js "wheat"; js "white";
   js "whitesmoke"; js "yellow"; js "yellowgreen"].
(** [Set.prototype.has] on a set of strings. *)
Definition set_has (set : list jsstring) (s : jsstring) : bool :=
  existsb (str_eqb s) set.

(* ================================================================== *)
(** * The structural classifier *)

(** [isStructure(char, isRichMode)] *)
Definition isStructure (char : jsstring) (isRichMode : bool) : bool :=
  if isRichMode then test RICH_STRUCTURE_CHARS char
  else test ASCII_STRUCTURE_CHARS char.

(** [isVert(char, isRichMode)] *)
Definition isVert (char : jsstring) (isRichMode : bool) : bool :=
  if isRichMode then test RICH_VERTICAL_CHARS char
  else test ASCII_VERTICAL_CHARS char.

(** [isCorner(char)] *)
Definition isCorner (char : jsstring) : bool := test CORNER_CHARS char.

(** The class of [connectsDown] in rich mode. *)
Definition rich_down_glyphs : list char :=
  [Glyph.V; Glyph.VV; Glyph.DR; Glyph.DL; Glyph.VR; Glyph.VL; Glyph.DH;
   Glyph.VH; 0x2554; 0x2557; 0x2560; 0x2563; 0x2566; 0x256c; 0x2553;
   0x2556; 0x2552; 0x2555; 0x2565; 0x2564; 0x256b]%N.

(** The class of [connectsUp] in rich mode. *)
Definition rich_up_glyphs : list char :=
  [Glyph.V; Glyph.VV; Glyph.UR; Glyph.UL; Glyph.VR; Glyph.VL; Glyph.UH;
   Glyph.VH; 0x255a; 0x255d; 0x2560; 0x2563; 0x2569; 0x256c; 0x2559;
   0x255c; 0x2558; 0x255b; 0x2568; 0x2567; 0x256b]%N.

Definition ascii_connect : regex :=
  RCls (char_in [cu "|"; cu "+"; cu "v"]).

(** [connectsDown(char, isRichMode)] *)
Definition connectsDown (char : jsstring) (isRichMode : bool) : bool :=
  if isRichMode then
    if (str_eqb char [Glyph.H] || str_eqb char [Glyph.HH])%bool then false
    else test (RCls (char_in rich_down_glyphs)) char
  else
    if (str_eqb char (js "-") || str_eqb char (js "=")
        || str_eqb char (js "_"))%bool then false
    else test ascii_connect char.

(** [connectsUp(char, isRichMode)] *)
Definition connectsUp (char : jsstring) (isRichMode : bool) : bool :=
  if isRichMode then
    if (str_eqb char [Glyph.H] || str_eqb char [Glyph.HH])%bool then false
    else test (RCls (char_in rich_up_glyphs)) char
  else
    if (str_eqb char (js "-") || str_eqb char (js "=")
        || str_eqb char (js "_"))%bool then false
    else test ascii_connect char.

(** [shouldStartAtCenter(char, isRichMode)] *)
Definition shouldStartAtCenter (char : jsstring) (isRichMode : bool) : bool :=
  if isRichMode then
    test (RCls (char_in
      [Glyph.DR; Glyph.DL; Glyph.DH; 0x2554; 0x2557; 0x2566; 0x2553; 0x2556;
       0x2565; 0x2552; 0x2555; 0x2564; Glyph.VH; 0x2560; 0x2563; 0x256c;
       0x255f; 0x2562; 0x256b; 0x255e; 0x2561; 0x256a; Glyph.VR;
       Glyph.VL]%N)) char
  else test (RCls (char_in [cu "+"; cu "v"])) char.

(** [shouldEndAtCenter(char, isRichMode)] *)
Definition shouldEndAtCenter (char : jsstring) (isRichMode : bool) : bool :=
  if isRichMode then
    test (RCls (char_in
      [Glyph.UR; Glyph.UL; Glyph.UH; 0x255a; 0x255d; 0x2569; 0x2559; 0x255c;
       0x2568; 0x2558; 0x255b; 0x2567; Glyph.VH; 0x2560; 0x2563; 0x256c;
       0x255f; 0x2562; 0x256b; 0x255e; 0x2561; 0x256a; Glyph.VR;
       Glyph.VL]%N)) char
  else test (RCls (char_in [cu "+"; cu "v"; cu "^"])) char.

(** [isAsciiWordChar(char)]: [/^[A-Za-z0-9]$/] *)
Definition is_alnum (c : char) : bool :=
  (in_range 65 90 c || in_range 97 122 c || in_range 48 57 c)%N%bool.
Definition isAsciiWordChar (char : jsstring) : bool :=
  test (rseq [RBol; RCls is_alnum; REol]) char.

(** [detectRichMode(input)] *)
Definition detectRichMode (input : jsstring) : bool :=
  test RICH_MODE_DETECTOR input.

(* ================================================================== *)
(** * Colour values *)

Definition is_hex_i (c : char) : bool :=
  (in_range 48 57 c || in_range 97 102 c || in_range 65 70 c)%N%bool.
Definition is_unsafe_punct (c : char) : bool :=
  char_in [cu "("; cu ")"; cu ";"; cu "{"; cu "}"] c.

(** [/url\s*\(/i] *)
Definition RE_URL : regex :=
  rseq [lit_i "u" "U"; lit_i "r" "R"; lit_i "l" "L"; RStar is_ws; lit "("].
(** [/[();{}]/] *)
Definition RE_UNSAFE : regex := RCls is_unsafe_punct.
(** [/^#[0-9a-f]{3}$/i] and [/^#[0-9a-f]{6}$/i] *)
Definition RE_HEX (n : nat) : regex :=
  rseq [RBol; lit "#"; RRep n is_hex_i; REol].
(** [/^[a-z]+$/i] *)
Definition RE_ALPHA : regex := rseq [RBol; RPlus is_letter; REol].

(** [isSafeColorValue(value)] *)
Definition isSafeColorValue (value : jsstring) : bool :=
  let trimmed := trim value in
  match trimmed with
  | [] => false
  | _ :: _ =>
      if test RE_URL trimmed then false
      else if test RE_UNSAFE trimmed then false
      else if test (RE_HEX 3) trimmed then true
      else if test (RE_HEX 6) trimmed then true
      else if test RE_ALPHA trimmed
           then set_has CSS_NAMED_COLORS (toLowerCase trimmed)
           else false
  end.

(* ================================================================== *)
(** * Generic helpers for arrays *)

(** [Array.prototype.sort] with a comparator is a stable sort; [le a b]
    stands for [compare(a, b) <= 0]. *)
Section StableSort.
Variable A : Type.
Variable le : A -> A -> bool.

Fixpoint insert_sorted (x : A) (l : list A) : list A :=
  match l with
  | [] => [x]
  | y :: l' => if le x y then x :: l else y :: insert_sorted x l'
  end.

Fixpoint stable_sort (l : list A) : list A :=
  match l with
  | [] => []
  | x :: l' => insert_sorted x (stable_sort l')
  end.
End StableSort.

(** [arr.splice(at, 0, x)] *)
Definition splice_insert (A : Type) (l : list A) (at_ : nat) (x : A) : list A :=
  firstn at_ l ++ x :: skipn at_ l.

(** [arr.map((x, i) => f x i)] *)
Fixpoint mapi_from (A B : Type) (f : A -> nat -> B) (i : nat) (l : list A)
  : list B :=
  match l with
  | [] => []
  | x :: l' => f x i :: mapi_from f (S i) l'
  end.
Definition mapi (A B : Type) (f : A -> nat -> B) (l : list A) : list B :=
  mapi_from f 0 l.

(** Sequencing of computations that may throw ([None]). *)
Fixpoint sequence (A : Type) (l : list (option A)) : option (list A) :=
  match l with
  | [] => Some []
  | None :: _ => None
  | Some x :: l' =>
      match sequence l' with
      | Some xs => Some (x :: xs)
      | None => None
      end
  end.

(** [row[i]] for a possibly negative or out-of-range index. *)
Definition at_Z (A : Type) (l : list A) (i : Z) : option A :=
  if (i <? 0)%Z then None else nth_error l (Z.to_nat i).

(* ================================================================== *)
(** * The SmoothScrub instance *)

(** The fields [render] and [autoFormat] read for geometry and
    segmentation.  [cw] and [ch] are the numbers [cellWidth] and
    [cellHeight] as rationals (every double is one).  [segmenter] is [None]
    when [Intl.Segmenter] is missing; otherwise it is the function from a
    text to its grapheme segments. *)
Record SmoothScrub : Type := MkScrub {
  cw : Q;
  ch : Q;
  segmenter : option (jsstring -> list jsstring)
}.

(** [new SmoothScrub()] where [Intl.Segmenter] is not available. *)
Definition default_scrub : SmoothScrub := MkScrub 12 24 None.

(* ------------------------------------------------------------------ *)
(** ** Graphemes and widths *)

Definition is_high_surrogate (c : char) : bool := in_range 0xD800 0xDBFF c.
Definition is_low_surrogate (c : char) : bool := in_range 0xDC00 0xDFFF c.

(** [Array.from(text)]: one element per code point. *)
Fixpoint code_points (s : jsstring) : list jsstring :=
  match s with
  | [] => []
  | c :: s' =>
      match s' with
      | d :: s'' =>
          if (is_high_surrogate c && is_low_surrogate d)%bool
          then [c; d] :: code_points s''
          else [c] :: code_points s'
      | [] => [[c]]
      end
  end.

(** Numeric value of one element of [code_points]. *)
Definition code_point_value (cp : jsstring) : N :=
  match cp with
  | [h; l] => (0x10000 + (h - 0xD800) * 0x400 + (l - 0xDC00))%N
  | [c] => c
  | _ => 0%N
  end.

(** [re.test(s)] for a one-class pattern with the [u] flag. *)
Definition test_u (p : N -> bool) (s : jsstring) : bool :=
  existsb (fun cp => p (code_point_value cp)) (code_points s).

(** [splitGraphemes(text)] *)
Definition splitGraphemes (sc : SmoothScrub) (text : jsstring)
  : list jsstring :=
  match segmenter sc with
  | Some seg => seg text
  | None => code_points text
  end.

(** [getGraphemeWidth(grapheme)] *)
Definition getGraphemeWidth (grapheme : jsstring) : Z :=
  if (Nat.eqb (length grapheme) 1 && (nth 0 grapheme 0 <? 127)%N)%bool
  then 1%Z
  else
    let isWide :=
      test_u (fun v => in_range 0x1F300 0x1F9FF v
                       || in_range 0x2600 0x27BF v
                       || in_range 0x4E00 0x9FFF v)%bool grapheme in
    if isWide then 2%Z else 1%Z.

(** [getRichModeWidth(grapheme)] *)
Definition getRichModeWidth (grapheme : jsstring) : Z :=
  if (test_u (in_range 0x1F300 0x1F9FF) grapheme
      || test_u (in_range 0x1FA00 0x1FAFF) grapheme
      || test_u (in_range 0x2600 0x27BF) grapheme
      || test_u (in_range 0x4E00 0x9FFF) grapheme
      || test (RCls (N.eqb 0xFE0F)) grapheme)%bool
  then 2%Z else 1%Z.

(** [getDisplayWidth(grapheme, isRichMode)] *)
Definition getDisplayWidth (grapheme : jsstring) (isRichMode : bool) : Z :=
  if isRichMode then getRichModeWidth grapheme else getGraphemeWidth grapheme.

(** [getTextDisplayWidth(text, isRichMode)] *)
Definition getTextDisplayWidth (sc : SmoothScrub) (text : jsstring)
  (isRichMode : bool) : Z :=
  fold_left (fun width grapheme => (width + getDisplayWidth grapheme isRichMode)%Z)
            (splitGraphemes sc text) 0%Z.

(* ------------------------------------------------------------------ *)
(** ** Style markers *)

Inductive MarkerKey : Type := KBg | KStroke | KColor.

Definition key_text (k : MarkerKey) : jsstring :=
  match k with
  | KBg => js "bg"
  | KStroke => js "stroke"
  | KColor => js "color"
  end.

(** The test [rawKey !== 'bg' && rawKey !== 'stroke' && rawKey !== 'color']:
    [None] when it holds. *)
Definition key_of (rawKey : jsstring) : option MarkerKey :=
  if str_eqb rawKey (js "bg") then Some KBg
  else if str_eqb rawKey (js "stroke") then Some KStroke
  else if str_eqb rawKey (js "color") then Some KColor
  else None.

Record ParsedMarker : Type := MkMarker {
  key : MarkerKey;
  value : jsstring;
  index : nat
}.

Record ParsedLineMarkers : Type := MkParsed {
  rawLine : jsstring;
  cleanLine : jsstring;
  markers : list ParsedMarker;
  hadMarkers : bool
}.

(** The local variables of [parseLineMarkers]. *)
Record ParseState : Type := MkPState {
  ps_markers : list ParsedMarker;
  ps_cleanLine : jsstring;
  ps_cleanIndex : nat;
  ps_cursor : nat;
  ps_hadMarkers : bool
}.

(** One iteration of the loop over [line.matchAll(COLOR_MARKER_REGEX)]. *)
Definition parse_step (sc : SmoothScrub) (line : jsstring)
  (st : ParseState) (m : rmatch_record) : ParseState :=
  let markerText := m_text m in
  let rawKey := toLowerCase (nth 0 (m_groups m) []) in
  let rawValue := trim (nth 1 (m_groups m) []) in
  let matchIndex := m_index m in
  let prefix := slice line (ps_cursor st) matchIndex in
  let cleanLine := ps_cleanLine st ++ prefix in
  let cleanIndex := ps_cleanIndex st + length (splitGraphemes sc prefix) in
  let cursor := matchIndex + length markerText in
  match key_of rawKey with
  | None => MkPState (ps_markers st) cleanLine cleanIndex cursor true
  | Some k =>
      if isSafeColorValue rawValue
      then MkPState (ps_markers st ++ [MkMarker k rawValue cleanIndex])
                    cleanLine cleanIndex cursor true
      else MkPState (ps_markers st) cleanLine cleanIndex cursor true
  end.

(** [parseLineMarkers(line)] *)
Definition parseLineMarkers (sc : SmoothScrub) (line : jsstring)
  : ParsedLineMarkers :=
  let st := fold_left (parse_step sc line)
                      (matchAll COLOR_MARKER_REGEX line)
                      (MkPState [] [] 0 0 false) in
  let suffix := slice_from line (ps_cursor st) in
  MkParsed line (ps_cleanLine st ++ suffix) (ps_markers st) (ps_hadMarkers st).

(** [`{#${marker.key}:${marker.value}}`] *)
Definition marker_text (m : ParsedMarker) : jsstring :=
  js "{#" ++ key_text (key m) ++ js ":" ++ value m ++ js "}".

(** One iteration of [sortedMarkers.forEach] in [injectMarkersIntoLine];
    the state is the array [graphemes] and [offset]. *)
Definition inject_step (st : list jsstring * nat) (marker : ParsedMarker)
  : list jsstring * nat :=
  let (graphemes, offset) := st in
  let insertAt := Nat.max 0 (Nat.min (length graphemes) (index marker + offset)) in
  (splice_insert graphemes insertAt (marker_text marker), offset + 1).

(** [injectMarkersIntoLine(cleanLine, markers)] *)
Definition injectMarkersIntoLine (sc : SmoothScrub) (cleanLine : jsstring)
  (markers : list ParsedMarker) : jsstring :=
  match markers with
  | [] => cleanLine
  | _ :: _ =>
      let graphemes := splitGraphemes sc cleanLine in
      let sortedMarkers :=
        stable_sort (fun a b => index a <=? index b) markers in
      let (graphemes', _) := fold_left inject_step sortedMarkers (graphemes, 0) in
      List.concat graphemes'
  end.

(** [resolveTextColor(markers, colIndex)] *)
Fixpoint resolveTextColor_from (color : option jsstring)
  (markers : list ParsedMarker) (colIndex : nat) : option jsstring :=
  match markers with
  | [] => color
  | marker :: rest =>
      match key marker with
      | KColor =>
          if colIndex <? index marker then color
          else resolveTextColor_from (Some (value marker)) rest colIndex
      | _ => resolveTextColor_from color rest colIndex
      end
  end.
Definition resolveTextColor := resolveTextColor_from None.

(* ------------------------------------------------------------------ *)
(** ** Reading a document *)

(** [ascii.replace(/[\u200B-\u200D\uFEFF]/g, '')] *)
Definition is_zero_width (c : char) : bool :=
  (in_range 0x200B 0x200D c || N.eqb c 0xFEFF)%bool.
Definition strip_zero_width (ascii : jsstring) : jsstring :=
  filter (fun c => negb (is_zero_width c)) ascii.

(** [s.replace(r, '')] for a pattern without the [g] flag: the leftmost
    match is removed. *)
Definition replace_first_empty (r : regex) (s : jsstring) : jsstring :=
  match search r 0 s with
  | Some (st, (en, _)) => firstn st s ++ skipn en s
  | None => s
  end.

(** [/\r$/] *)
Definition RE_CR_END : regex := rseq [RCls (N.eqb CR); REol].

(** [ascii.split('\n').map((line) =>
       this.parseLineMarkers(line.replace(/\r$/, '')))], after the zero-width
    code units have been removed: the [parsedLines] of both [autoFormat] and
    [render]. *)
Definition parse_document (sc : SmoothScrub) (ascii : jsstring)
  : list ParsedLineMarkers :=
  List.map (fun line => parseLineMarkers sc (replace_first_empty RE_CR_END line))
           (split_on NL (strip_zero_width ascii)).

(** The text both entry points hand to [detectRichMode]. *)
Definition clean_text (parsedLines : list ParsedLineMarkers) : jsstring :=
  join [NL] (List.map cleanLine parsedLines).

(* ------------------------------------------------------------------ *)
(** ** autoFormat *)

(** The four arrays of the block-splitting loop. *)
Record BlockState : Type := MkBState {
  bs_blocks : list (list jsstring);
  bs_blockMeta : list (list ParsedLineMarkers);
  bs_currentBlock : list jsstring;
  bs_currentMetaBlock : list ParsedLineMarkers
}.

Definition empty_meta : ParsedLineMarkers := MkParsed [] [] [] false.

(** The pushes guarded by [if (currentBlock.length)]. *)
Definition flush_block (st : BlockState)
  : list (list jsstring) * list (list ParsedLineMarkers) :=
  match bs_currentBlock st with
  | [] => (bs_blocks st, bs_blockMeta st)
  | _ :: _ => (bs_blocks st ++ [bs_currentBlock st],
               bs_blockMeta st ++ [bs_currentMetaBlock st])
  end.

(** One iteration of [parsedLines.forEach] in [autoFormat]. *)
Definition block_step (st : BlockState) (parsedLine : ParsedLineMarkers)
  : BlockState :=
  let line := cleanLine parsedLine in
  match trim line with
  | [] =>
      let (blocks, blockMeta) := flush_block st in
      MkBState (blocks ++ [[ [] ]]) (blockMeta ++ [[empty_meta]]) [] []
  | _ :: _ =>
      MkBState (bs_blocks st) (bs_blockMeta st)
               (bs_currentBlock st ++ [line])
               (bs_currentMetaBlock st ++ [parsedLine])
  end.

(** [/^\s+[|+]\s*$/] *)
Definition RE_STUB : regex :=
  rseq [RBol; RPlus is_ws; RCls (char_in [cu "|"; cu "+"]); RStar is_ws; REol].
(** [/^\s*/] *)
Definition RE_INDENT : regex := rseq [RBol; RStar is_ws].
(** [/^[-─═]+$/] *)
Definition RE_RULE : regex :=
  rseq [RBol; RPlus (char_in [cu "-"; Glyph.H; Glyph.HH]); REol].
(** [/[+┌┐└┘├┤┬┴┼]/] *)
Definition RE_JUNCTION : regex :=
  RCls (char_in [cu "+"; Glyph.DR; Glyph.DL; Glyph.UR; Glyph.UL; Glyph.VR;
                 Glyph.VL; Glyph.DH; Glyph.UH; Glyph.VH]).

(** [stat.lineMeta.hadMarkers ? this.injectMarkersIntoLine(nextLine,
    stat.lineMeta.markers) : nextLine] *)
Definition finish_line (sc : SmoothScrub) (lineMeta : ParsedLineMarkers)
  (nextLine : jsstring) : jsstring :=
  if hadMarkers lineMeta
  then injectMarkersIntoLine sc nextLine (markers lineMeta)
  else nextLine.

(** The [centeredContent] of [autoFormat]. *)
Definition centered_content (trimmedMiddle : jsstring) : option jsstring :=
  if (startsWith trimmedMiddle (js "^") && endsWith trimmedMiddle (js "^")
      && (2 <? length trimmedMiddle))%bool
  then Some trimmedMiddle
  else if (startsWith trimmedMiddle (js "^") && (1 <? length trimmedMiddle)
           && negb (str_eqb trimmedMiddle (js "^^")))%bool
  then Some trimmedMiddle
  else None.

(** The body of [lineStats.map((stat) => ...)]; [None] is a thrown
    exception (the only candidates are [String.prototype.repeat] with a
    negative count). *)
Definition format_line (sc : SmoothScrub) (isRichMode : bool)
  (maxVisWidth : Z) (line : jsstring) (visW : Z)
  (lineMeta : ParsedLineMarkers) : option jsstring :=
  let isConnectorStub := test RE_STUB line in
  if isConnectorStub then Some (finish_line sc lineMeta line) else
  let isStructuralOnlyLine :=
    ((0 <? length (trim line))
     && forallb (fun grapheme =>
                   str_eqb grapheme (js " ") || isStructure grapheme isRichMode)
                (splitGraphemes sc line))%bool in
  if isStructuralOnlyLine then Some (finish_line sc lineMeta line) else
  let diff := (maxVisWidth - visW)%Z in
  let indentation :=
    match search RE_INDENT 0 line with
    | Some (st, (en, _)) => slice line st en
    | None => []
    end in
  let lineWithoutIndentation := slice_from line (length indentation) in
  let firstChar := char_at0 lineWithoutIndentation in
  let lastChar := slice_last lineWithoutIndentation in
  let hasStructuralBoundary :=
    (isStructure firstChar isRichMode || isStructure lastChar isRichMode)%bool in
  if (negb hasStructuralBoundary
      && negb (includes lineWithoutIndentation (js "^")))%bool
  then Some (finish_line sc lineMeta line) else
  let '(prefix, middle) :=
    if ((0 <? length lineWithoutIndentation)
        && isStructure (char_at0 lineWithoutIndentation) isRichMode)%bool
    then (char_at0 lineWithoutIndentation, slice_from lineWithoutIndentation 1)
    else ([], lineWithoutIndentation) in
  let '(suffix, middle) :=
    if ((0 <? length middle) && isStructure (slice_last middle) isRichMode)%bool
    then (slice_last middle, slice_init middle)
    else ([], middle) in
  let hasIndentedStructuralWalls :=
    ((0 <? length prefix) && (0 <? length suffix)
     && isStructure prefix isRichMode && isStructure suffix isRichMode)%bool in
  if (hasIndentedStructuralWalls && (0 <? diff)%Z
      && (isRichMode || (0 <? length indentation)))%bool
  then Some (finish_line sc lineMeta line) else
  let trimmedMiddle := trim middle in
  let centeredContent := centered_content trimmedMiddle in
  match centeredContent with
  | None =>
      if (diff <=? 0)%Z then Some (finish_line sc lineMeta line) else
      match suffix with
      | _ :: _ =>
          let coreContent :=
            filter (fun c => negb (char_in [cu "+"; cu "v"; cu "^"; cu "<";
                                            cu ">"; cu "|"] c)) middle in
          let isStructural := test RE_RULE coreContent in
          let isEmptyStructural :=
            (Nat.eqb (length middle) 0 && test RE_JUNCTION prefix
             && test RE_JUNCTION suffix)%bool in
          let fillChar :=
            if (isStructural || isEmptyStructural)%bool then
              if (includes middle [Glyph.HH] || str_eqb prefix [Glyph.HH])%bool
              then [Glyph.HH]
              else if (includes middle [Glyph.H] || str_eqb prefix [Glyph.H])%bool
              then [Glyph.H]
              else js "-"
            else js " " in
          match repeat_str fillChar diff with
          | None => None
          | Some fill =>
              Some (finish_line sc lineMeta
                      (indentation ++ prefix ++ middle ++ fill ++ suffix))
          end
      | [] => Some (finish_line sc lineMeta line)
      end
  | Some centeredContent =>
      let availableWidth :=
        (maxVisWidth
         - getTextDisplayWidth sc (indentation ++ prefix ++ suffix) isRichMode)%Z in
      let contentWidth := getTextDisplayWidth sc centeredContent isRichMode in
      let totalPadding := Z.max 0 (availableWidth - contentWidth) in
      let leftPad := (totalPadding / 2)%Z in
      let rightPad := (totalPadding - leftPad)%Z in
      match repeat_str (js " ") leftPad, repeat_str (js " ") rightPad with
      | Some lp, Some rp =>
          Some (finish_line sc lineMeta
                  (indentation ++ prefix ++ lp ++ centeredContent ++ rp ++ suffix))
      | _, _ => None
      end
  end.

(** The body of [blocks.map((block, blockIndex) => ...)].  Reading a
    property of [undefined] ([blockMeta[blockIndex][lineIndex]],
    [stat.lineMeta.hadMarkers]) throws. *)
Definition format_block (sc : SmoothScrub) (isRichMode : bool)
  (blockMeta : list (list ParsedLineMarkers))
  (block : list jsstring) (blockIndex : nat) : option jsstring :=
  if (Nat.eqb (length block) 1 && str_eqb (nth 0 block [NL]) [])%bool
  then Some []
  else
    match nth_error blockMeta blockIndex with
    | None => None
    | Some metaBlock =>
        let visWs :=
          List.map (fun line => getTextDisplayWidth sc line isRichMode) block in
        let maxVisWidth :=
          fold_left (fun m visW => if (m <? visW)%Z then visW else m) visWs 0%Z in
        match sequence
                (mapi (fun line lineIndex =>
                         match nth_error metaBlock lineIndex with
                         | None => None
                         | Some lineMeta =>
                             format_line sc isRichMode maxVisWidth line
                               (getTextDisplayWidth sc line isRichMode) lineMeta
                         end) block) with
        | None => None
        | Some formatted => Some (join [NL] formatted)
        end
    end.

(** [autoFormat] from the block-splitting loop on, for a given mode. *)
Definition format_document (sc : SmoothScrub) (isRichMode : bool)
  (parsedLines : list ParsedLineMarkers) : option jsstring :=
  let st := fold_left block_step parsedLines (MkBState [] [] [] []) in
  let (blocks, blockMeta) := flush_block st in
  match sequence (mapi (format_block sc isRichMode blockMeta) blocks) with
  | None => None
  | Some formattedBlocks => Some (join [NL] formattedBlocks)
  end.

(** [autoFormat(ascii)]; [None] stands for a thrown exception. *)
Definition autoFormat (sc : SmoothScrub) (ascii : jsstring) : option jsstring :=
  let parsedLines := parse_document sc ascii in
  let isRichMode := detectRichMode (clean_text parsedLines) in
  format_document sc isRichMode parsedLines.

(* ================================================================== *)
(** * render: grid, boxes, box styles, structural path, text zones *)

Record GridCell : Type := MkCell {
  c_char : jsstring;
  c_x : Q;
  c_y : Q;
  c_cx : Q;
  c_cy : Q;
  c_w : Q;
  c_cols : Z;
  c_partOfStrokedBox : bool
}.

Record Zone : Type := MkZone {
  z_start : nat;
  z_end : nat;
  z_leftX : Q;
  z_rightX : Q
}.

Record VerticalRun : Type := MkRun {
  run_cx : Q;
  run_cells : list GridCell
}.

Record DetectedBox : Type := MkBox {
  b_top : nat;
  b_right : nat;
  b_bottom : nat;
  b_left : nat;
  b_area : Z
}.

Record BoxStyle : Type := MkStyle {
  s_bg : option jsstring;
  s_stroke : option jsstring
}.

(** Path data: the [M x,y] and [L x,y] commands appended to [d]. *)
Inductive PathCmd : Type :=
| MoveTo (x y : Q)
| LineTo (x y : Q).

Definition Qlt_bool (a b : Q) : bool := negb (Qle_bool b a).

Definition indexed (A : Type) (l : list A) : list (nat * A) :=
  combine (seq 0 (length l)) l.

(** [x?.char ?? ''] *)
Definition char_or_empty (o : option GridCell) : jsstring :=
  match o with Some c => c_char c | None => [] end.

(** [x?.char === s] *)
Definition char_is (o : option GridCell) (s : jsstring) : bool :=
  match o with Some c => str_eqb (c_char c) s | None => false end.

(* ------------------------------------------------------------------ *)
(** ** Vertical connectivity *)

(** [findVerticalNeighbor(curr, nextRow, isRichMode)]: the chosen cell of
    [nextRow] together with its column index (its identity). *)
Definition findVerticalNeighbor (sc : SmoothScrub) (curr : GridCell)
  (nextRow : list GridCell) (isRichMode : bool) : option (nat * GridCell) :=
  if negb (connectsDown (c_char curr) isRichMode) then None
  else
    let connectedNextRow :=
      filter (fun candidate => connectsUp (c_char (snd candidate)) isRichMode)
             (indexed nextRow) in
    let tightTolerance := (cw sc * 0.5)%Q in
    let relaxedTolerance := (cw sc * 2.0)%Q in
    let dist (a : nat * GridCell) := Qabs (c_cx (snd a) - c_cx curr)%Q in
    let selectNearest (candidates : list (nat * GridCell)) :=
      hd_error (stable_sort (fun a b => Qle_bool (dist a) (dist b)) candidates) in
    let tightCandidates :=
      filter (fun candidate => Qlt_bool (dist candidate) tightTolerance)
             connectedNextRow in
    let relaxedCandidates :=
      filter (fun candidate => Qlt_bool (dist candidate) relaxedTolerance)
             connectedNextRow in
    match selectNearest tightCandidates with
    | Some r => Some r
    | None => selectNearest relaxedCandidates
    end.

(** [findVerticalNeighbor(...) === cell] where [cell] is the cell at
    [colIndex] of the row searched. *)
Definition is_cell_at (r : option (nat * GridCell)) (colIndex : nat) : bool :=
  match r with Some (i, _) => Nat.eqb i colIndex | None => false end.

(** [isAsciiVConnector(row, colIndex, rowIndex, grid, cell)]; [cell] is
    [row[colIndex]]. *)
Definition isAsciiVConnector (sc : SmoothScrub) (row : list GridCell)
  (colIndex rowIndex : nat) (grid : list (list GridCell)) : bool :=
  let leftChar := char_or_empty (at_Z row (Z.of_nat colIndex - 1)) in
  let rightChar := char_or_empty (at_Z row (Z.of_nat colIndex + 1)) in
  let dash_plus := RCls (char_in [cu "-"; cu "+"]) in
  let hasHorizontalStructuralNeighbor :=
    (test dash_plus leftChar || test dash_plus rightChar)%bool in
  let hasVerticalNeighborAbove :=
    ((0 <? rowIndex)
     && existsb (fun prevCell =>
                   test (RCls (char_in [cu "|"; cu "+"])) (c_char prevCell)
                   && is_cell_at (findVerticalNeighbor sc prevCell row false)
                                 colIndex)
                (nth (rowIndex - 1) grid []))%bool in
  let surroundedByWordChars :=
    (isAsciiWordChar leftChar && isAsciiWordChar rightChar)%bool in
  (hasHorizontalStructuralNeighbor || hasVerticalNeighborAbove
   || negb surroundedByWordChars)%bool.

(** The [while] loop of [detectVerticalRuns]: the cells pushed after the
    start cell; [below] is [grid[currentRowIndex + 1 ..]]. *)
Fixpoint follow_down (sc : SmoothScrub) (isRichMode : bool)
  (currentCell : GridCell) (below : list (list GridCell)) : list GridCell :=
  match below with
  | [] => []
  | nextRow :: below' =>
      match findVerticalNeighbor sc currentCell nextRow isRichMode with
      | None => []
      | Some (_, nextCell) =>
          if (c_partOfStrokedBox currentCell
              && c_partOfStrokedBox nextCell)%bool
          then []
          else nextCell :: follow_down sc isRichMode nextCell below'
      end
  end.

(** The body of [row.forEach((cell, colIndex) => ...)] in
    [detectVerticalRuns]: the run pushed for this cell, if any. *)
Definition run_from (sc : SmoothScrub) (isRichMode : bool)
  (grid : list (list GridCell)) (rowIndex : nat) (row : list GridCell)
  (colIndex : nat) (cell : GridCell) : option VerticalRun :=
  if (negb (connectsDown (c_char cell) isRichMode)
      && negb (connectsUp (c_char cell) isRichMode))%bool then None
  else if (negb isRichMode && str_eqb (c_char cell) (js "v")
           && negb (isAsciiVConnector sc row colIndex rowIndex grid))%bool
  then None
  else
    let prevRow :=
      if 0 <? rowIndex then nth_error grid (rowIndex - 1) else None in
    let hasIncoming :=
      match prevRow with
      | None => false
      | Some prevRow =>
          existsb (fun p =>
                     let prevColIndex := fst p in
                     let prevCell := snd p in
                     if (negb isRichMode && str_eqb (c_char prevCell) (js "v")
                         && negb (isAsciiVConnector sc prevRow prevColIndex
                                    (rowIndex - 1) grid))%bool
                     then false
                     else is_cell_at
                            (findVerticalNeighbor sc prevCell row isRichMode)
                            colIndex)
                  (indexed prevRow)
      end in
    if hasIncoming then None
    else
      let cells :=
        cell :: follow_down sc isRichMode cell (skipn (S rowIndex) grid) in
      if 1 <? length cells then Some (MkRun (c_cx cell) cells) else None.

(** [detectVerticalRuns(grid, isRichMode)] *)
Definition detectVerticalRuns (sc : SmoothScrub) (grid : list (list GridCell))
  (isRichMode : bool) : list VerticalRun :=
  flat_map
    (fun r =>
       let rowIndex := fst r in
       let row := snd r in
       flat_map
         (fun c =>
            match run_from sc isRichMode grid rowIndex row (fst c) (snd c) with
            | Some run => [run]
            | None => []
            end)
         (indexed row))
    (indexed grid).

(* ------------------------------------------------------------------ *)
(** ** Rectangular boxes and their styles *)

Definition isTopLeftCorner (char : jsstring) : bool :=
  (str_eqb char (js "+") || str_eqb char [Glyph.DR])%bool.
Definition isTopRightCorner (char : jsstring) : bool :=
  (str_eqb char (js "+") || str_eqb char [Glyph.DL])%bool.
Definition isBottomLeftCorner (char : jsstring) : bool :=
  (str_eqb char (js "+") || str_eqb char [Glyph.UR])%bool.
Definition isBottomRightCorner (char : jsstring) : bool :=
  (str_eqb char (js "+") || str_eqb char [Glyph.UL])%bool.
Definition isHorizontalBoxEdge (char : jsstring) : bool :=
  (str_eqb char (js "-") || str_eqb char [Glyph.H])%bool.
Definition isVerticalBoxEdge (char : jsstring) : bool :=
  (str_eqb char (js "|") || str_eqb char [Glyph.V] || str_eqb char (js "+")
   || str_eqb char [Glyph.VR] || str_eqb char [Glyph.VL])%bool.

(** [row[i] ?? ''] *)
Definition gchar (row : list jsstring) (i : nat) : jsstring := nth i row [].

(** The integers [a, a+1, ..., b-1] of a [for (i = a; i < b; i += 1)]. *)
Definition range (a b : nat) : list nat := seq a (b - a).

(** [detectRectangularBoxes(lines)]: the four nested loops, in the order
    in which boxes are pushed. *)
Definition detectRectangularBoxes (sc : SmoothScrub) (lines : list jsstring)
  : list DetectedBox :=
  let graphemeRows := List.map (splitGraphemes sc) lines in
  flat_map (fun top =>
    let topRow := nth top graphemeRows [] in
    flat_map (fun left =>
      if negb (isTopLeftCorner (gchar topRow left)) then [] else
      flat_map (fun right =>
        if negb (isTopRightCorner (gchar topRow right)) then [] else
        let validTop :=
          forallb (fun x => isHorizontalBoxEdge (gchar topRow x))
                  (range (left + 1) right) in
        if negb validTop then [] else
        flat_map (fun bottom =>
          let bottomRow := nth bottom graphemeRows [] in
          if negb (isBottomLeftCorner (gchar bottomRow left)) then [] else
          if negb (isBottomRightCorner (gchar bottomRow right)) then [] else
          let validBottom :=
            forallb (fun x => isHorizontalBoxEdge (gchar bottomRow x))
                    (range (left + 1) right) in
          if negb validBottom then [] else
          let validSides :=
            forallb (fun y =>
                       let midRow := nth y graphemeRows [] in
                       isVerticalBoxEdge (gchar midRow left)
                       && isVerticalBoxEdge (gchar midRow right))%bool
                    (range (top + 1) bottom) in
          if negb validSides then [] else
          [MkBox top right bottom left
                 ((Z.of_nat right - Z.of_nat left)
                  * (Z.of_nat bottom - Z.of_nat top))%Z])
          (range (top + 2) (length graphemeRows)))
        (range (left + 2) (length topRow)))
      (range 0 (length topRow)))
    (range 0 (length graphemeRows)).

(** The filter predicate of [findSmallestEnclosingBox]. *)
Definition encloses (box : DetectedBox) (row col : nat) : bool :=
  ((b_top box <? row) && (row <? b_bottom box)
   && (b_left box <? col) && (col <? b_right box))%bool.

(** [findSmallestEnclosingBox(boxes, row, col)] *)
Definition findSmallestEnclosingBox (boxes : list DetectedBox)
  (row col : nat) : option DetectedBox :=
  let enclosing :=
    stable_sort (fun a b => (b_area a <=? b_area b)%Z)
                (filter (fun box => encloses box row col) boxes) in
  hd_error enclosing.

(** The key [`${box.top}:${box.left}:${box.bottom}:${box.right}`] of the
    [boxStyles] map. *)
Definition BoxId : Type := (nat * nat * nat * nat)%type.
Definition box_id (box : DetectedBox) : BoxId :=
  (b_top box, b_left box, b_bottom box, b_right box).
Definition id_eqb (a b : BoxId) : bool :=
  let '(a1, a2, a3, a4) := a in
  let '(b1, b2, b3, b4) := b in
  (Nat.eqb a1 b1 && Nat.eqb a2 b2 && Nat.eqb a3 b3 && Nat.eqb a4 b4)%bool.

(** A [Map<string, BoxStyle>]: entries in insertion order. *)
Definition StyleMap : Type := list (BoxId * BoxStyle).

Fixpoint map_get (m : StyleMap) (id : BoxId) : option BoxStyle :=
  match m with
  | [] => None
  | (k, v) :: m' => if id_eqb k id then Some v else map_get m' id
  end.

Fixpoint map_set (m : StyleMap) (id : BoxId) (v : BoxStyle) : StyleMap :=
  match m with
  | [] => [(id, v)]
  | (k, x) :: m' =>
      if id_eqb k id then (k, v) :: m' else (k, x) :: map_set m' id v
  end.

(** The body of [line.markers.forEach((marker) => ...)] in [render]. *)
Definition style_step (boxes : list DetectedBox) (row : nat)
  (boxStyles : StyleMap) (marker : ParsedMarker) : StyleMap :=
  match key marker with
  | KColor => boxStyles
  | k =>
      match findSmallestEnclosingBox boxes row (index marker) with
      | None => boxStyles
      | Some box =>
          let id := box_id box in
          let style :=
            match map_get boxStyles id with
            | Some st => st
            | None => MkStyle None None
            end in
          let style :=
            match k with
            | KBg => MkStyle (Some (value marker)) (s_stroke style)
            | _ => MkStyle (s_bg style) (Some (value marker))
            end in
          map_set boxStyles id style
      end
  end.

(** [parsedLines.forEach((line, row) => line.markers.forEach(...))] *)
Definition resolve_box_styles (boxes : list DetectedBox)
  (parsedLines : list ParsedLineMarkers) : StyleMap :=
  fold_left (fun boxStyles l =>
               fold_left (style_step boxes (fst l)) (markers (snd l)) boxStyles)
            (indexed parsedLines) [].

(* ------------------------------------------------------------------ *)
(** ** The grid *)

(** Pixel values are rationals and every sum, product and quotient below is
    exact, where the code computes on doubles and rounds after each
    operation.  The two agree as long as every intermediate value is a
    double: with whole-number cell sizes such as the default 12 by 24 all
    of them are whole or half numbers, which doubles hold exactly up to
    [2^52].  With other sizes a value of the model can differ from the
    code's in the last places ([currentX += pxWidth] seven times with a
    cell width of [0.1] gives [0.7999999999999999], not [0.8]).  What is
    stated about pixel values is therefore either written with the
    expressions and comparisons of the code itself, which read the same
    over doubles, or restricted to whole-number cell sizes. *)

(** [graphemes.forEach] of the grid pass: the cells of one row and the
    final [currentX], each sum as the code writes it. *)
Fixpoint build_row (sc : SmoothScrub) (isRichMode : bool) (y currentX : Q)
  (graphemes : list jsstring) : list GridCell * Q :=
  match graphemes with
  | [] => ([], currentX)
  | grapheme :: rest =>
      let widthUnits := getDisplayWidth grapheme isRichMode in
      let pxWidth := (inject_Z widthUnits * cw sc)%Q in
      let cell := MkCell grapheme currentX y (currentX + pxWidth / 2)%Q
                         (y + ch sc / 2)%Q pxWidth widthUnits false in
      let (cells, endX) :=
        build_row sc isRichMode y (currentX + pxWidth)%Q rest in
      (cell :: cells, endX)
  end.

(** [lines.forEach((line, r) => ...)]: the grid and [maxPixelW], with the
    code's own comparison [currentX > maxPixelW]. *)
Definition build_grid (sc : SmoothScrub) (isRichMode : bool)
  (lines : list jsstring) : list (list GridCell) * Q :=
  fold_left
    (fun acc l =>
       let '(grid, maxPixelW) := acc in
       let r := fst l in
       let y := (inject_Z (Z.of_nat r) * ch sc + ch sc)%Q in
       let (rowData, currentX) :=
         build_row sc isRichMode y (cw sc) (splitGraphemes sc (snd l)) in
       (grid ++ [rowData],
        if Qlt_bool maxPixelW currentX then currentX else maxPixelW))
    (indexed lines) ([], 0%Q).

(** [if (grid[r]?.[c]) grid[r][c].partOfStrokedBox = true] *)
Definition tag_cell (grid : list (list GridCell)) (r c : nat)
  : list (list GridCell) :=
  mapi (fun row ri =>
          if Nat.eqb ri r then
            mapi (fun cell ci =>
                    if Nat.eqb ci c
                    then MkCell (c_char cell) (c_x cell) (c_y cell) (c_cx cell)
                                (c_cy cell) (c_w cell) (c_cols cell) true
                    else cell) row
          else row) grid.

(** [!style.stroke]: missing or empty. *)
Definition truthy (o : option jsstring) : bool :=
  match o with Some (_ :: _) => true | _ => false end.

(** The perimeter tagging of one styled box. *)
Definition tag_box (grid : list (list GridCell)) (e : BoxId * BoxStyle)
  : list (list GridCell) :=
  let '((top, left_, bottom, right_), style) := e in
  if negb (truthy (s_stroke style)) then grid
  else
    let grid :=
      fold_left (fun g c => tag_cell (tag_cell g top c) bottom c)
                (range left_ (S right_)) grid in
    fold_left (fun g r => tag_cell (tag_cell g r left_) r right_)
              (range top (S bottom)) grid.

(* ------------------------------------------------------------------ *)
(** ** Structural path *)

(** [canConnectHorizontally(left, right)] *)
Definition canConnectHorizontally (isRichMode : bool) (left right : GridCell)
  : bool :=
  if (c_partOfStrokedBox left && c_partOfStrokedBox right)%bool then false
  else
    (isStructure (c_char left) isRichMode
     && isStructure (c_char right) isRichMode
     && Qlt_bool (Qabs (c_x right - (c_x left + c_w left))) 2)%bool.

(** The inner [while] of pass 1 from index [j] ([row] is the row from [j]
    on): the [L] commands and the number of steps taken. *)
Fixpoint h_extend (isRichMode : bool) (row : list GridCell)
  : list PathCmd * nat :=
  match row with
  | a :: ((b :: _) as rest) =>
      if canConnectHorizontally isRichMode a b then
        let (d, n) := h_extend isRichMode rest in
        (LineTo (c_cx b) (c_cy b) :: d, S n)
      else ([], 0)
  | _ => ([], 0)
  end.

(** The outer [while] of pass 1 at index [i] ([row] is the row from [i] on);
    [skip] cells are still covered by the assignment [i = j]. *)
Fixpoint h_scan (isRichMode : bool) (skip : nat) (row : list GridCell)
  : list PathCmd :=
  match row with
  | [] => []
  | curr :: rest =>
      match skip with
      | S n => h_scan isRichMode n rest
      | 0 =>
          match rest with
          | [] => []
          | next :: _ =>
              if canConnectHorizontally isRichMode curr next then
                let (d, n) := h_extend isRichMode row in
                MoveTo (c_cx curr) (c_cy curr) :: d
                  ++ h_scan isRichMode (n - 1) rest
              else h_scan isRichMode 0 rest
          end
      end
  end.

(** The commands pass 2 appends for one vertical run. *)
Definition run_path (sc : SmoothScrub) (isRichMode : bool) (run : VerticalRun)
  : list PathCmd :=
  match run_cells run with
  | [] => []
  | firstCell :: _ =>
      let lastCell := last (run_cells run) firstCell in
      let startY :=
        if shouldStartAtCenter (c_char firstCell) isRichMode
        then c_cy firstCell else (c_cy firstCell - ch sc / 2)%Q in
      let endY :=
        if shouldEndAtCenter (c_char lastCell) isRichMode
        then c_cy lastCell else (c_cy lastCell + ch sc / 2)%Q in
      [MoveTo (run_cx run) startY; LineTo (run_cx run) endY]
      ++ flat_map
           (fun index =>
              let midY := c_cy (nth index (run_cells run) firstCell) in
              if (Qlt_bool 0.01 (Qabs (midY - startY))
                  && Qlt_bool 0.01 (Qabs (midY - endY)))%bool
              then [MoveTo (run_cx run) midY; LineTo (run_cx run) midY]
              else [])
           (range 1 (length (run_cells run) - 1))
  end.

(* ------------------------------------------------------------------ *)
(** ** Text zones *)

(** [x?.char === a || x?.char === b] for the neighbours of a [+]. *)
Definition char_is_any (o : option GridCell) (ss : list jsstring) : bool :=
  existsb (char_is o) ss.

(** [grid[r]?.[c]] *)
Definition grid_at (grid : list (list GridCell)) (r c : Z) : option GridCell :=
  match at_Z grid r with
  | Some row => at_Z row c
  | None => None
  end.

(** The wall test of pass 3 for the cell at column [i] of row [rowIndex]. *)
Definition is_wall (isRichMode : bool) (grid : list (list GridCell))
  (rowIndex : nat) (row : list GridCell) (i : nat) (cell : GridCell) : bool :=
  let isWall := (isVert (c_char cell) isRichMode || isCorner (c_char cell))%bool in
  if (negb isRichMode && str_eqb (c_char cell) (js "+") && negb isWall)%bool
  then
    let leftChar := at_Z row (Z.of_nat i - 1) in
    let rightChar := at_Z row (Z.of_nat i + 1) in
    let upChar := grid_at grid (Z.of_nat rowIndex - 1) (Z.of_nat i) in
    let downChar := grid_at grid (Z.of_nat rowIndex + 1) (Z.of_nat i) in
    let hasHorizontalBox :=
      (char_is_any leftChar [js "-"; js "+"]
       || char_is_any rightChar [js "-"; js "+"])%bool in
    let hasVerticalBox :=
      (char_is_any upChar [js "|"; js "+"]
       || char_is_any downChar [js "|"; js "+"])%bool in
    (hasHorizontalBox || hasVerticalBox)%bool
  else isWall.

(** The [walls] array of one row: entries [{ i, x }]. *)
Definition row_walls (isRichMode : bool) (grid : list (list GridCell))
  (rowIndex : nat) (row : list GridCell) : list (nat * Q) :=
  flat_map (fun c =>
              if is_wall isRichMode grid rowIndex row (fst c) (snd c)
              then [(fst c, c_x (snd c))] else [])
           (indexed row).

Definition dummy_cell : GridCell := MkCell [] 0 0 0 0 0 0 false.

(** The [zones] array of one row. *)
Definition row_zones (sc : SmoothScrub) (width : Q) (row : list GridCell)
  (walls : list (nat * Q)) : list Zone :=
  if length walls <? 2 then
    [MkZone 0 (length row) (cw sc) (width - cw sc)%Q]
  else
    List.map (fun k =>
                let w1 := nth k walls (0, 0%Q) in
                let w2 := nth (k + 1) walls (0, 0%Q) in
                let leftX := (c_x (nth (fst w1) row dummy_cell)
                              + c_w (nth (fst w1) row dummy_cell))%Q in
                let rightX := c_x (nth (fst w2) row dummy_cell) in
                MkZone (fst w1 + 1) (fst w2) leftX rightX)
             (range 0 (length walls - 1)).

(* ------------------------------------------------------------------ *)
(** ** render *)

(** What [render] computes before text nodes are laid out.  The SVG
    element itself (attributes, [rect] and [text] nodes) is not modelled. *)
Record Rendered : Type := MkRendered {
  r_isRichMode : bool;
  r_boxes : list DetectedBox;
  r_boxStyles : StyleMap;
  r_grid : list (list GridCell);
  r_width : Q;
  r_d : list PathCmd;
  r_zones : list (list Zone)
}.

(** [render] from [detectRectangularBoxes] on, for a given mode. *)
Definition render_document (sc : SmoothScrub) (isRichMode : bool)
  (parsedLines : list ParsedLineMarkers) : Rendered :=
  let lines := List.map cleanLine parsedLines in
  let boxes := detectRectangularBoxes sc lines in
  let boxStyles := resolve_box_styles boxes parsedLines in
  let (grid, maxPixelW) := build_grid sc isRichMode lines in
  let grid := fold_left tag_box boxStyles grid in
  let width := (maxPixelW + cw sc)%Q in
  let d1 := flat_map (fun row => h_scan isRichMode 0 row) grid in
  let verticalRuns := detectVerticalRuns sc grid isRichMode in
  let d2 := flat_map (run_path sc isRichMode) verticalRuns in
  let zones :=
    mapi (fun row rowIndex =>
            row_zones sc width row (row_walls isRichMode grid rowIndex row))
         grid in
  MkRendered isRichMode boxes boxStyles grid width (d1 ++ d2) zones.

(** [render(ascii)] in an environment that has a [document]. *)
Definition render (sc : SmoothScrub) (ascii : jsstring) : Rendered :=
  let parsedLines := parse_document sc ascii in
  let isRichMode := detectRichMode (clean_text parsedLines) in
  render_document sc isRichMode parsedLines.

(* ================================================================== *)
(** * Assumptions about [Intl.Segmenter]

    When the instance has a segmenter, the theorems below that depend on
    what it returns state what they need from it.  All three hold for the
    code-point fallback. *)

(** The segments of a text, concatenated, are the text. *)
Definition segmenter_faithful (sc : SmoothScrub) : Prop :=
  forall s, List.concat (splitGraphemes sc s) = s.

(** Segmenting a run of consecutive segments of a text gives that run
    back. *)
Definition segmenter_stable (sc : SmoothScrub) : Prop :=
  forall s a n,
    splitGraphemes sc (List.concat (firstn n (skipn a (splitGraphemes sc s))))
    = firstn n (skipn a (splitGraphemes sc s)).

(** Printable ASCII text is segmented into its code units. *)
Definition is_printable (c : char) : bool := in_range 32 126 c.
Definition segmenter_ascii (sc : SmoothScrub) : Prop :=
  forall s, forallb is_printable s = true ->
            splitGraphemes sc s = List.map (fun c => [c]) s.

(* ================================================================== *)
(** * Vocabulary of the statements and of their proofs *)

(** A hex colour with [n] digits: [#] followed by [n] hexadecimal digits of
    either case. *)
Definition is_hex_color (n : nat) (v : jsstring) : Prop :=
  exists ds, v = cu "#" :: ds /\ length ds = n /\
             Forall (fun c => is_hex_i c = true) ds.

(** The word [Service] over an isolated [+] below its [v]. *)
Definition service_plus : jsstring := js "Service" ++ [NL] ++ js "   +".

(** A document whose only box-drawing glyph sits inside a marker. *)
Definition glyph_in_marker : jsstring := js "{#a:" ++ [Glyph.H] ++ js "}".

(** [row] and [col] lie strictly inside the box. *)
Definition strictly_inside (box : DetectedBox) (row col : nat) : Prop :=
  b_top box < row < b_bottom box /\ b_left box < col < b_right box.

(** A box inside a box, with a [bg] marker in the inner one. *)
Definition nested_styled : jsstring :=
  js "+------+" ++ [NL] ++ js "| +--+ |" ++ [NL] ++
  js "| |{#bg:#f5f5f5}  | |" ++ [NL] ++ js "| +--+ |" ++ [NL] ++
  js "+------+".

(** Captures made of code units of [line]. *)
Definition caps_in (line : jsstring) (caps : list jsstring) : Prop :=
  Forall (fun cap => incl cap line) caps.

(** A continuation that only returns captures taken from [line]. *)
Definition kont_inside (line : jsstring) (k : kont) : Prop :=
  forall pos s caps res,
    incl s line -> caps_in line caps -> k pos s caps = Some res ->
    caps_in line (snd res).

(** A marker written around another marker. *)
Definition nested_marker : jsstring := js "{#{#a:b}a:b}".

(** The code units [autoFormat] pads with. *)
Definition fill_chars : jsstring := [SPACE; cu "-"; Glyph.H; Glyph.HH].

(** What the block-splitting loop stores for a parsed line: the line
    itself, or the empty record when the clean line is blank. *)
Definition norm_line (p : ParsedLineMarkers) : ParsedLineMarkers :=
  match trim (cleanLine p) with
  | [] => empty_meta
  | _ :: _ => p
  end.

(** The line goes to a block: its clean line does not trim to nothing. *)
Definition nonblank (p : ParsedLineMarkers) : Prop := trim (cleanLine p) <> [].

(** A block and its meta block: either the one-line blank block, or a
    non-empty run of non-blank lines. *)
Definition block_rel (b : list jsstring) (m : list ParsedLineMarkers) : Prop :=
  b = List.map cleanLine m /\ m <> [] /\
  (m = [empty_meta] \/ Forall nonblank m).

(** Invariant of the block-splitting loop after the lines [done]. *)
Definition blocks_inv (st : BlockState) (done : list ParsedLineMarkers)
  : Prop :=
  Forall2 block_rel (bs_blocks st) (bs_blockMeta st) /\
  bs_currentBlock st = List.map cleanLine (bs_currentMetaBlock st) /\
  Forall nonblank (bs_currentMetaBlock st) /\
  List.concat (bs_blockMeta st) ++ bs_currentMetaBlock st
  = List.map norm_line done.

(** What [autoFormat] emits for a stored line [p]: the line as finished by
    [finish_line] from a text made of code units of the clean line and of
    padding; nothing at all for the blank record. *)
Definition line_rel (sc : SmoothScrub) (p : ParsedLineMarkers)
  (out : jsstring) : Prop :=
  (exists text, out = finish_line sc p text /\
                incl text (cleanLine p ++ fill_chars)) /\
  (p = empty_meta -> out = []).

(** The clean line [autoFormat] and [render] derive from one line of the
    input. *)
Definition clean_of_line (sc : SmoothScrub) (l : jsstring) : jsstring :=
  cleanLine (parseLineMarkers sc (replace_first_empty RE_CR_END
                                    (strip_zero_width l))).

(** Four lines, the third one blank. *)
Definition two_boxes : jsstring :=
  js "+--+" ++ [NL] ++ js "|a{#color:red}b|" ++ [NL] ++ js "  " ++ [NL]
  ++ js "+--+".

(** The values [parseLineMarkers] accepts: trimmed and safe. *)
Definition accepted_value (v : jsstring) : Prop :=
  isSafeColorValue v = true /\ trim v = v.

(** Continuation of the value group opened at [pos0] on input [s0]. *)
Definition after_value (pos0 : nat) (s0 : jsstring) : kont :=
  fun pos' s' caps' =>
    rmatch (rseq [RStar is_ws; lit "}"]) accept pos' s'
           (caps' ++ [firstn (pos' - pos0) s0]).

(** Indices that do not decrease, starting at or after [from]. *)
Fixpoint sorted_from (from : nat) (ms : list ParsedMarker) : Prop :=
  match ms with
  | [] => True
  | m :: ms' => from <= index m /\ sorted_from (index m) ms'
  end.

(** Invariant of the loop of [parseLineMarkers]: the markers are sorted,
    bounded by the clean index, and their values were accepted. *)
Definition markers_inv (st : ParseState) : Prop :=
  sorted_from 0 (ps_markers st) /\
  Forall (fun m => index m <= ps_cleanIndex st) (ps_markers st) /\
  Forall (fun m => accepted_value (value m)) (ps_markers st).

(** The array [injectMarkersIntoLine] builds from the graphemes [G] of the
    clean line from index [from] on: runs of graphemes with the marker
    texts in between. *)
Fixpoint weave (G : list jsstring) (from : nat) (ms : list ParsedMarker)
  : list jsstring :=
  match ms with
  | [] => skipn from G
  | m :: ms' =>
      firstn (index m - from) (skipn from G)
      ++ marker_text m :: weave G (index m) ms'
  end.

(** An element of [Array.from(text)]: one code unit, or a surrogate pair. *)
Definition cp_elem_ok (e : jsstring) : Prop :=
  (exists c, e = [c]) \/
  (exists h l, e = [h; l] /\ is_high_surrogate h = true
               /\ is_low_surrogate l = true).

(** A lone high surrogate is never followed by a low one. *)
Definition cp_no_join (e e' : jsstring) : Prop :=
  match e, e' with
  | [c], d :: _ => (is_high_surrogate c && is_low_surrogate d)%bool = false
  | _, _ => True
  end.

(** A list that is the [Array.from] of its concatenation. *)
Fixpoint cp_ok (l : list jsstring) : Prop :=
  match l with
  | [] => True
  | e :: l' =>
      cp_elem_ok e /\
      match l' with [] => True | e' :: _ => cp_no_join e e' end /\
      cp_ok l'
  end.

(** A marker with an unknown key written inside the text of a marker. *)
Definition marker_in_marker : jsstring := js "{#{#foo:x}color:red}".

(** A line with two valid markers, written loosely. *)
Definition styled_line : jsstring := js "| {#color:Red}Hello { #BG : #fff }|".

(* ================================================================== *)
(** * Vocabulary of the further properties *)

(** A continuation that fails on every text made of code units of [L]. *)
Definition kont_fails (L : jsstring) (k : kont) : Prop :=
  forall pos s caps, incl s L -> k pos s caps = None.

(** The markers [resolveTextColor] looks at for column [col]: the colour
    markers placed at or before it. *)
Definition colour_at (col : nat) (m : ParsedMarker) : bool :=
  match key m with
  | KColor => index m <=? col
  | _ => false
  end.

(** The grapheme at row [r], column [c] of the rows of graphemes. *)
Definition grapheme_at (rows : list (list jsstring)) (r c : nat) : jsstring :=
  gchar (nth r rows []) c.

(** The rectangle with the given corners is drawn in [rows]: corner glyphs
    at the four corners, horizontal edges between them on the top and bottom
    rows, vertical edges on both sides of every row in between. *)
Definition box_drawn (rows : list (list jsstring))
  (top left_ bottom right_ : nat) : Prop :=
  top + 2 <= bottom /\ bottom < length rows /\
  left_ + 2 <= right_ /\ right_ < length (nth top rows []) /\
  isTopLeftCorner (grapheme_at rows top left_) = true /\
  isTopRightCorner (grapheme_at rows top right_) = true /\
  isBottomLeftCorner (grapheme_at rows bottom left_) = true /\
  isBottomRightCorner (grapheme_at rows bottom right_) = true /\
  (forall x, left_ < x < right_ ->
             isHorizontalBoxEdge (grapheme_at rows top x) = true /\
             isHorizontalBoxEdge (grapheme_at rows bottom x) = true) /\
  (forall y, top < y < bottom ->
             isVerticalBoxEdge (grapheme_at rows y left_) = true /\
             isVerticalBoxEdge (grapheme_at rows y right_) = true).

(** The markers of a document in the order [render] visits them, each with
    the number of its row. *)
Definition placed_markers (parsedLines : list ParsedLineMarkers)
  : list (nat * ParsedMarker) :=
  flat_map (fun l => List.map (pair (fst l)) (markers (snd l)))
           (indexed parsedLines).

Definition key_eqb (a b : MarkerKey) : bool :=
  match a, b with
  | KBg, KBg | KStroke, KStroke | KColor, KColor => true
  | _, _ => false
  end.

(** The marker has key [k] and the smallest box around it is the box [id]. *)
Definition styles_box (boxes : list DetectedBox) (id : BoxId) (k : MarkerKey)
  (rm : nat * ParsedMarker) : bool :=
  (key_eqb (key (snd rm)) k &&
   match findSmallestEnclosingBox boxes (fst rm) (index (snd rm)) with
   | Some box => id_eqb (box_id box) id
   | None => false
   end)%bool.

(** The value of the last marker of a list, after [d] when it is empty. *)
Definition last_value (d : option jsstring) (l : list (nat * ParsedMarker))
  : option jsstring :=
  last (List.map (fun rm => Some (value (snd rm))) l) d.

(** [boxStyles.get(id)?.bg] and [boxStyles.get(id)?.stroke]. *)
Definition bg_of (o : option BoxStyle) : option jsstring :=
  match o with Some st => s_bg st | None => None end.
Definition stroke_of (o : option BoxStyle) : option jsstring :=
  match o with Some st => s_stroke st | None => None end.


(** Two vertical bars, one below the other. *)
Definition two_bars : jsstring := js "|" ++ [NL] ++ js "|".

(** A cell without its [partOfStrokedBox] tag. *)
Definition untagged (cell : GridCell) : GridCell :=
  MkCell (c_char cell) (c_x cell) (c_y cell) (c_cx cell) (c_cy cell)
         (c_w cell) (c_cols cell) false.

(** The cell with its tag set when [b] holds. *)
Definition tag_if (b : bool) (cell : GridCell) : GridCell :=
  if b then MkCell (c_char cell) (c_x cell) (c_y cell) (c_cx cell)
                   (c_cy cell) (c_w cell) (c_cols cell) true
  else cell.

(** [grid[r]?.[c]] *)
Definition cell_at (grid : list (list GridCell)) (r c : nat)
  : option GridCell :=
  match nth_error grid r with
  | Some row => nth_error row c
  | None => None
  end.

(** Row [r], column [c] lies on the perimeter of the box [id]. *)
Definition on_perimeter (id : BoxId) (r c : nat) : bool :=
  let '(top, left_, bottom, right_) := id in
  (((r =? top) || (r =? bottom)) && (left_ <=? c) && (c <=? right_)
   || ((c =? left_) || (c =? right_)) && (top <=? r) && (r <=? bottom))%bool.

(** The [y] of the cells of row [r]. *)
Definition row_y (sc : SmoothScrub) (r : nat) : Q :=
  (inject_Z (Z.of_nat r) * ch sc + ch sc)%Q.

(** [currentX] at the end of a row of the grid: [cw] for an empty row,
    else [x + w] of the last cell. *)
Definition row_end (sc : SmoothScrub) (row : list GridCell) : Q :=
  fold_left (fun _ cell => (c_x cell + c_w cell)%Q) row (cw sc).

(** The horizontal path of a row read in one pass from left to right:
    every connected pair of neighbours gets an [L] to its right cell, and
    an [M] at its left cell when the pair before was not connected
    ([connected] tells whether it was). *)
Fixpoint h_segments (isRichMode : bool) (connected : bool)
  (row : list GridCell) : list PathCmd :=
  match row with
  | a :: ((b :: _) as rest) =>
      if canConnectHorizontally isRichMode a b then
        (if connected then [] else [MoveTo (c_cx a) (c_cy a)])
        ++ LineTo (c_cx b) (c_cy b) :: h_segments isRichMode true rest
      else h_segments isRichMode false rest
  | _ => []
  end.

(** Invariant of the loop of [parseLineMarkers] on a line whose graphemes
    are its code units: the clean index is the length of the clean text so
    far, and every marker sits at or before it. *)
Definition ascii_inv (st : ParseState) : Prop :=
  ps_cleanIndex st = length (ps_cleanLine st) /\
  Forall (fun m => index m <= length (ps_cleanLine st)) (ps_markers st).

(** The [maxVisWidth] of a block of [autoFormat]. *)
Definition block_width (sc : SmoothScrub) (isRichMode : bool)
  (block : list jsstring) : Z :=
  fold_left (fun m visW => if (m <? visW)%Z then visW else m)
            (List.map (fun line => getTextDisplayWidth sc line isRichMode) block)
            0%Z.

(** Code units a line of plain prose does not hold: the opening brace of a
    marker, the centring caret, a carriage return, zero-width characters. *)
Definition prose_char (c : char) : bool :=
  negb (char_in [Glyph.LBRACE; Glyph.CARET; CR] c || is_zero_width c).

(** A line of plain prose: empty, or with some text that begins, after its
    indentation, and ends with something other than a structural
    character. *)
Definition prose_line (l : jsstring) : bool :=
  (forallb prose_char l &&
   match trimStart l with
   | [] => match l with [] => true | _ :: _ => false end
   | c :: _ => negb (isStructure [c] false)
               && negb (isStructure (slice_last l) false)
   end)%bool.

(** Three lines of prose, the second one empty. *)
Definition prose_text : jsstring :=
  js "Hello, world." ++ [NL] ++ [NL] ++ js "  Indented text" ++ [NL]
  ++ js "a+b".

(** A box whose middle line is shorter than its rules. *)
Definition ragged_box : jsstring :=
  js "+------+" ++ [NL] ++ js "| ab |" ++ [NL] ++ js "+------+".

(** A continuation that, called inside the window from [lo] to [N], ends
    its match inside that window. *)
Definition kont_bounded (lo N : nat) (k : kont) : Prop :=
  forall pos s caps e c,
    lo <= pos -> pos + length s = N -> k pos s caps = Some (e, c) ->
    lo <= e <= N.

(** Matches that lie in [line] one after the other, from index [from] on,
    each one holding the text of the line at its place. *)
Fixpoint spans_from (line : jsstring) (from : nat) (ms : list rmatch_record)
  : Prop :=
  match ms with
  | [] => True
  | m :: ms' =>
      from <= m_index m /\
      m_index m + length (m_text m) <= length line /\
      m_text m = slice line (m_index m) (m_index m + length (m_text m)) /\
      spans_from line (m_index m + length (m_text m)) ms'
  end.

(** The code unit at index [i] of the line lies inside one of the
    matches. *)
Definition in_marker (ms : list rmatch_record) (i : nat) : bool :=
  existsb (fun m => ((m_index m <=? i)
                     && (i <? m_index m + length (m_text m)))%bool) ms.

(** The code units of [s], the line from index [pos] on, that lie outside
    the matches. *)
Fixpoint outside_from (ms : list rmatch_record) (pos : nat) (s : jsstring)
  : jsstring :=
  match s with
  | [] => []
  | c :: s' =>
      if in_marker ms pos then outside_from ms (S pos) s'
      else c :: outside_from ms (S pos) s'
  end.

(** The line without the code units of its matches. *)
Definition outside_markers (ms : list rmatch_record) (line : jsstring)
  : jsstring :=
  outside_from ms 0 line.

(** In [s], the line from index [pos] on, every opening brace outside the
    matches is the last code unit of the line, or the code unit after it
    lies outside the matches too and is neither white space nor [#]. *)
Fixpoint brace_clear_from (ms : list rmatch_record) (pos : nat) (s : jsstring)
  : bool :=
  match s with
  | [] => true
  | c :: s' =>
      (negb (N.eqb Glyph.LBRACE c) || in_marker ms pos ||
       match s' with
       | [] => true
       | d :: _ => negb (in_marker ms (S pos)) && negb (is_ws d)
                   && negb (N.eqb Glyph.HASH d)
       end)
      && brace_clear_from ms (S pos) s'
  end%bool.

Definition brace_clear (ms : list rmatch_record) (line : jsstring) : bool :=
  brace_clear_from ms 0 line.

(** A brace in front of a marker, and the marker. *)
Definition brace_then_marker : jsstring := js "a{b{#color:red}c".

(** Total length of the matched texts. *)
Definition matched_length (ms : list rmatch_record) : nat :=
  list_sum (List.map (fun m => length (m_text m)) ms).

(* ================================================================== *)
(** * render: text nodes *)

Inductive Align : Type := AlignStart | AlignMiddle | AlignEnd.

(** A [text] element as [createTextNode] sets it up. *)
Record TextNode : Type := MkText {
  t_text : jsstring;       (* textContent *)
  t_anchor : Align;        (* text-anchor *)
  t_x : Q;
  t_y : Q;
  t_fill : jsstring;
  t_fontSize : Q;
  t_preserve : bool        (* xml:space = preserve *)
}.

(** [createTextNode(text, align, finalX, cell, preserve, textColor)]: the
    element appended to the text group. *)
Definition createTextNode (sc : SmoothScrub) (text : jsstring) (align : Align)
  (finalX : Q) (cell : option GridCell) (preserve : bool)
  (textColor : option jsstring) : TextNode :=
  let hasEmoji := test_u (in_range 0x1F300 0x1F9FF) text in
  MkText text align finalX
         (match cell with
          | Some c => (c_y c + ch sc * 0.7)%Q
          | None => 0%Q
          end)
         (match textColor with Some c => c | None => js "#444" end)
         (if hasEmoji then (ch sc * 0.75)%Q else (cw sc * 1.35)%Q)
         preserve.

(** [/\s{2,}/] *)
Definition RE_WIDE_GAP : regex := rseq [RRep 2 is_ws; RStar is_ws].

(** [tokenColorBreaks]: the indices of the colour markers strictly inside
    the token, in ascending order. *)
Definition tokenColorBreaks (rowMarkers : list ParsedMarker)
  (tokenStartCol tokenEndCol : nat) : list nat :=
  stable_sort Nat.leb
    (List.map index
       (filter (fun marker =>
                  (key_eqb (key marker) KColor
                   && (tokenStartCol <? index marker)
                   && (index marker <? tokenEndCol))%bool)
               rowMarkers)).

(** The [for] loop of [createSplitAwareTextNode] from [splitIndex] on:
    [splitPoints] is the array from that index on. *)
Fixpoint split_segments (sc : SmoothScrub) (isRichMode : bool)
  (rowMarkers : list ParsedMarker) (tokenGraphemes : list jsstring)
  (tokenStartCol : nat) (tokenLeftX : Q) (cell : option GridCell)
  (preserve : bool) (splitPoints : list nat) (consumedCols : Z)
  : list TextNode :=
  match splitPoints with
  | segmentStartCol :: ((segmentEndCol :: _) as rest) =>
      let localStart := segmentStartCol - tokenStartCol in
      let localEnd := segmentEndCol - tokenStartCol in
      let segmentText :=
        List.concat (firstn (localEnd - localStart)
                            (skipn localStart tokenGraphemes)) in
      match segmentText with
      | [] =>
          split_segments sc isRichMode rowMarkers tokenGraphemes tokenStartCol
                         tokenLeftX cell preserve rest consumedCols
      | _ :: _ =>
          let segmentColor := resolveTextColor rowMarkers segmentStartCol in
          let segmentX := (tokenLeftX + inject_Z consumedCols * cw sc)%Q in
          createTextNode sc segmentText AlignStart segmentX cell
                         (preserve || test RE_WIDE_GAP segmentText)
                         segmentColor
          :: split_segments sc isRichMode rowMarkers tokenGraphemes
               tokenStartCol tokenLeftX cell preserve rest
               (consumedCols
                + getTextDisplayWidth sc segmentText isRichMode)%Z
      end
  | _ => []
  end.

(** [createSplitAwareTextNode(text, align, finalX, cell, preserve,
    tokenStartCol)], with [rowMarkers] for [parsedLines[rowIndex].markers]:
    the text nodes it creates, in order. *)
Definition createSplitAwareTextNode (sc : SmoothScrub) (isRichMode : bool)
  (rowMarkers : list ParsedMarker) (text : jsstring) (align : Align)
  (finalX : Q) (cell : option GridCell) (preserve : bool)
  (tokenStartCol : nat) : list TextNode :=
  let tokenGraphemes := splitGraphemes sc text in
  let tokenEndCol := tokenStartCol + length tokenGraphemes in
  let breaks := tokenColorBreaks rowMarkers tokenStartCol tokenEndCol in
  match breaks with
  | [] =>
      [createTextNode sc text align finalX cell preserve
                      (resolveTextColor rowMarkers tokenStartCol)]
  | _ :: _ =>
      let splitPoints := tokenStartCol :: breaks ++ [tokenEndCol] in
      let tokenDisplayWidth := getTextDisplayWidth sc text isRichMode in
      let tokenWidthPx := (inject_Z tokenDisplayWidth * cw sc)%Q in
      let tokenLeftX :=
        match align with
        | AlignMiddle => (finalX - tokenWidthPx / 2)%Q
        | AlignEnd => (finalX - tokenWidthPx)%Q
        | AlignStart => finalX
        end in
      split_segments sc isRichMode rowMarkers tokenGraphemes tokenStartCol
                     tokenLeftX cell preserve splitPoints 0%Z
  end.

(** The graphemes a list of text nodes draws, each with the fill of its
    node. *)
Definition coloured_graphemes (sc : SmoothScrub) (nodes : list TextNode)
  : list (jsstring * jsstring) :=
  flat_map (fun n => List.map (fun g => (g, t_fill n))
                              (splitGraphemes sc (t_text n))) nodes.

(** The fill of a grapheme at column [col]: the colour
    [resolveTextColor] gives, or the default grey. *)
Definition column_colour (rowMarkers : list ParsedMarker) (col : nat)
  : jsstring :=
  match resolveTextColor rowMarkers col with
  | Some c => c
  | None => js "#444"
  end.

(** Numbers that do not decrease, starting at or after [from]. *)
Fixpoint ascending (from : nat) (l : list nat) : Prop :=
  match l with
  | [] => True
  | x :: l' => from <= x /\ ascending x l'
  end.

(** Consecutive split points with no colour marker strictly between
    them. *)
Fixpoint gaps_free (rowMarkers : list ParsedMarker) (sp : list nat) : Prop :=
  match sp with
  | a :: ((b :: _) as rest) =>
      a <= b /\
      (forall m, In m rowMarkers -> key m = KColor -> ~ a < index m < b) /\
      gaps_free rowMarkers rest
  | _ => True
  end.

(** A line whose colour changes inside a word. *)
Definition two_colours : jsstring := js "{#color:red}ab{#color:blue}cd".

(* ================================================================== *)
(** * render: the rectangles of styled boxes *)

(** A [rect] element: position, size, [fill] and [stroke] ([None] for
    [fill="none"] and for no [stroke] attribute). *)
Record SvgRect : Type := MkRect {
  rect_x : Q;
  rect_y : Q;
  rect_width : Q;
  rect_height : Q;
  rect_fill : option jsstring;
  rect_stroke : option jsstring
}.

(** [Math.max(0, x)] *)
Definition Qmax0 (x : Q) : Q := if Qlt_bool 0 x then x else 0%Q.

(** The [rect] appended to [boxFillGroup] for an entry of [boxStyles]. *)
Definition box_fill_rect (sc : SmoothScrub) (e : BoxId * BoxStyle)
  : option SvgRect :=
  let '((top, left_, bottom, right_), style) := e in
  if truthy (s_bg style) then
    let innerX := ((inject_Z (Z.of_nat left_) + 1.5) * cw sc)%Q in
    let innerY := ((inject_Z (Z.of_nat top) + 1.5) * ch sc)%Q in
    let innerWidth :=
      Qmax0 (inject_Z (Z.of_nat right_ - Z.of_nat left_) * cw sc)%Q in
    let innerHeight :=
      Qmax0 (inject_Z (Z.of_nat bottom - Z.of_nat top) * ch sc)%Q in
    if (Qlt_bool 0 innerWidth && Qlt_bool 0 innerHeight)%bool
    then Some (MkRect innerX innerY innerWidth innerHeight (s_bg style) None)
    else None
  else None.

(** The [rect] appended to [boxStrokeGroup] for an entry of [boxStyles]. *)
Definition box_stroke_rect (sc : SmoothScrub) (e : BoxId * BoxStyle)
  : option SvgRect :=
  let '((top, left_, bottom, right_), style) := e in
  if truthy (s_stroke style) then
    Some (MkRect ((inject_Z (Z.of_nat left_) + 1.5) * cw sc)%Q
                 ((inject_Z (Z.of_nat top) + 1.5) * ch sc)%Q
                 (inject_Z (Z.of_nat right_ - Z.of_nat left_) * cw sc)%Q
                 (inject_Z (Z.of_nat bottom - Z.of_nat top) * ch sc)%Q
                 None (s_stroke style))
  else None.

(** A box with a stroke marker inside. *)
Definition stroked_box : jsstring :=
  js "+---+" ++ [NL] ++ js "|{#stroke:red} a |" ++ [NL] ++ js "+---+".

(* ================================================================== *)
(** * Basic facts about strings and the matcher *)

Lemma str_eqb_eq a b : str_eqb a b = true <-> a = b.
Proof.
  revert b; induction a as [|x a IH]; intros [|y b]; simpl; split; intro H;
    try congruence; try reflexivity.
  - apply andb_true_iff in H as [H1 H2]. apply N.eqb_eq in H1.
    apply IH in H2. congruence.
  - inversion H; subst. rewrite N.eqb_refl. simpl. now apply IH.
Qed.

Lemma str_eqb_refl a : str_eqb a a = true.
Proof. now apply str_eqb_eq. Qed.


(** Boolean character tests turned into arithmetic facts. *)
Ltac cls_unfold :=
  unfold is_ws, is_letter, is_hex_i, is_alnum, is_unsafe_punct, not_rbrace,
    char_in, in_range, existsb, cu, Glyph.RBRACE, Glyph.LBRACE in *;
  simpl N_of_ascii in *.

Ltac cls_prop :=
  repeat match goal with
    | H : _ |- _ =>
        first [ rewrite orb_true_iff in H | rewrite andb_true_iff in H
              | rewrite orb_false_iff in H | rewrite andb_false_iff in H
              | rewrite negb_true_iff in H | rewrite negb_false_iff in H
              | rewrite N.eqb_eq in H | rewrite N.eqb_neq in H
              | rewrite N.leb_le in H | rewrite N.leb_gt in H ]
    end;
  repeat first [ rewrite orb_true_iff | rewrite andb_true_iff
               | rewrite orb_false_iff | rewrite andb_false_iff
               | rewrite negb_true_iff | rewrite negb_false_iff
               | rewrite N.eqb_eq | rewrite N.eqb_neq
               | rewrite N.leb_le | rewrite N.leb_gt ].

Ltac cls_solve := cls_unfold; cls_prop; lia.

Lemma search_cls p pos s :
  search (RCls p) pos s = None <-> existsb p s = false.
Proof.
  revert pos; induction s as [|c s IH]; intro pos; simpl.
  - unfold exec_at; simpl. tauto.
  - unfold exec_at; simpl. destruct (p c); simpl.
    + unfold accept. split; discriminate.
    + apply IH.
Qed.

Lemma test_cls p s : test (RCls p) s = existsb p s.
Proof.
  unfold test. destruct (search (RCls p) 0 s) eqn:E.
  - destruct (existsb p s) eqn:E'; [reflexivity|].
    apply (search_cls p 0) in E'. rewrite E' in E. discriminate.
  - symmetry. now apply (search_cls p 0).
Qed.

(** A pattern that starts with a class cannot match where no code unit of
    the input is in that class. *)
Lemma search_head_cls p r pos s :
  existsb p s = false -> search (RSeq (RCls p) r) pos s = None.
Proof.
  revert pos; induction s as [|c s IH]; intros pos H; simpl.
  - reflexivity.
  - simpl in H. apply orb_false_iff in H as [Hc Hs].
    unfold exec_at; simpl. rewrite Hc. now apply IH.
Qed.

Lemma dropWhile_id p s :
  match s with [] => True | c :: _ => p c = false end -> dropWhile p s = s.
Proof. destruct s as [|c s]; simpl; [reflexivity|]. now intros ->. Qed.

Lemma existsb_rev (p : char -> bool) s : existsb p (rev s) = existsb p s.
Proof.
  induction s as [|c s IH]; simpl; [reflexivity|].
  rewrite existsb_app, IH. simpl. rewrite orb_false_r. apply orb_comm.
Qed.

Lemma trim_no_ws s : existsb is_ws s = false -> trim s = s.
Proof.
  intro H. unfold trim, trimStart, trimEnd.
  rewrite (dropWhile_id is_ws s).
  - rewrite dropWhile_id; [apply rev_involutive|].
    rewrite <- existsb_rev in H. destruct (rev s); simpl in *; [exact I|].
    now apply orb_false_iff in H.
  - destruct s; simpl in *; [exact I|]. now apply orb_false_iff in H.
Qed.

Lemma dropWhile_keeps (p : char -> bool) c s :
  In c s -> p c = false -> In c (dropWhile p s).
Proof.
  induction s as [|d s IH]; simpl; [tauto|].
  intros [->|Hin] Hp.
  - rewrite Hp. now left.
  - destruct (p d); [now apply IH|]. now right.
Qed.

Lemma trim_keeps c s : In c s -> is_ws c = false -> In c (trim s).
Proof.
  intros Hin Hws. unfold trim, trimEnd, trimStart.
  apply in_rev. rewrite rev_involutive.
  apply dropWhile_keeps; [|exact Hws].
  apply -> in_rev. now apply dropWhile_keeps.
Qed.

Lemma startsWith_In s sub c : startsWith s sub = true -> In c sub -> In c s.
Proof.
  revert s; induction sub as [|d sub IH]; intros s H Hin; [destruct Hin|].
  destruct s as [|e s]; simpl in H; [discriminate|].
  apply andb_true_iff in H as [He Hs]. apply N.eqb_eq in He. subst e.
  destruct Hin as [->|Hin]; [now left|]. right. now apply IH.
Qed.

Lemma includes_In s sub c : includes s sub = true -> In c sub -> In c s.
Proof.
  induction s as [|e s IH]; intros H Hin.
  - destruct sub; [destruct Hin | discriminate].
  - cbn [includes] in H. apply orb_true_iff in H as [H|H].
    + exact (startsWith_In _ _ _ H Hin).
    + right. now apply IH.
Qed.

(* ================================================================== *)
(** * C1: the colour-safety check *)

Lemma hex_color_plain n v :
  is_hex_color n v ->
  existsb is_ws v = false /\ existsb is_unsafe_punct v = false /\
  existsb (fun c => (N.eqb c (cu "u") || N.eqb c (cu "U"))%bool) v = false.
Proof.
  intros (ds & -> & _ & Hall).
  assert (forall q : char -> bool,
             q (cu "#") = false ->
             (forall c, is_hex_i c = true -> q c = false) ->
             existsb q (cu "#" :: ds) = false) as A.
  { intros q Hq Hh. cbn [existsb]. rewrite Hq. cbn [orb].
    induction Hall as [|c ds Hc _ IH]; cbn [existsb]; [reflexivity|].
    now rewrite (Hh c Hc), IH. }
  repeat split; apply A; try reflexivity; intros c Hc; cls_solve.
Qed.

Lemma rep_exact_all n p k pos s caps :
  length s = n -> Forall (fun c => p c = true) s ->
  rep_exact n p k pos s caps = k (pos + n) [] caps.
Proof.
  revert pos s; induction n as [|n IH]; intros pos s Hl Hall.
  - destruct s; [|discriminate]. simpl. now rewrite Nat.add_0_r.
  - destruct s as [|c s]; [discriminate|]. inversion Hall; subst.
    simpl. rewrite H1. rewrite IH by (simpl in Hl; now try lia).
    f_equal. lia.
Qed.

Lemma test_hex n v : is_hex_color n v -> test (RE_HEX n) v = true.
Proof.
  intros (ds & -> & Hl & Hall).
  unfold test, RE_HEX. simpl. unfold exec_at. simpl.
  rewrite (@rep_exact_all _ _ _ _ _ _ Hl Hall). reflexivity.
Qed.

Lemma test_url_no_u v :
  existsb (fun c => (N.eqb c (cu "u") || N.eqb c (cu "U"))%bool) v = false ->
  test RE_URL v = false.
Proof.
  intro H. unfold test, RE_URL. cbn [rseq]. unfold lit_i at 1.
  now rewrite search_head_cls.
Qed.

Lemma isSafeColorValue_hex n v :
  n = 3 \/ n = 6 -> is_hex_color n v -> isSafeColorValue v = true.
Proof.
  intros Hn Hv. destruct (hex_color_plain Hv) as (Hws & Hpun & Hu).
  unfold isSafeColorValue. rewrite (trim_no_ws _ Hws).
  rewrite (test_url_no_u _ Hu). unfold RE_UNSAFE. rewrite test_cls, Hpun.
  destruct Hv as (ds & -> & Hl & Hall).
  assert (is_hex_color n (cu "#" :: ds)) as Hv by (now exists ds).
  destruct Hn as [-> | ->].
  - now rewrite (test_hex Hv).
  - rewrite (test_hex Hv). now destruct (test (RE_HEX 3) _).
Qed.

Lemma isSafeColorValue_named :
  forallb isSafeColorValue CSS_NAMED_COLORS = true.
Proof. vm_compute. reflexivity. Qed.

Lemma isSafeColorValue_unsafe c v :
  In c v -> is_unsafe_punct c = true -> isSafeColorValue v = false.
Proof.
  intros Hin Hc.
  assert (is_ws c = false) as Hws by cls_solve.
  pose proof (trim_keeps _ _ Hin Hws) as Ht.
  unfold isSafeColorValue. destruct (trim v) as [|d t] eqn:E; [reflexivity|].
  destruct (test RE_URL (d :: t)); [reflexivity|].
  unfold RE_UNSAFE. rewrite test_cls.
  assert (existsb is_unsafe_punct (d :: t) = true) as ->; [|reflexivity].
  apply existsb_exists. now exists c.
Qed.

(** C1.  Every 3- or 6-digit hex colour and every colour name of the
    allow-list passes [isSafeColorValue]; every string that contains one of
    the code units ( ) { } ; or the substring [url(] is rejected. *)
Theorem isSafeColorValue_spec :
  (forall v,
      is_hex_color 3 v \/ is_hex_color 6 v \/ In v CSS_NAMED_COLORS ->
      isSafeColorValue v = true) /\
  (forall v,
      (exists c, In c v /\ In c (js "(){};")) \/
      includes v (js "url(") = true ->
      isSafeColorValue v = false).
Proof.
  split.
  - intros v [H | [H | H]].
    + apply (isSafeColorValue_hex (n := 3)); auto.
    + apply (isSafeColorValue_hex (n := 6)); auto.
    + pose proof isSafeColorValue_named as A.
      rewrite forallb_forall in A. now apply A.
  - intros v [(c & Hin & Hc) | H].
    + apply (isSafeColorValue_unsafe c); [exact Hin|].
      simpl in Hc. unfold is_unsafe_punct, char_in.
      apply existsb_exists. exists c. split; [|apply N.eqb_refl].
      simpl. intuition.
    + apply (isSafeColorValue_unsafe (cu "(")); [|reflexivity].
      apply (includes_In _ _ _ H). simpl. auto.
Qed.

Lemma isSafeColorValue_spec_witness :
  isSafeColorValue (js "#a1B") = true /\
  isSafeColorValue (js "#00ff7F") = true /\
  isSafeColorValue (js "rebeccapurple") = true /\
  isSafeColorValue (js "rgb(1,2,3)") = false /\
  isSafeColorValue (js "url(js)") = false.
Proof.
  refine (conj _ (conj _ (conj _ (conj _ _)))).
  - apply (proj1 isSafeColorValue_spec). left.
    exists (js "a1B"). split; [reflexivity|]. split; [reflexivity|].
    repeat constructor.
  - apply (proj1 isSafeColorValue_spec). right; left.
    exists (js "00ff7F"). split; [reflexivity|]. split; [reflexivity|].
    repeat constructor.
  - apply (proj1 isSafeColorValue_spec). right; right.
    unfold CSS_NAMED_COLORS. simpl. tauto.
  - apply (proj2 isSafeColorValue_spec). left.
    exists (cu "("). simpl. tauto.
  - apply (proj2 isSafeColorValue_spec). right. reflexivity.
Defined.

(* ================================================================== *)
(** * C6: vertical connectivity of single glyphs *)

Lemma str_eqb_single c d : str_eqb [c] [d] = N.eqb c d.
Proof. simpl. apply andb_true_r. Qed.

Lemma test_cls_single p c : test (RCls p) [c] = p c.
Proof. rewrite test_cls. simpl. apply orb_false_r. Qed.

(** In ASCII mode a one-unit glyph connects (either way) exactly when it is
    [|], [+] or [v]. *)
Lemma connects_ascii c :
  connectsDown [c] false = char_in [cu "|"; cu "+"; cu "v"] c /\
  connectsUp [c] false = char_in [cu "|"; cu "+"; cu "v"] c.
Proof.
  unfold connectsDown, connectsUp, ascii_connect.
  rewrite test_cls_single.
  change (js "-") with [cu "-"]. change (js "=") with [cu "="].
  change (js "_") with [cu "_"]. rewrite !str_eqb_single.
  destruct (N.eqb c (cu "-")) eqn:E1; [apply N.eqb_eq in E1; subst; auto|].
  destruct (N.eqb c (cu "=")) eqn:E2; [apply N.eqb_eq in E2; subst; auto|].
  destruct (N.eqb c (cu "_")) eqn:E3; [apply N.eqb_eq in E3; subst; auto|].
  auto.
Qed.

(** In rich mode a one-unit glyph connects downwards (upwards) exactly when
    it is in the class of [connectsDown] ([connectsUp]). *)
Lemma connects_rich c :
  connectsDown [c] true = char_in rich_down_glyphs c /\
  connectsUp [c] true = char_in rich_up_glyphs c.
Proof.
  unfold connectsDown, connectsUp. rewrite !test_cls_single, !str_eqb_single.
  destruct (N.eqb c Glyph.H) eqn:E1; [apply N.eqb_eq in E1; subst; auto|].
  destruct (N.eqb c Glyph.HH) eqn:E2; [apply N.eqb_eq in E2; subst; auto|].
  auto.
Qed.

(** C6 as stated fails: the T junction (U+252C) is a junction glyph
    ([isCorner]) and structural in rich mode, it connects downwards, but
    [connectsUp] is false for it. *)
Lemma connects_tee_counterexample :
  isCorner [Glyph.DH] = true /\
  isStructure [Glyph.DH] true = true /\
  connectsDown [Glyph.DH] true = true /\
  connectsUp [Glyph.DH] true = false.
Proof. repeat split. Qed.

(** C6, amended.  The horizontal rules never connect vertically, in either
    mode.  In rich mode the vertical bars and the junctions with both a
    stem above and below (U+2502, U+2551, U+251C, U+2524, U+253C) connect
    both ways; the glyphs that only open downwards (U+250C, U+2510, U+252C)
    satisfy [connectsDown] only, those that only open upwards (U+2514,
    U+2518, U+2534) [connectsUp] only.  In ASCII mode [|], [+] and [v]
    connect both ways, and [v] connects in ASCII mode only. *)
Theorem connects_vertical_spec :
  (forall c mode,
      In c [Glyph.H; cu "="; cu "-"; cu "_"] ->
      connectsDown [c] mode = false /\ connectsUp [c] mode = false) /\
  (forall c,
      In c [Glyph.V; Glyph.VV; Glyph.VR; Glyph.VL; Glyph.VH] ->
      connectsDown [c] true = true /\ connectsUp [c] true = true) /\
  (forall c,
      In c [Glyph.DR; Glyph.DL; Glyph.DH] ->
      connectsDown [c] true = true /\ connectsUp [c] true = false) /\
  (forall c,
      In c [Glyph.UR; Glyph.UL; Glyph.UH] ->
      connectsDown [c] true = false /\ connectsUp [c] true = true) /\
  (forall c,
      In c [cu "|"; cu "+"; cu "v"] ->
      connectsDown [c] false = true /\ connectsUp [c] false = true) /\
  (connectsDown (js "v") true = false /\ connectsUp (js "v") true = false).
Proof.
  repeat match goal with |- _ /\ _ => split end;
    try (intros c mode Hin; destruct mode; simpl in Hin;
         repeat destruct Hin as [<- | Hin]; try contradiction;
         split; reflexivity);
    try (intros c Hin; simpl in Hin;
         repeat destruct Hin as [<- | Hin]; try contradiction;
         split; reflexivity);
    reflexivity.
Qed.

Lemma connects_vertical_spec_witness :
  (connectsDown [cu "-"] false = false /\ connectsUp [cu "-"] false = false) /\
  (connectsDown [Glyph.VH] true = true /\ connectsUp [Glyph.VH] true = true) /\
  (connectsDown [cu "v"] false = true /\ connectsUp [cu "v"] false = true).
Proof.
  refine (conj _ (conj _ _)).
  - apply (proj1 connects_vertical_spec). simpl. tauto.
  - apply (proj1 (proj2 connects_vertical_spec)). simpl. tauto.
  - apply (proj1 (proj2 (proj2 (proj2 (proj2 connects_vertical_spec))))).
    simpl. tauto.
Defined.

(* ================================================================== *)
(** * The segmenter in [render] *)

Lemma fold_left_ext_in (A B : Type) (f g : A -> B -> A) (l : list B) (a : A) :
  (forall acc x, In x l -> f acc x = g acc x) ->
  fold_left f l a = fold_left g l a.
Proof.
  revert a; induction l as [|x l IH]; intros a H; simpl; [reflexivity|].
  rewrite H by now left. apply IH. intros; apply H; now right.
Qed.

Lemma indexed_snd_In (A : Type) (l : list A) (x : nat * A) :
  In x (indexed l) -> In (snd x) l.
Proof.
  unfold indexed. destruct x as [i a]. intro H.
  apply in_combine_r in H. exact H.
Qed.

Lemma build_row_segmenter c h seg seg' rich y x gs :
  build_row (MkScrub c h seg) rich y x gs
  = build_row (MkScrub c h seg') rich y x gs.
Proof.
  revert x; induction gs as [|g gs IH]; intro x; simpl; [reflexivity|].
  now rewrite IH.
Qed.

Lemma follow_down_segmenter c h seg seg' rich cell below :
  follow_down (MkScrub c h seg) rich cell below
  = follow_down (MkScrub c h seg') rich cell below.
Proof.
  revert cell; induction below as [|row below IH]; intro cell; simpl;
    [reflexivity|].
  change (findVerticalNeighbor (MkScrub c h seg) cell row rich)
    with (findVerticalNeighbor (MkScrub c h seg') cell row rich).
  destruct (findVerticalNeighbor _ cell row rich) as [[i n]|]; [|reflexivity].
  now rewrite IH.
Qed.

Lemma detectVerticalRuns_segmenter c h seg seg' grid rich :
  detectVerticalRuns (MkScrub c h seg) grid rich
  = detectVerticalRuns (MkScrub c h seg') grid rich.
Proof.
  unfold detectVerticalRuns. apply flat_map_ext. intros [ri row].
  apply flat_map_ext. intros [ci cell]. unfold run_from.
  now rewrite (follow_down_segmenter c h seg seg').
Qed.

(** [render] reads the segmenter only to split the clean lines. *)
Lemma render_document_segmenter c h seg seg' rich parsed :
  (forall p, In p parsed ->
             splitGraphemes (MkScrub c h seg) (cleanLine p)
             = splitGraphemes (MkScrub c h seg') (cleanLine p)) ->
  render_document (MkScrub c h seg) rich parsed
  = render_document (MkScrub c h seg') rich parsed.
Proof.
  intro H. unfold render_document.
  assert (detectRectangularBoxes (MkScrub c h seg) (List.map cleanLine parsed)
          = detectRectangularBoxes (MkScrub c h seg') (List.map cleanLine parsed))
    as ->.
  { unfold detectRectangularBoxes.
    rewrite (map_ext_in (splitGraphemes (MkScrub c h seg))
                        (splitGraphemes (MkScrub c h seg'))); [reflexivity|].
    intros l Hl. apply in_map_iff in Hl as (p & <- & Hp). now apply H. }
  assert (build_grid (MkScrub c h seg) rich (List.map cleanLine parsed)
          = build_grid (MkScrub c h seg') rich (List.map cleanLine parsed))
    as ->.
  { unfold build_grid. apply fold_left_ext_in.
    intros [grid m] x Hx. apply indexed_snd_In in Hx.
    apply in_map_iff in Hx as (p & E & Hp). rewrite <- E.
    rewrite (H p Hp).
    now rewrite (build_row_segmenter c h seg seg'). }
  destruct (build_grid _ rich _) as [grid m]. cbv zeta.
  now rewrite (detectVerticalRuns_segmenter c h seg seg').
Qed.

Lemma code_points_ascii s :
  forallb is_printable s = true -> code_points s = List.map (fun c => [c]) s.
Proof.
  induction s as [|c s IH]; simpl; [reflexivity|].
  intro H. apply andb_true_iff in H as [Hc Hs].
  rewrite <- (IH Hs). destruct s as [|d s']; [reflexivity|].
  assert (is_high_surrogate c = false) as ->; [|reflexivity].
  unfold is_printable, is_high_surrogate, in_range in *. cls_prop. lia.
Qed.

Lemma segmenter_ascii_fallback c h : segmenter_ascii (MkScrub c h None).
Proof. intros s Hs. now apply code_points_ascii. Qed.

(* ================================================================== *)
(** * C3: the ASCII arrowhead *)

(** C3.  With the default cell size, [render "-v-"] runs in ASCII mode and
    its path has a line segment; [render] of [Service] over an isolated [+]
    runs in ASCII mode and its path is empty: the [v] of the word (column 3
    of row 0) is not a connector. *)
Theorem ascii_v_connector_spec :
  forall seg,
    segmenter_ascii (MkScrub 12 24 seg) ->
    (r_isRichMode (render (MkScrub 12 24 seg) (js "-v-")) = false /\
     exists x y, In (LineTo x y) (r_d (render (MkScrub 12 24 seg) (js "-v-"))))
    /\
    (r_isRichMode (render (MkScrub 12 24 seg) service_plus) = false /\
     r_d (render (MkScrub 12 24 seg) service_plus) = [] /\
     let grid := r_grid (render (MkScrub 12 24 seg) service_plus) in
     isAsciiVConnector (MkScrub 12 24 seg) (nth 0 grid []) 3 0 grid = false).
Proof.
  intros seg H. split.
  - unfold render.
    assert (parse_document (MkScrub 12 24 seg) (js "-v-")
            = [MkParsed (js "-v-") (js "-v-") [] false]) as -> by reflexivity.
    rewrite (@render_document_segmenter 12 24 seg None).
    + split; [reflexivity|]. vm_compute.
      eexists. eexists. right. left. reflexivity.
    + intros p [<- | []]. rewrite H by reflexivity. reflexivity.
  - unfold render.
    assert (parse_document (MkScrub 12 24 seg) service_plus
            = [MkParsed (js "Service") (js "Service") [] false;
               MkParsed (js "   +") (js "   +") [] false]) as ->
        by reflexivity.
    rewrite (@render_document_segmenter 12 24 seg None).
    + split; [reflexivity|]. split; [vm_compute; reflexivity|].
      cbv zeta.
      change (isAsciiVConnector (MkScrub 12 24 seg))
        with (isAsciiVConnector (MkScrub 12 24 None)).
      vm_compute. reflexivity.
    + intros p [<- | [<- | []]]; rewrite H by reflexivity; reflexivity.
Qed.

Lemma ascii_v_connector_spec_witness :
  (exists x y, In (LineTo x y) (r_d (render default_scrub (js "-v-")))) /\
  r_d (render default_scrub service_plus) = [].
Proof.
  pose proof (ascii_v_connector_spec (segmenter_ascii_fallback 12 24)) as H.
  split.
  - exact (proj2 (proj1 H)).
  - exact (proj1 (proj2 (proj2 H))).
Defined.

(* ================================================================== *)
(** * C7: text zones *)

Lemma nth_error_mapi_from (A B : Type) (f : A -> nat -> B) i l n :
  nth_error (mapi_from f i l) n
  = option_map (fun x => f x (i + n)) (nth_error l n).
Proof.
  revert i n; induction l as [|x l IH]; intros i [|n]; simpl; try reflexivity.
  - now rewrite Nat.add_0_r.
  - rewrite IH. now rewrite Nat.add_succ_comm.
Qed.

Lemma nth_error_mapi (A B : Type) (f : A -> nat -> B) l n :
  nth_error (mapi f l) n = option_map (fun x => f x n) (nth_error l n).
Proof. unfold mapi. now rewrite nth_error_mapi_from. Qed.

(** The walls of a row, with an offset for the induction. *)
Lemma row_walls_from (f : nat -> GridCell -> bool) (row : list GridCell) i :
  let walls :=
    flat_map (fun c => if f (fst c) (snd c) then [(fst c, c_x (snd c))] else [])
             (combine (seq i (length row)) row) in
  Forall (fun w => i <= fst w /\
                   exists cell, nth_error row (fst w - i) = Some cell /\
                                snd w = c_x cell) walls /\
  forall k wA wB, nth_error walls k = Some wA ->
                  nth_error walls (S k) = Some wB -> fst wA < fst wB.
Proof.
  revert i; induction row as [|cell row IH]; intro i; simpl.
  - split; [constructor|]. intros [|k]; discriminate.
  - destruct (IH (S i)) as [IH1 IH2]. simpl in IH1, IH2.
    assert (Forall (fun w : nat * Q => i <= fst w /\
               exists cell0, nth_error (cell :: row) (fst w - i) = Some cell0
                             /\ snd w = c_x cell0)
              (flat_map (fun c => if f (fst c) (snd c)
                                  then [(fst c, c_x (snd c))] else [])
                        (combine (seq (S i) (length row)) row))) as IH1'.
    { eapply Forall_impl; [|exact IH1]. intros [j x] (Hle & c & Hc & Hx).
      simpl in *. split; [lia|]. exists c. split; [|exact Hx].
      replace (j - i) with (S (j - S i)) by lia. exact Hc. }
    destruct (f i cell).
    + split.
      * constructor; [|exact IH1']. simpl. split; [lia|].
        exists cell. rewrite Nat.sub_diag. auto.
      * intros [|k] wA wB HA HB; cbn in HA, HB.
        -- inversion HA; subst. simpl.
           match type of HB with
           | match ?L with _ => _ end = _ =>
               assert (In wB L) as HinB
                 by (destruct L; [discriminate | inversion HB; now left])
           end.
           rewrite Forall_forall in IH1.
           destruct (IH1 _ HinB) as [Hle _]. lia.
        -- eapply IH2; eauto.
    + split; [exact IH1'|]. exact IH2.
Qed.

Lemma row_walls_spec rich grid rowIndex row :
  let walls := row_walls rich grid rowIndex row in
  (forall w, In w walls ->
             exists cell, nth_error row (fst w) = Some cell /\ snd w = c_x cell)
  /\
  (forall k wA wB, nth_error walls k = Some wA ->
                   nth_error walls (S k) = Some wB -> fst wA < fst wB).
Proof.
  pose proof (row_walls_from (fun i c => is_wall rich grid rowIndex row i c)
                row 0) as [H1 H2].
  split.
  - intros w Hw. rewrite Forall_forall in H1.
    destruct (H1 w Hw) as (_ & cell & Hc & Hx).
    rewrite Nat.sub_0_r in Hc. eauto.
  - exact H2.
Qed.

Lemma row_zones_few sc width row walls :
  length walls < 2 ->
  row_zones sc width row walls
  = [MkZone 0 (length row) (cw sc) (width - cw sc)%Q].
Proof.
  intro H. unfold row_zones.
  destruct (Nat.ltb_spec (length walls) 2); [reflexivity|lia].
Qed.

Lemma row_zones_pairs sc width row walls :
  2 <= length walls ->
  length (row_zones sc width row walls) = length walls - 1 /\
  forall k wA wB,
    nth_error walls k = Some wA -> nth_error walls (S k) = Some wB ->
    nth_error (row_zones sc width row walls) k
    = Some (MkZone (fst wA + 1) (fst wB)
                   (c_x (nth (fst wA) row dummy_cell)
                    + c_w (nth (fst wA) row dummy_cell))%Q
                   (c_x (nth (fst wB) row dummy_cell))).
Proof.
  intro H. unfold row_zones.
  destruct (Nat.ltb_spec (length walls) 2); [lia|].
  split.
  - rewrite length_map. unfold range. rewrite length_seq. lia.
  - intros k wA wB HA HB.
    assert (S k < length walls) as Hk
        by (apply nth_error_Some; congruence).
    rewrite nth_error_map. unfold range.
    rewrite nth_error_seq.
    destruct (Nat.ltb_spec k (length walls - 1 - 0)); [|lia].
    cbn [option_map Nat.add]. replace (k + 1) with (S k) by lia.
    now rewrite (nth_error_nth _ _ _ HA), (nth_error_nth _ _ _ HB).
Qed.

(** C7.  In [render], a row with fewer than two wall cells has exactly one
    zone, from cell 0 to the row length, between the canvas margins ([cw]
    and [width - cw]); otherwise there is exactly one zone per pair of
    adjacent walls, starting one cell after the first wall and ending
    (exclusively) at the second, bounded by the right edge of the first
    wall cell and the left edge of the second. *)
Theorem text_zones_spec :
  forall sc ascii rowIndex row,
    let r := render sc ascii in
    nth_error (r_grid r) rowIndex = Some row ->
    let walls := row_walls (r_isRichMode r) (r_grid r) rowIndex row in
    exists zones,
      nth_error (r_zones r) rowIndex = Some zones /\
      (length walls < 2 ->
       zones = [MkZone 0 (length row) (cw sc) (r_width r - cw sc)%Q]) /\
      (2 <= length walls ->
       length zones = length walls - 1 /\
       forall k wA wB,
         nth_error walls k = Some wA -> nth_error walls (S k) = Some wB ->
         fst wA < fst wB /\
         exists cellA cellB,
           nth_error row (fst wA) = Some cellA /\
           nth_error row (fst wB) = Some cellB /\
           nth_error zones k
           = Some (MkZone (fst wA + 1) (fst wB)
                          (c_x cellA + c_w cellA)%Q (c_x cellB))).
Proof.
  intros sc ascii rowIndex row r Hrow walls.
  exists (row_zones sc (r_width r) row walls).
  assert (nth_error (r_zones r) rowIndex
          = Some (row_zones sc (r_width r) row walls)) as Hz.
  { subst walls. revert Hrow. subst r. unfold render, render_document.
    destruct (build_grid sc _ _) as [grid m]. cbn [r_zones r_grid r_width
      r_isRichMode]. intro Hrow. rewrite nth_error_mapi, Hrow. reflexivity. }
  split; [exact Hz|]. split.
  - apply row_zones_few.
  - intro H2. destruct (@row_zones_pairs sc (r_width r) row walls H2) as [Hl Hk].
    split; [exact Hl|]. intros k wA wB HA HB.
    destruct (row_walls_spec (r_isRichMode r) (r_grid r) rowIndex row)
      as [Hcells Hsorted].
    split; [now apply (Hsorted k)|].
    destruct (Hcells wA (nth_error_In _ _ HA)) as (cellA & HcA & _).
    destruct (Hcells wB (nth_error_In _ _ HB)) as (cellB & HcB & _).
    exists cellA, cellB. split; [exact HcA|]. split; [exact HcB|].
    rewrite (Hk k wA wB HA HB).
    now rewrite (nth_error_nth _ _ _ HcA), (nth_error_nth _ _ _ HcB).
Qed.

Lemma text_zones_spec_witness :
  exists zones,
    nth_error (r_zones (render default_scrub (js "|a|bc|"))) 0 = Some zones /\
    length zones = 2.
Proof.
  pose (row := nth 0 (r_grid (render default_scrub (js "|a|bc|"))) []).
  assert (nth_error (r_grid (render default_scrub (js "|a|bc|"))) 0 = Some row)
    as Hrow by (vm_compute; reflexivity).
  destruct (text_zones_spec default_scrub (js "|a|bc|") 0 Hrow)
    as (zones & Hz & _ & Hpairs).
  exists zones. split; [exact Hz|].
  assert (2 <= length (row_walls
                         (r_isRichMode (render default_scrub (js "|a|bc|")))
                         (r_grid (render default_scrub (js "|a|bc|"))) 0 row))
    as H2 by (vm_compute; lia).
  destruct (Hpairs H2) as [Hl _]. rewrite Hl. vm_compute. reflexivity.
Defined.

(* ================================================================== *)
(** * The smallest enclosing box *)

Section StableSortIn.
Variable A : Type.
Variable le : A -> A -> bool.

Lemma insert_sorted_In x y l :
  In y (insert_sorted le x l) <-> y = x \/ In y l.
Proof.
  induction l as [|z l IH]; simpl.
  - intuition.
  - destruct (le x z); simpl; [intuition|]. rewrite IH. intuition.
Qed.

Lemma stable_sort_In y l : In y (stable_sort le l) <-> In y l.
Proof.
  induction l as [|x l IH]; simpl; [tauto|].
  rewrite insert_sorted_In, IH. intuition.
Qed.

Lemma stable_sort_nil l : stable_sort le l = [] -> l = [].
Proof.
  destruct l as [|x l]; [reflexivity|]. simpl. intro H.
  assert (In x (insert_sorted le x (stable_sort le l))) as Hin
      by (apply insert_sorted_In; now left).
  rewrite H in Hin. destruct Hin.
Qed.
End StableSortIn.

Section StableSortMin.
Variable A : Type.
Variable key_ : A -> Z.
Let le (a b : A) : bool := (key_ a <=? key_ b)%Z.

Lemma insert_sorted_hd x l h :
  hd_error (insert_sorted le x l) = Some h ->
  (forall h', hd_error l = Some h' ->
              forall y, In y l -> (key_ h' <= key_ y)%Z) ->
  forall y, y = x \/ In y l -> (key_ h <= key_ y)%Z.
Proof.
  destruct l as [|z l]; simpl.
  - intros [= <-] _ y [-> | []]. lia.
  - unfold le at 1. destruct (Z.leb_spec (key_ x) (key_ z)); simpl.
    + intros [= <-] Hmin y [-> | Hy]; [lia|].
      specialize (Hmin z eq_refl y Hy). lia.
    + intros [= <-] Hmin y [-> | Hy]; [lia|].
      now apply (Hmin z eq_refl).
Qed.

(** The first element of the sorted array has the least key. *)
Lemma stable_sort_hd l h :
  hd_error (stable_sort le l) = Some h ->
  forall y, In y l -> (key_ h <= key_ y)%Z.
Proof.
  revert h; induction l as [|x l IH]; intros h Hh y Hy; [destruct Hy|].
  simpl in Hh. apply (@insert_sorted_hd x (stable_sort le l) h Hh).
  - intros h' Hh' y' Hy'. apply (IH h' Hh').
    now apply stable_sort_In in Hy'.
  - destruct Hy as [-> | Hy]; [now left|]. right.
    now apply stable_sort_In.
Qed.
End StableSortMin.

Lemma encloses_iff box row col :
  encloses box row col = true <-> strictly_inside box row col.
Proof.
  unfold encloses, strictly_inside.
  rewrite !andb_true_iff, !Nat.ltb_lt. tauto.
Qed.

Lemma findSmallestEnclosingBox_some boxes row col box :
  findSmallestEnclosingBox boxes row col = Some box ->
  In box boxes /\ strictly_inside box row col /\
  forall other, In other boxes -> strictly_inside other row col ->
                (b_area box <= b_area other)%Z.
Proof.
  unfold findSmallestEnclosingBox. intro H.
  assert (In box (filter (fun b => encloses b row col) boxes)) as Hin.
  { apply (stable_sort_In (fun a b => (b_area a <=? b_area b)%Z)).
    destruct (stable_sort _ _); [discriminate|]. inversion H. now left. }
  apply filter_In in Hin as [Hin Henc].
  split; [exact Hin|]. split; [now apply encloses_iff|].
  intros other Ho Hs. apply (stable_sort_hd b_area _ H).
  apply filter_In. split; [exact Ho|]. now apply encloses_iff.
Qed.

Lemma findSmallestEnclosingBox_none boxes row col :
  findSmallestEnclosingBox boxes row col = None <->
  forall box, In box boxes -> ~ strictly_inside box row col.
Proof.
  unfold findSmallestEnclosingBox. split.
  - intros H box Hin Hs.
    destruct (stable_sort _ _) eqn:E; [|discriminate].
    apply stable_sort_nil in E.
    assert (In box (filter (fun b => encloses b row col) boxes)) as Hf
        by (apply filter_In; split; [exact Hin | now apply encloses_iff]).
    rewrite E in Hf. destruct Hf.
  - intro H. destruct (stable_sort _ _) as [|b l] eqn:E; [reflexivity|].
    assert (In b (filter (fun b => encloses b row col) boxes)) as Hf.
    { apply (stable_sort_In (fun a b => (b_area a <=? b_area b)%Z)).
      rewrite E. now left. }
    apply filter_In in Hf as [Hin Henc]. apply encloses_iff in Henc.
    now destruct (H b Hin).
Qed.

Lemma id_eqb_refl id : id_eqb id id = true.
Proof.
  destruct id as [[[a b] c] d]. simpl. now rewrite !Nat.eqb_refl.
Qed.

Lemma map_get_set m id v : map_get (map_set m id v) id = Some v.
Proof.
  induction m as [|[k x] m IH]; simpl.
  - now rewrite id_eqb_refl.
  - destruct (id_eqb k id) eqn:E; simpl; rewrite E; [reflexivity | exact IH].
Qed.

(** Every detected box has corners at least two cells apart, and its area
    field is the product of its side lengths. *)
Lemma detectRectangularBoxes_area sc lines box :
  In box (detectRectangularBoxes sc lines) ->
  b_top box + 2 <= b_bottom box /\ b_left box + 2 <= b_right box /\
  b_area box = (Z.of_nat (b_right box - b_left box)
                * Z.of_nat (b_bottom box - b_top box))%Z.
Proof.
  unfold detectRectangularBoxes, range. intro H.
  apply in_flat_map in H as (top & _ & H).
  apply in_flat_map in H as (left_ & _ & H).
  destruct (negb (isTopLeftCorner _)); [destruct H|].
  apply in_flat_map in H as (right_ & Hr & H).
  destruct (negb (isTopRightCorner _)); [destruct H|].
  destruct (negb (forallb _ _)); [destruct H|].
  apply in_flat_map in H as (bottom & Hb & H).
  destruct (negb (isBottomLeftCorner _)); [destruct H|].
  destruct (negb (isBottomRightCorner _)); [destruct H|].
  destruct (negb (forallb _ _)); [destruct H|].
  destruct (negb (forallb _ _)); [destruct H|].
  destruct H as [<- | []]. simpl.
  apply in_seq in Hr. apply in_seq in Hb.
  repeat split; lia.
Qed.

(** [render] detects the boxes on the clean lines and folds [style_step]
    over the markers of every line, with the line number as [row]. *)
Lemma render_box_styles sc ascii :
  let lines := List.map cleanLine (parse_document sc ascii) in
  r_boxes (render sc ascii) = detectRectangularBoxes sc lines /\
  r_boxStyles (render sc ascii)
  = fold_left (fun boxStyles l =>
                 fold_left (style_step (detectRectangularBoxes sc lines) (fst l))
                           (markers (snd l)) boxStyles)
              (indexed (parse_document sc ascii)) [].
Proof.
  unfold render, render_document.
  destruct (build_grid sc _ _) as [grid m]. now split.
Qed.

(* ================================================================== *)
(** * Pieces of a list *)

Lemma firstn_incl (A : Type) n (l : list A) : incl (firstn n l) l.
Proof.
  intros x Hx. rewrite <- (firstn_skipn n l). apply in_or_app. now left.
Qed.

Lemma skipn_incl (A : Type) n (l : list A) : incl (skipn n l) l.
Proof.
  intros x Hx. rewrite <- (firstn_skipn n l). apply in_or_app. now right.
Qed.

Lemma slice_incl s a b : incl (slice s a b) s.
Proof.
  unfold slice. intros x Hx. apply (@skipn_incl _ a). eapply firstn_incl; eauto.
Qed.

(* ================================================================== *)
(** * Matches of a pattern lie inside the input *)

Section CapturesInside.
Variable line : jsstring.

Lemma incl_tail (c : char) s : incl (c :: s) line -> incl s line.
Proof. intros H x Hx. apply H. now right. Qed.

Lemma star_greedy_inside p k : kont_inside line k -> kont_inside line (star_greedy p k).
Proof.
  intros Hk pos s. revert pos.
  induction s as [|c s IH]; intros pos caps res Hs Hc H; simpl in H.
  - exact (Hk _ _ _ _ Hs Hc H).
  - destruct (p c).
    + destruct (star_greedy p k (S pos) s caps) eqn:E.
      * inversion H; subst. exact (IH _ _ _ (incl_tail Hs) Hc E).
      * exact (Hk _ _ _ _ Hs Hc H).
    + exact (Hk _ _ _ _ Hs Hc H).
Qed.

Lemma plus_lazy_inside p k : kont_inside line k -> kont_inside line (plus_lazy p k).
Proof.
  intros Hk pos s. revert pos.
  induction s as [|c s IH]; intros pos caps res Hs Hc H; simpl in H.
  - discriminate.
  - destruct (p c); [|discriminate].
    destruct (k (S pos) s caps) eqn:E.
    + inversion H; subst. exact (Hk _ _ _ _ (incl_tail Hs) Hc E).
    + exact (IH _ _ _ (incl_tail Hs) Hc H).
Qed.

Lemma rep_exact_inside n p k : kont_inside line k -> kont_inside line (rep_exact n p k).
Proof.
  intros Hk. induction n as [|n IH]; intros pos s caps res Hs Hc H;
    simpl in H.
  - exact (Hk _ _ _ _ Hs Hc H).
  - destruct s as [|c s]; [discriminate|].
    destruct (p c); [|discriminate].
    exact (IH _ _ _ _ (incl_tail Hs) Hc H).
Qed.

Lemma rmatch_inside r : forall k, kont_inside line k -> kont_inside line (rmatch r k).
Proof.
  induction r as [| | |p|p|p|p|n p|r IH|r1 IH1 r2 IH2]; intros k Hk.
  - exact Hk.
  - intros pos s caps res Hs Hc H. simpl in H.
    destruct (Nat.eqb pos 0); [|discriminate]. exact (Hk _ _ _ _ Hs Hc H).
  - intros pos s caps res Hs Hc H. simpl in H.
    destruct s; [|discriminate]. exact (Hk _ _ _ _ Hs Hc H).
  - intros pos s caps res Hs Hc H. simpl in H.
    destruct s as [|c s]; [discriminate|].
    destruct (p c); [|discriminate].
    exact (Hk _ _ _ _ (incl_tail Hs) Hc H).
  - now apply star_greedy_inside.
  - intros pos s caps res Hs Hc H. simpl in H.
    destruct s as [|c s]; [discriminate|].
    destruct (p c); [|discriminate].
    pose proof (star_greedy_inside p Hk) as Hsg.
    exact (Hsg _ _ _ _ (incl_tail Hs) Hc H).
  - now apply plus_lazy_inside.
  - now apply rep_exact_inside.
  - intros pos s caps res Hs Hc H. simpl in H.
    refine (IH _ _ pos s caps res Hs Hc H).
    intros pos' s' caps' res' Hs' Hc' H'.
    refine (Hk _ _ _ _ Hs' _ H').
    apply Forall_app. split; [exact Hc'|].
    constructor; [|constructor].
    intros x Hx. apply Hs. eapply firstn_incl; eauto.
  - simpl. apply IH1. now apply IH2.
Qed.

Lemma exec_at_inside r pos s e caps :
  incl s line -> exec_at r pos s = Some (e, caps) -> caps_in line caps.
Proof.
  intros Hs H.
  apply (@rmatch_inside r accept) with (pos := pos) (s := s) (caps := [])
                                       (res := (e, caps)); auto.
  - intros p s' c res _ Hc [= <-]. exact Hc.
  - constructor.
Qed.

Lemma matchAll_from_inside r skip pos s :
  incl s line ->
  Forall (fun m => incl (m_text m) line /\ caps_in line (m_groups m))
         (matchAll_from r skip pos s).
Proof.
  revert skip pos. induction s as [|c s IH]; intros skip pos Hs.
  - destruct skip; simpl; [|constructor].
    destruct (exec_at r pos []) as [[e caps]|] eqn:E; constructor;
      [|constructor].
    simpl. split; [|eapply exec_at_inside; eauto].
    rewrite firstn_nil. intros x [].
  - destruct skip as [|n]; simpl; [|apply IH; eauto using incl_tail].
    destruct (exec_at r pos (c :: s)) as [[e caps]|] eqn:E.
    + constructor; [|apply IH; eauto using incl_tail].
      simpl. split; [|eapply exec_at_inside; eauto].
      intros x Hx. apply Hs. eapply firstn_incl; eauto.
    + apply IH; eauto using incl_tail.
Qed.
End CapturesInside.

(** A pattern that starts with a class has no match in a text without a
    code unit of that class. *)
Lemma matchAll_from_head_cls p r skip pos s :
  existsb p s = false -> matchAll_from (RSeq (RCls p) r) skip pos s = [].
Proof.
  revert skip pos; induction s as [|c s IH]; intros skip pos H.
  - destruct skip; reflexivity.
  - simpl in H. apply orb_false_iff in H as [Hc Hs].
    destruct skip as [|n]; simpl; [|now apply IH].
    unfold exec_at. simpl. rewrite Hc. now apply IH.
Qed.

Lemma no_char_existsb c s : ~ In c s -> existsb (N.eqb c) s = false.
Proof.
  intro H. destruct (existsb (N.eqb c) s) eqn:E; [|reflexivity].
  apply existsb_exists in E as (x & Hx & Heq). apply N.eqb_eq in Heq.
  subst. contradiction.
Qed.

Lemma matchAll_no_brace s :
  ~ In Glyph.LBRACE s -> matchAll COLOR_MARKER_REGEX s = [].
Proof.
  intro H. unfold matchAll, COLOR_MARKER_REGEX. cbn [rseq]. unfold lit at 1.
  apply matchAll_from_head_cls. now apply no_char_existsb.
Qed.

(* ================================================================== *)
(** * Facts about [parseLineMarkers] *)

Lemma parseLineMarkers_no_match sc line :
  matchAll COLOR_MARKER_REGEX line = [] ->
  parseLineMarkers sc line = MkParsed line line [] false.
Proof. intro H. unfold parseLineMarkers. rewrite H. reflexivity. Qed.

Lemma parse_step_hadMarkers sc line st m :
  ps_hadMarkers (parse_step sc line st m) = true.
Proof.
  unfold parse_step. destruct (key_of _); [|reflexivity].
  now destruct (isSafeColorValue _).
Qed.

Lemma parse_fold_hadMarkers sc line ms st :
  ps_hadMarkers (fold_left (parse_step sc line) ms st)
  = match ms with [] => ps_hadMarkers st | _ :: _ => true end.
Proof.
  revert st; induction ms as [|m ms IH]; intro st; [reflexivity|].
  simpl. rewrite IH. destruct ms; [apply parse_step_hadMarkers | reflexivity].
Qed.

Lemma hadMarkers_false sc line :
  hadMarkers (parseLineMarkers sc line) = false ->
  matchAll COLOR_MARKER_REGEX line = [].
Proof.
  unfold parseLineMarkers. cbn [hadMarkers]. rewrite parse_fold_hadMarkers.
  destruct (matchAll _ _); [reflexivity | discriminate].
Qed.

(* ================================================================== *)
(** * C4: re-parsing a clean line *)

(** C4 as stated fails: stripping the inner marker of [nested_marker]
    leaves the text of a marker, which a second pass strips again. *)
Lemma reparse_counterexample :
  cleanLine (parseLineMarkers default_scrub nested_marker) = js "{#a:b}" /\
  hadMarkers (parseLineMarkers default_scrub
                (cleanLine (parseLineMarkers default_scrub nested_marker)))
  = true.
Proof. split; vm_compute; reflexivity. Qed.

(* ================================================================== *)
(** * Lines: [split] and [join] *)

Lemma dropWhile_incl p s : incl (dropWhile p s) s.
Proof.
  induction s as [|c s IH]; simpl; [apply incl_refl|].
  destruct (p c); [|apply incl_refl]. now apply incl_tl.
Qed.

Lemma trim_incl s : incl (trim s) s.
Proof.
  unfold trim, trimEnd, trimStart. intros x Hx.
  apply in_rev in Hx. apply dropWhile_incl in Hx. apply in_rev in Hx.
  now apply dropWhile_incl in Hx.
Qed.

Lemma replace_first_empty_incl r s : incl (replace_first_empty r s) s.
Proof.
  unfold replace_first_empty.
  destruct (search r 0 s) as [[st [en caps]]|]; [|apply incl_refl].
  apply incl_app; [apply firstn_incl | apply skipn_incl].
Qed.

Lemma split_on_not_nil sep s : split_on sep s <> [].
Proof.
  destruct s as [|c s]; simpl; [discriminate|].
  destruct (N.eqb c sep); [discriminate|].
  destruct (split_on sep s); discriminate.
Qed.

Lemma split_on_no_sep sep s :
  Forall (fun l => ~ In sep l) (split_on sep s).
Proof.
  induction s as [|c s IH]; simpl.
  - constructor; [intros []|constructor].
  - destruct (N.eqb_spec c sep) as [E|E].
    + constructor; [intros []|exact IH].
    + destruct (split_on sep s) as [|l ls]; [repeat constructor|].
      * intros [H|[]]. congruence.
      * inversion IH; subst. constructor; [|assumption].
        intros [H|H]; [congruence|contradiction].
Qed.

Lemma split_on_length sep s :
  length (split_on sep s) = S (length (filter (fun c => N.eqb c sep) s)).
Proof.
  induction s as [|c s IH]; simpl; [reflexivity|].
  destruct (N.eqb c sep); simpl; [now rewrite IH|].
  pose proof (@split_on_not_nil sep s) as Hn.
  destruct (split_on sep s); [contradiction|]. exact IH.
Qed.

Lemma filter_filter_keep (p q : char -> bool) s :
  (forall c, q c = true -> p c = true) ->
  filter q (filter p s) = filter q s.
Proof.
  intro H. induction s as [|c s IH]; simpl; [reflexivity|].
  destruct (p c) eqn:Ep; simpl.
  - now rewrite IH.
  - destruct (q c) eqn:Eq; [|exact IH].
    apply H in Eq. congruence.
Qed.

Lemma strip_zero_width_lines ascii :
  length (split_on NL (strip_zero_width ascii)) = length (split_on NL ascii).
Proof.
  rewrite !split_on_length. unfold strip_zero_width.
  rewrite filter_filter_keep; [reflexivity|].
  intros c Hc. apply N.eqb_eq in Hc. subst. reflexivity.
Qed.

Lemma split_on_app_no_sep sep l s :
  ~ In sep l ->
  split_on sep (l ++ sep :: s) = l :: split_on sep s.
Proof.
  induction l as [|c l IH]; intro H; simpl.
  - now rewrite N.eqb_refl.
  - destruct (N.eqb_spec c sep) as [E|E]; [subst; destruct H; now left|].
    rewrite IH by (intro; apply H; now right). reflexivity.
Qed.

Lemma split_on_no_sep_single sep l : ~ In sep l -> split_on sep l = [l].
Proof.
  induction l as [|c l IH]; intro H; simpl; [reflexivity|].
  destruct (N.eqb_spec c sep) as [E|E]; [subst; destruct H; now left|].
  rewrite IH by (intro; apply H; now right). reflexivity.
Qed.

(** Splitting a joined array gives the array back when no element
    contains the separator. *)
Lemma split_on_join sep ls :
  ls <> [] -> Forall (fun l => ~ In sep l) ls ->
  split_on sep (join [sep] ls) = ls.
Proof.
  induction ls as [|l ls IH]; intros Hn Hall; [contradiction|].
  inversion Hall as [|? ? Hl Hls]; subst.
  destruct ls as [|l' ls'].
  - simpl. now apply split_on_no_sep_single.
  - change (join [sep] (l :: l' :: ls'))
      with (l ++ sep :: join [sep] (l' :: ls')).
    rewrite split_on_app_no_sep by exact Hl.
    rewrite IH; [reflexivity|discriminate|exact Hls].
Qed.

Lemma join_app sep (a b : list jsstring) :
  a <> [] -> b <> [] -> join sep (a ++ b) = join sep a ++ sep ++ join sep b.
Proof.
  induction a as [|x a IH]; intros Ha Hb; [contradiction|].
  destruct a as [|y a'].
  - simpl. destruct b; [contradiction|reflexivity].
  - change (join sep ((x :: y :: a') ++ b))
      with (x ++ sep ++ join sep ((y :: a') ++ b)).
    rewrite IH by (discriminate || exact Hb).
    simpl. now rewrite <- !app_assoc.
Qed.

(** Joining joined blocks is joining all their lines. *)
Lemma join_concat sep (bss : list (list jsstring)) :
  Forall (fun bs => bs <> []) bss ->
  join sep (List.map (join sep) bss) = join sep (List.concat bss).
Proof.
  induction bss as [|bs bss IH]; intro H; [reflexivity|].
  inversion H as [|? ? Hbs Hbss]; subst.
  destruct bss as [|bs' bss'].
  - simpl. now rewrite app_nil_r.
  - change (join sep (List.map (join sep) (bs :: bs' :: bss')))
      with (join sep bs ++ sep ++ join sep (List.map (join sep) (bs' :: bss'))).
    rewrite IH by exact Hbss.
    change (List.concat (bs :: bs' :: bss'))
      with (bs ++ List.concat (bs' :: bss')).
    rewrite join_app; [reflexivity|exact Hbs|].
    inversion Hbss; subst. simpl. destruct bs'; [contradiction|discriminate].
Qed.

(* ================================================================== *)
(** * Where the code units of an injected line come from *)

Lemma splice_insert_concat (l : list jsstring) n x c :
  In c (List.concat (splice_insert l n x)) ->
  In c (List.concat l) \/ In c x.
Proof.
  unfold splice_insert. rewrite concat_app. simpl.
  rewrite <- (firstn_skipn n l) at 3. rewrite concat_app.
  rewrite !in_app_iff. tauto.
Qed.

Lemma inject_fold_chars ms : forall g off g' off' c,
  fold_left inject_step ms (g, off) = (g', off') ->
  In c (List.concat g') ->
  In c (List.concat g) \/ exists m, In m ms /\ In c (marker_text m).
Proof.
  induction ms as [|m ms IH]; intros g off g' off' c H Hc; simpl in H.
  - inversion H; subst. now left.
  - destruct (IH _ _ _ _ c H Hc) as [Hin | (m' & Hm' & Hin)].
    + apply splice_insert_concat in Hin as [Hin | Hin]; [now left|].
      right. exists m. split; [now left | exact Hin].
    + right. exists m'. split; [now right | exact Hin].
Qed.

Lemma injectMarkersIntoLine_chars sc text ms c :
  segmenter_faithful sc ->
  In c (injectMarkersIntoLine sc text ms) ->
  In c text \/ exists m, In m ms /\ In c (marker_text m).
Proof.
  intros Hf H. unfold injectMarkersIntoLine in H.
  destruct ms as [|m0 ms0]; [now left|].
  destruct (fold_left inject_step _ _) as [g' off'] eqn:E.
  destruct (@inject_fold_chars _ _ _ _ _ c E H) as [Hin | (m & Hm & Hin)].
  - left. now rewrite Hf in Hin.
  - right. exists m. split; [|exact Hin].
    now apply stable_sort_In in Hm.
Qed.

Lemma finish_line_chars sc meta text c :
  segmenter_faithful sc ->
  In c (finish_line sc meta text) ->
  In c text \/ exists m, In m (markers meta) /\ In c (marker_text m).
Proof.
  intros Hf H. unfold finish_line in H.
  destruct (hadMarkers meta); [|now left].
  now apply injectMarkersIntoLine_chars in H.
Qed.

(* ================================================================== *)
(** * One line of [autoFormat] *)

Lemma repeat_str_some f n :
  (0 <= n)%Z -> repeat_str f n = Some (List.concat (List.repeat f (Z.to_nat n))).
Proof.
  intro H. unfold repeat_str. destruct (Z.ltb_spec n 0); [lia|reflexivity].
Qed.

Lemma concat_repeat_incl (f : jsstring) n L :
  incl f L -> incl (List.concat (List.repeat f n)) L.
Proof.
  intro H. induction n as [|n IH]; simpl; [intros x []|].
  now apply incl_app.
Qed.

Lemma incl_firstn' (A : Type) n (s L : list A) : incl s L -> incl (firstn n s) L.
Proof. intros H x Hx. apply H. eapply firstn_incl; eauto. Qed.
Lemma incl_skipn' (A : Type) n (s L : list A) : incl s L -> incl (skipn n s) L.
Proof. intros H x Hx. apply H. eapply skipn_incl; eauto. Qed.
Lemma incl_trim' s L : incl s L -> incl (trim s) L.
Proof. intros H x Hx. apply H. now apply trim_incl. Qed.

Lemma centered_content_some tm cc : centered_content tm = Some cc -> cc = tm.
Proof.
  unfold centered_content.
  destruct (_ && _ && _)%bool; [congruence|].
  destruct (_ && _ && _)%bool; congruence.
Qed.

Ltac incl_pieces :=
  unfold slice, slice_from, slice_last, slice_init, char_at0;
  repeat first
    [ assumption
    | apply incl_nil_l
    | apply incl_app
    | apply incl_firstn'
    | apply incl_skipn'
    | apply incl_trim'
    | apply concat_repeat_incl ];
  try (unfold fill_chars; intros x Hx; apply in_or_app; right;
       simpl in Hx |- *; tauto).

Ltac fin := eexists; split; [reflexivity | incl_pieces].

Lemma format_line_spec sc rich maxW line visW meta :
  exists text,
    format_line sc rich maxW line visW meta = Some (finish_line sc meta text) /\
    incl text (line ++ fill_chars).
Proof.
  unfold format_line.
  set (L := line ++ fill_chars).
  assert (incl line L) as HL by (apply incl_appl, incl_refl).
  destruct (test RE_STUB line); [fin|].
  destruct (_ && forallb _ _)%bool; [fin|].
  set (ind := match search RE_INDENT 0 line with
              | Some (st, (en, _)) => slice line st en
              | None => []
              end).
  assert (incl ind L) as Hind.
  { subst ind. destruct (search RE_INDENT 0 line) as [[st [en caps]]|];
      incl_pieces. }
  set (lwi := slice_from line (length ind)).
  assert (incl lwi L) as Hlwi by (subst lwi; incl_pieces).
  destruct (negb _ && negb _)%bool; [fin|].
  destruct (if (0 <? length lwi) && isStructure (char_at0 lwi) rich
            then (char_at0 lwi, slice_from lwi 1) else ([], lwi))%bool
    as [prefix middle] eqn:Epm.
  assert (incl prefix L /\ incl middle L) as [Hp Hm].
  { destruct (_ && _)%bool in Epm; apply pair_equal_spec in Epm as [<- <-];
      split; incl_pieces. }
  clear Epm.
  destruct (if (0 <? length middle) && isStructure (slice_last middle) rich
            then (slice_last middle, slice_init middle) else ([], middle))%bool
    as [suffix middle0] eqn:Esm.
  assert (incl suffix L /\ incl middle0 L) as [Hs Hm0].
  { destruct (_ && _)%bool in Esm; apply pair_equal_spec in Esm as [<- <-];
      split; incl_pieces. }
  clear Esm.
  destruct (_ && _ && _ && _ && _ && _)%bool; [fin|].
  destruct (centered_content (trim middle0)) as [cc|] eqn:Ecc.
  - apply centered_content_some in Ecc. subst cc.
    rewrite !repeat_str_some by (Z.div_mod_to_equations; lia). fin.
  - destruct (Z.leb_spec (maxW - visW) 0); [fin|].
    destruct suffix as [|c suffix']; [fin|].
    rewrite repeat_str_some by lia.
    eexists; split; [reflexivity|].
    repeat match goal with
           | |- context [if ?b then _ else _] => destruct b
           end; incl_pieces.
Qed.


(* ================================================================== *)
(** * Markers come from the line *)

Lemma parse_fold_inside sc line ms st :
  Forall (fun m => incl (m_text m) line /\ caps_in line (m_groups m)) ms ->
  incl (ps_cleanLine st) line ->
  Forall (fun m => incl (value m) line) (ps_markers st) ->
  let st' := fold_left (parse_step sc line) ms st in
  incl (ps_cleanLine st') line /\
  Forall (fun m => incl (value m) line) (ps_markers st').
Proof.
  revert st; induction ms as [|m ms IH]; intros st Hms Hc Hv; simpl;
    [now split|].
  inversion Hms as [|? ? [Ht Hg] Hms']; subst.
  apply IH; [exact Hms'| |].
  - unfold parse_step.
    assert (incl (ps_cleanLine st ++ slice line (ps_cursor st) (m_index m)) line)
      as Hi by (apply incl_app; [exact Hc | apply slice_incl]).
    destruct (key_of _); [destruct (isSafeColorValue _)|]; exact Hi.
  - unfold parse_step.
    destruct (key_of _); [destruct (isSafeColorValue _)|]; cbn [ps_markers];
      try exact Hv.
    apply Forall_app. split; [exact Hv|]. constructor; [|constructor].
    cbn [value]. apply incl_trim'.
    destruct (m_groups m) as [|g0 [|g1 gs]]; cbn [nth]; try apply incl_nil_l.
    inversion Hg as [|? ? _ Hg']; subst. now inversion Hg'.
Qed.

Lemma parseLineMarkers_inside sc line :
  incl (cleanLine (parseLineMarkers sc line)) line /\
  Forall (fun m => incl (value m) line) (markers (parseLineMarkers sc line)).
Proof.
  unfold parseLineMarkers. cbn [cleanLine markers].
  destruct (@parse_fold_inside sc line (matchAll COLOR_MARKER_REGEX line)
              (MkPState [] [] 0 0 false)) as [Hc Hv].
  - apply matchAll_from_inside. apply incl_refl.
  - apply incl_nil_l.
  - constructor.
  - split; [|exact Hv]. apply incl_app; [exact Hc|]. apply skipn_incl.
Qed.

Lemma marker_text_NL m : In NL (marker_text m) -> In NL (value m).
Proof.
  unfold marker_text. rewrite !in_app_iff.
  intros [H | [H | [H | [H | H]]]]; try exact H.
  - simpl in H. intuition discriminate.
  - destruct (key m); simpl in H; intuition discriminate.
  - simpl in H. intuition discriminate.
  - simpl in H. intuition discriminate.
Qed.

(* ================================================================== *)
(** * C2: rich-mode detection *)

Lemma detectRichMode_iff s :
  detectRichMode s = true <-> exists c, In c rich_glyphs /\ In c s.
Proof.
  unfold detectRichMode, RICH_MODE_DETECTOR. rewrite test_cls.
  rewrite existsb_exists. split.
  - intros (c & Hin & Hc). exists c. split; [|exact Hin].
    unfold char_in in Hc. apply existsb_exists in Hc as (g & Hg & E).
    apply N.eqb_eq in E. now subst.
  - intros (c & Hg & Hin). exists c. split; [exact Hin|].
    unfold char_in. apply existsb_exists. exists c. split; [exact Hg|].
    apply N.eqb_refl.
Qed.

(** C2 as stated fails: the document contains the glyph U+2500, yet
    [render] (and [autoFormat], which computes the mode in the same way)
    runs in ASCII mode, because the glyph is stripped with its marker
    before detection. *)
Lemma rich_mode_counterexample :
  In Glyph.H rich_glyphs /\
  In Glyph.H glyph_in_marker /\
  r_isRichMode (render default_scrub glyph_in_marker) = false /\
  detectRichMode (clean_text (parse_document default_scrub glyph_in_marker))
  = false.
Proof.
  split; [simpl; tauto|]. split; [simpl; tauto|].
  split; vm_compute; reflexivity.
Qed.

Lemma join_In sep ls c :
  In c (join sep ls) -> In c sep \/ exists l, In l ls /\ In c l.
Proof.
  induction ls as [|l ls IH]; [intros []|].
  destruct ls as [|l' ls'].
  - intro H. right. exists l. split; [now left | exact H].
  - change (join sep (l :: l' :: ls')) with (l ++ sep ++ join sep (l' :: ls')).
    rewrite !in_app_iff. intros [H | [H | H]].
    + right. exists l. split; [now left | exact H].
    + now left.
    + destruct (IH H) as [Hs | (x & Hx & Hc)]; [now left|].
      right. exists x. split; [now right | exact Hc].
Qed.

Lemma split_on_incl sep s l : In l (split_on sep s) -> incl l s.
Proof.
  revert l; induction s as [|c s IH]; intros l H; simpl in H.
  - destruct H as [<- | []]. apply incl_refl.
  - destruct (N.eqb c sep).
    + destruct H as [<- | H]; [apply incl_nil_l|].
      apply incl_tl. now apply IH.
    + destruct (split_on sep s) as [|l0 ls].
      * destruct H as [<- | []]. intros x [<- | []]. now left.
      * destruct H as [<- | H].
        -- apply incl_cons; [now left|]. apply incl_tl, IH. now left.
        -- apply incl_tl, IH. now right.
Qed.

(** Every code unit of a clean line other than the newline comes from the
    document. *)
Lemma clean_text_incl sc ascii c :
  In c (clean_text (parse_document sc ascii)) -> c = NL \/ In c ascii.
Proof.
  unfold clean_text, parse_document. intro H.
  apply join_In in H as [[<- | []] | (l & Hl & Hc)]; [now left|].
  right. apply in_map_iff in Hl as (p & <- & Hp).
  apply in_map_iff in Hp as (raw & <- & Hraw).
  apply (proj1 (parseLineMarkers_inside sc _)) in Hc.
  apply replace_first_empty_incl in Hc. apply split_on_incl in Hraw.
  apply Hraw in Hc. unfold strip_zero_width in Hc.
  now apply filter_In in Hc.
Qed.

(** C2, amended.  [autoFormat] and [render] compute the mode once, from
    the marker-stripped text (the clean lines joined by newlines), and hand
    that one value to everything else; it is true exactly when one of the
    twelve glyphs occurs in that text, hence only when one occurs in the
    document. *)
Theorem rich_mode_detection_spec :
  forall sc ascii,
    let parsedLines := parse_document sc ascii in
    let isRichMode := detectRichMode (clean_text parsedLines) in
    autoFormat sc ascii = format_document sc isRichMode parsedLines /\
    render sc ascii = render_document sc isRichMode parsedLines /\
    r_isRichMode (render sc ascii) = isRichMode /\
    (isRichMode = true <->
     exists c, In c rich_glyphs /\ In c (clean_text parsedLines)) /\
    (isRichMode = true -> exists c, In c rich_glyphs /\ In c ascii).
Proof.
  intros sc ascii parsedLines isRichMode.
  split; [reflexivity|]. split; [reflexivity|]. split; [|split].
  - unfold render, render_document. fold parsedLines. fold isRichMode.
    now destruct (build_grid sc isRichMode _).
  - apply detectRichMode_iff.
  - intro H. apply detectRichMode_iff in H as (c & Hg & Hc).
    exists c. split; [exact Hg|].
    apply clean_text_incl in Hc as [-> | Hc]; [|exact Hc].
    simpl in Hg. exfalso. intuition discriminate.
Qed.

(* ================================================================== *)
(** * The blocks of [autoFormat] *)

Lemma flush_block_inv st done :
  blocks_inv st done ->
  Forall2 block_rel (fst (flush_block st)) (snd (flush_block st)) /\
  List.concat (snd (flush_block st)) = List.map norm_line done.
Proof.
  intros (H1 & H2 & H3 & H4). unfold flush_block.
  destruct (bs_currentBlock st) as [|l ls] eqn:E; cbn [fst snd].
  - split; [exact H1|].
    destruct (bs_currentMetaBlock st); [|discriminate].
    now rewrite app_nil_r in H4.
  - split.
    + apply Forall2_app; [exact H1|]. constructor; [|constructor].
      split; [exact H2|]. split; [|now right].
      destruct (bs_currentMetaBlock st); [discriminate|discriminate].
    + rewrite concat_app. simpl. now rewrite app_nil_r.
Qed.

Lemma block_step_inv st done p :
  blocks_inv st done -> blocks_inv (block_step st p) (done ++ [p]).
Proof.
  intro H. pose proof (flush_block_inv H) as [F1 F2].
  destruct H as (H1 & H2 & H3 & H4).
  unfold blocks_inv, block_step. rewrite map_app. cbn [List.map].
  destruct (trim (cleanLine p)) as [|c t] eqn:E.
  - assert (norm_line p = empty_meta) as -> by (unfold norm_line; now rewrite E).
    destruct (flush_block st) as [blocks blockMeta]. cbn [fst snd] in F1, F2.
    cbn [bs_blocks bs_blockMeta bs_currentBlock bs_currentMetaBlock].
    split; [|split; [reflexivity|split; [constructor|]]].
    + apply Forall2_app; [exact F1|]. constructor; [|constructor].
      split; [reflexivity|]. split; [discriminate | now left].
    + rewrite app_nil_r, concat_app, F2. simpl. reflexivity.
  - assert (norm_line p = p) as -> by (unfold norm_line; now rewrite E).
    cbn [bs_blocks bs_blockMeta bs_currentBlock bs_currentMetaBlock].
    split; [exact H1|]. split; [now rewrite map_app, H2|]. split.
    + apply Forall_app. split; [exact H3|]. constructor; [|constructor].
      unfold nonblank. rewrite E. discriminate.
    + now rewrite app_assoc, H4.
Qed.

Lemma block_fold_inv ps : forall st done,
  blocks_inv st done ->
  blocks_inv (fold_left block_step ps st) (done ++ ps).
Proof.
  induction ps as [|p ps IH]; intros st done H; simpl.
  - now rewrite app_nil_r.
  - replace (done ++ p :: ps) with ((done ++ [p]) ++ ps)
      by (now rewrite <- app_assoc).
    apply IH. now apply block_step_inv.
Qed.

Lemma blocks_of_document ps :
  let st := fold_left block_step ps (MkBState [] [] [] []) in
  Forall2 block_rel (fst (flush_block st)) (snd (flush_block st)) /\
  List.concat (snd (flush_block st)) = List.map norm_line ps.
Proof.
  apply (@flush_block_inv _ ps).
  apply (@block_fold_inv ps (MkBState [] [] [] []) []).
  repeat split; constructor.
Qed.

(** [sequence] over [map] with index succeeds when every call does. *)
Lemma sequence_mapi_from (A B C : Type) (P : A -> C -> Prop)
  (R : C -> B -> Prop) (f : A -> nat -> option B) l ms :
  Forall2 P l ms ->
  forall i,
    (forall k x c, nth_error l k = Some x -> nth_error ms k = Some c ->
                   P x c -> exists y, f x (i + k) = Some y /\ R c y) ->
    exists ys, sequence (mapi_from f i l) = Some ys /\ Forall2 R ms ys.
Proof.
  induction 1 as [|x c l ms Hxc Hl IH]; intros i Hf.
  - exists []. split; [reflexivity | constructor].
  - destruct (Hf 0 x c eq_refl eq_refl Hxc) as (y & Hy & Ry).
    rewrite Nat.add_0_r in Hy.
    destruct (IH (S i)) as (ys & Hys & Rys).
    { intros k x' c' Hx' Hc' Hp.
      destruct (Hf (S k) x' c' Hx' Hc' Hp) as (y' & Hy' & Ry').
      exists y'. split; [|exact Ry'].
      now rewrite Nat.add_succ_comm. }
    exists (y :: ys). split; [|now constructor].
    simpl. now rewrite Hy, Hys.
Qed.

Lemma nonblank_not_empty p : nonblank p -> p <> empty_meta.
Proof. intros H ->. now apply H. Qed.

Lemma format_block_spec sc rich blockMeta block blockIndex m :
  nth_error blockMeta blockIndex = Some m ->
  block_rel block m ->
  exists outs,
    format_block sc rich blockMeta block blockIndex = Some (join [NL] outs) /\
    Forall2 (line_rel sc) m outs.
Proof.
  intros Hm (Hb & Hne & [-> | Hnb]).
  - subst block. exists [[]]. split; [reflexivity|].
    constructor; [|constructor]. split; [|reflexivity].
    exists []. split; [reflexivity | apply incl_nil_l].
  - unfold format_block.
    assert ((Nat.eqb (length block) 1 && str_eqb (nth 0 block [NL]) [])%bool
            = false) as ->.
    { subst block. destruct m as [|p [|q m']]; try reflexivity.
      inversion Hnb as [|? ? Hp _]; subst. cbn.
      destruct (cleanLine p) eqn:E; [|reflexivity].
      exfalso. apply Hp. now rewrite E. }
    rewrite Hm.
    set (maxVisWidth := fold_left _ _ 0%Z).
    destruct (@sequence_mapi_from jsstring jsstring ParsedLineMarkers
                (fun line p => line = cleanLine p /\ nonblank p)
                (line_rel sc)
                (fun line lineIndex =>
                   match nth_error m lineIndex with
                   | Some lineMeta =>
                       format_line sc rich maxVisWidth line
                         (getTextDisplayWidth sc line rich) lineMeta
                   | None => None
                   end) block m) with (i := 0) as (outs & Hs & Hr).
    + subst block. clear -Hnb. induction Hnb; simpl; constructor; auto.
    + intros k line p _ Hp [-> Hnbp]. cbn [Nat.add]. rewrite Hp.
      destruct (format_line_spec sc rich maxVisWidth (cleanLine p)
                  (getTextDisplayWidth sc (cleanLine p) rich) p)
        as (text & -> & Hincl).
      eexists. split; [reflexivity|]. split; [eauto|].
      intro E. now destruct (nonblank_not_empty Hnbp).
    + exists outs. unfold mapi. now rewrite Hs.
Qed.

(** All lines of the output, block by block. *)
Lemma format_document_spec sc rich ps :
  ps <> [] ->
  exists outs,
    format_document sc rich ps = Some (join [NL] outs) /\
    Forall2 (line_rel sc) (List.map norm_line ps) outs.
Proof.
  intro Hne. unfold format_document.
  pose proof (blocks_of_document ps) as [HF HC]. cbv zeta in HF, HC.
  destruct (flush_block _) as [blocks blockMeta]. cbn [fst snd] in HF, HC.
  destruct (@sequence_mapi_from _ _ _ block_rel
              (fun m fb => exists outs, fb = join [NL] outs /\
                                        Forall2 (line_rel sc) m outs)
              (format_block sc rich blockMeta) blocks blockMeta HF 0)
    as (fbs & Hs & Hr).
  { intros k b m _ Hm Hbm. cbn [Nat.add].
    destruct (format_block_spec sc rich _ _ Hm Hbm) as (outs & -> & Ho).
    eauto. }
  unfold mapi. rewrite Hs.
  assert (exists outss, fbs = List.map (join [NL]) outss /\
                        Forall2 (Forall2 (line_rel sc)) blockMeta outss)
    as (outss & -> & Ho).
  { clear -Hr. induction Hr as [|m fb ms fbs (outs & -> & Ho) _ (outss & -> & IH)].
    - exists []. split; [reflexivity | constructor].
    - exists (outs :: outss). split; [reflexivity | now constructor]. }
  exists (List.concat outss). split.
  - f_equal. apply join_concat.
    assert (Forall (fun m => m <> []) blockMeta) as Hmne.
    { clear -HF. induction HF as [|b m bs ms (_ & Hm & _) _ IH];
        constructor; auto. }
    clear -Ho Hmne. induction Ho as [|m outs ms outss Hmo _ IH];
      constructor.
    + inversion Hmne; subst. destruct Hmo; [contradiction | discriminate].
    + apply IH. now inversion Hmne.
  - rewrite <- HC. clear -Ho.
    induction Ho as [|m outs ms outss Hmo _ IH]; simpl; [constructor|].
    now apply Forall2_app.
Qed.

Lemma parse_document_not_nil sc ascii : parse_document sc ascii <> [].
Proof.
  unfold parse_document. intro H. apply map_eq_nil in H.
  now apply split_on_not_nil in H.
Qed.

(* ================================================================== *)
(** * C9: [autoFormat] always returns *)

(** C9.  For every instance and every input, [autoFormat] returns a
    string: no call of [repeat] gets a negative count and no lookup in the
    block tables misses.  It is a function of the instance and the input
    alone, so equal arguments give that same string. *)
Theorem autoFormat_total_spec :
  forall sc ascii,
  exists out,
    autoFormat sc ascii = Some out /\
    forall sc' ascii',
      sc' = sc -> ascii' = ascii -> autoFormat sc' ascii' = Some out.
Proof.
  intros sc ascii. unfold autoFormat.
  destruct (@format_document_spec sc
              (detectRichMode (clean_text (parse_document sc ascii)))
              (parse_document sc ascii) (@parse_document_not_nil sc ascii))
    as (outs & H & _).
  exists (join [NL] outs). split; [exact H|].
  intros sc' ascii' -> ->. exact H.
Qed.

Lemma autoFormat_total_spec_witness :
  exists out, autoFormat default_scrub (js "|a|") = Some out.
Proof.
  destruct (autoFormat_total_spec default_scrub (js "|a|")) as (out & H & _).
  exists out. exact H.
Defined.

(* ================================================================== *)
(** * C10: [autoFormat] keeps the lines in place *)

Lemma split_on_filter sep (p : char -> bool) s :
  p sep = true ->
  split_on sep (filter p s) = List.map (filter p) (split_on sep s).
Proof.
  intro Hp. induction s as [|c s IH]; [reflexivity|].
  cbn [filter split_on]. destruct (N.eqb_spec c sep) as [E|E].
  - subst c. rewrite Hp. cbn [split_on]. rewrite N.eqb_refl.
    cbn [List.map filter]. now rewrite IH.
  - pose proof (@split_on_not_nil sep s) as Hn.
    destruct (p c) eqn:Ec.
    + cbn [split_on]. destruct (N.eqb_spec c sep); [contradiction|].
      rewrite IH. destruct (split_on sep s) as [|l ls]; [contradiction|].
      cbn [List.map filter]. now rewrite Ec.
    + rewrite IH. destruct (split_on sep s) as [|l ls]; [contradiction|].
      cbn [List.map filter]. now rewrite Ec.
Qed.

Lemma parse_document_lines sc ascii :
  parse_document sc ascii
  = List.map (fun l => parseLineMarkers sc
                         (replace_first_empty RE_CR_END (strip_zero_width l)))
             (split_on NL ascii).
Proof.
  unfold parse_document, strip_zero_width.
  rewrite split_on_filter by reflexivity. now rewrite map_map.
Qed.

Lemma Forall2_nth_error (A B : Type) (R : A -> B -> Prop) l l' i x :
  Forall2 R l l' -> nth_error l i = Some x ->
  exists y, nth_error l' i = Some y /\ R x y.
Proof.
  intro H. revert i. induction H as [|a b l l' Hab _ IH]; intros [|i] Hx;
    try discriminate.
  - inversion Hx; subst. exists b. now split.
  - now apply IH.
Qed.

Lemma Forall2_length_eq (A B : Type) (R : A -> B -> Prop) l l' :
  Forall2 R l l' -> length l = length l'.
Proof. induction 1; simpl; congruence. Qed.

(** An emitted line has no newline when its source line has none. *)
Lemma line_rel_no_NL sc l out :
  segmenter_faithful sc ->
  ~ In NL l ->
  let p := parseLineMarkers sc (replace_first_empty RE_CR_END
                                  (strip_zero_width l)) in
  line_rel sc (norm_line p) out -> ~ In NL out.
Proof.
  intros Hf Hl p [(text & -> & Htext) Hempty] Hin.
  assert (incl (replace_first_empty RE_CR_END (strip_zero_width l)) l) as Hsub.
  { intros x Hx. apply replace_first_empty_incl in Hx.
    unfold strip_zero_width in Hx. now apply filter_In in Hx. }
  destruct (parseLineMarkers_inside sc
              (replace_first_empty RE_CR_END (strip_zero_width l)))
    as [Hclean Hvals]. fold p in Hclean, Hvals.
  unfold norm_line in *. destruct (trim (cleanLine p)) eqn:E.
  - now rewrite (Hempty eq_refl) in Hin.
  - apply finish_line_chars in Hin; [|exact Hf].
    destruct Hin as [Hin | (m & Hm & Hin)].
    + apply Htext in Hin. apply in_app_or in Hin as [Hin | Hin].
      * apply Hl, Hsub, Hclean, Hin.
      * simpl in Hin. intuition discriminate.
    + apply marker_text_NL in Hin. rewrite Forall_forall in Hvals.
      apply Hl, Hsub, (Hvals m Hm), Hin.
Qed.

(** C10.  [autoFormat] returns a text with as many lines as its input,
    and every input line that is blank once its markers are stripped (the
    test the block-splitting loop applies) is the empty line at the same
    index of the output. *)
Theorem autoFormat_lines_spec :
  forall sc ascii,
    segmenter_faithful sc ->
    exists out,
      autoFormat sc ascii = Some out /\
      length (split_on NL out) = length (split_on NL ascii) /\
      forall i l,
        nth_error (split_on NL ascii) i = Some l ->
        trim (clean_of_line sc l) = [] ->
        nth_error (split_on NL out) i = Some [].
Proof.
  intros sc ascii Hf. unfold autoFormat.
  destruct (@format_document_spec sc
              (detectRichMode (clean_text (parse_document sc ascii)))
              (parse_document sc ascii) (@parse_document_not_nil sc ascii))
    as (outs & H & Hrel).
  exists (join [NL] outs). split; [exact H|].
  rewrite parse_document_lines in Hrel. rewrite map_map in Hrel.
  assert (length outs = length (split_on NL ascii)) as Hlen.
  { apply Forall2_length_eq in Hrel. now rewrite length_map in Hrel. }
  assert (Forall (fun o => ~ In NL o) outs) as Hnl.
  { pose proof (split_on_no_sep NL ascii) as Hlines.
    revert Hrel Hlines. generalize (split_on NL ascii) as ls. clear -Hf.
    intros ls Hrel. remember (List.map _ ls) as qs eqn:Eq. revert ls Eq.
    induction Hrel as [|q o qs os Hqo _ IH]; intros ls Eq Hlines;
      [constructor|].
    destruct ls as [|l ls]; [discriminate|]. cbn [List.map] in Eq.
    inversion Eq; subst. inversion Hlines; subst.
    constructor; [|now apply (IH ls)].
    now apply (@line_rel_no_NL sc l o Hf). }
  assert (outs <> []) as Hne.
  { intros ->. pose proof (@split_on_not_nil NL ascii) as Hn.
    destruct (split_on NL ascii); [contradiction|discriminate]. }
  rewrite (@split_on_join NL outs Hne Hnl). split; [exact Hlen|].
  intros i l Hl Hblank.
  assert (nth_error
            (List.map (fun x => norm_line
                        (parseLineMarkers sc
                           (replace_first_empty RE_CR_END (strip_zero_width x))))
                      (split_on NL ascii)) i
          = Some empty_meta) as Hq.
  { rewrite nth_error_map, Hl. cbn [option_map]. f_equal.
    unfold norm_line. unfold clean_of_line in Hblank. now rewrite Hblank. }
  destruct (Forall2_nth_error _ Hrel Hq) as (o & Ho & _ & Hempty).
  now rewrite Ho, (Hempty eq_refl).
Qed.

Lemma code_points_cons2 a b s :
  code_points (a :: b :: s)
  = if (is_high_surrogate a && is_low_surrogate b)%bool
    then [a; b] :: code_points s
    else [a] :: code_points (b :: s).
Proof. reflexivity. Qed.

Lemma code_points_concat s : List.concat (code_points s) = s.
Proof.
  assert (forall n s, length s <= n -> List.concat (code_points s) = s) as A.
  { clear. induction n as [|n IH]; intros s Hs.
    - destruct s; [reflexivity | simpl in Hs; lia].
    - destruct s as [|a [|b s]]; try reflexivity.
      rewrite code_points_cons2.
      destruct (_ && _)%bool; cbn [List.concat app].
      + rewrite IH by (simpl in *; lia). reflexivity.
      + rewrite IH by (simpl in *; lia). reflexivity. }
  now apply (A (length s)).
Qed.

Lemma segmenter_faithful_fallback c h : segmenter_faithful (MkScrub c h None).
Proof. intro s. apply code_points_concat. Qed.

Lemma autoFormat_lines_spec_witness :
  exists out,
    autoFormat default_scrub two_boxes = Some out /\
    length (split_on NL out) = 4 /\
    nth_error (split_on NL out) 2 = Some [].
Proof.
  destruct (autoFormat_lines_spec two_boxes (segmenter_faithful_fallback 12 24))
    as (out & H & Hlen & Hblank).
  exists out. split; [exact H|]. split.
  - rewrite Hlen. reflexivity.
  - apply (Hblank 2 (js "  ")); reflexivity.
Defined.

(* ================================================================== *)
(** * Trimmed strings *)

Lemma dropWhile_suffix p s : exists pre, s = pre ++ dropWhile p s.
Proof.
  induction s as [|c s [pre IH]]; simpl.
  - now exists [].
  - destruct (p c).
    + exists (c :: pre). simpl. now f_equal.
    + now exists [].
Qed.

Lemma dropWhile_head p s c t : dropWhile p s = c :: t -> p c = false.
Proof.
  induction s as [|d s IH]; simpl; [discriminate|].
  destruct (p d) eqn:E; [exact IH|]. intros [= <- _]. exact E.
Qed.

Lemma last_rev_hd (c : char) t d : last (rev (c :: t)) d = c.
Proof. simpl. apply last_last. Qed.

(** A non-empty trimmed string starts and ends with a code unit that is
    not white space. *)
Lemma trim_ends s c t :
  trim s = c :: t -> is_ws c = false /\ is_ws (last (c :: t) 0%N) = false.
Proof.
  unfold trim, trimEnd, trimStart. intro H.
  destruct (dropWhile is_ws (rev (dropWhile is_ws s))) as [|w ws] eqn:Ew;
    [discriminate|].
  pose proof (dropWhile_head _ _ Ew) as Hw.
  destruct (dropWhile_suffix is_ws (rev (dropWhile is_ws s))) as [pre Hpre].
  rewrite Ew in Hpre.
  assert (dropWhile is_ws s = rev (w :: ws) ++ rev pre) as Hu.
  { rewrite <- rev_app_distr, <- Hpre. now rewrite rev_involutive. }
  rewrite H in Hu. split.
  - apply (@dropWhile_head is_ws s c (t ++ rev pre)). exact Hu.
  - rewrite <- H. now rewrite last_rev_hd.
Qed.

Lemma trim_fixed s :
  match s with
  | [] => True
  | c :: t => is_ws c = false /\ is_ws (last (c :: t) 0%N) = false
  end -> trim s = s.
Proof.
  destruct s as [|c t]; [reflexivity|]. intros [Hc Hl].
  unfold trim, trimEnd, trimStart.
  rewrite (dropWhile_id is_ws (c :: t)) by exact Hc.
  rewrite dropWhile_id; [apply rev_involutive|].
  destruct (rev (c :: t)) as [|w ws] eqn:E; [exact I|].
  assert (last (c :: t) 0%N = w) as <-; [|exact Hl].
  rewrite <- (rev_involutive (c :: t)), E. apply last_rev_hd.
Qed.

Lemma trim_idempotent s : trim (trim s) = trim s.
Proof.
  apply trim_fixed. destruct (trim s) as [|c t] eqn:E; [exact I|].
  now apply trim_ends in E.
Qed.

Lemma accepted_value_shape v :
  accepted_value v ->
  exists c t, v = c :: t /\ is_ws c = false /\
              is_ws (last (c :: t) 0%N) = false /\ ~ In Glyph.RBRACE v.
Proof.
  intros [Hsafe Htrim]. unfold isSafeColorValue in Hsafe.
  rewrite Htrim in Hsafe. destruct v as [|c t]; [discriminate|].
  exists c, t. split; [reflexivity|].
  destruct (trim_ends _ Htrim) as [Hc Hl]. split; [exact Hc|].
  split; [exact Hl|].
  destruct (test RE_URL (c :: t)); [discriminate|].
  unfold RE_UNSAFE in Hsafe. rewrite test_cls in Hsafe.
  destruct (existsb is_unsafe_punct (c :: t)) eqn:E; [discriminate|].
  intro Hin.
  assert (existsb is_unsafe_punct (c :: t) = true) as E'.
  { apply existsb_exists. exists Glyph.RBRACE. split; [exact Hin|reflexivity]. }
  congruence.
Qed.

(* ================================================================== *)
(** * The marker pattern on the text of an injected marker *)

Lemma after_value_fails v pos0 s0 pos rest caps :
  v <> [] -> ~ In Glyph.RBRACE v -> is_ws (last v 0%N) = false ->
  after_value pos0 s0 pos (v ++ Glyph.RBRACE :: rest) caps = None.
Proof.
  unfold after_value. cbn [rseq rmatch].
  generalize (caps ++ [firstn (pos - pos0) s0]) as caps'.
  revert pos. induction v as [|d v IH]; intros pos caps' Hne Hnb Hl;
    [contradiction|].
  assert (N.eqb (cu "}") d = false) as Hd.
  { apply N.eqb_neq. intro E. apply Hnb. left. now rewrite <- E. }
  destruct v as [|e v'].
  - cbn [app star_greedy]. cbn [last] in Hl. rewrite Hl.
    unfold lit. cbn [rmatch]. now rewrite Hd.
  - assert (star_greedy is_ws (rmatch (lit "}") accept) (S pos)
              ((e :: v') ++ Glyph.RBRACE :: rest) caps' = None) as Hrec.
    { apply IH; [discriminate | intro; apply Hnb; now right | exact Hl]. }
    change ((d :: e :: v') ++ Glyph.RBRACE :: rest)
      with (d :: ((e :: v') ++ Glyph.RBRACE :: rest)).
    cbn [star_greedy]. rewrite Hrec.
    unfold lit. cbn [rmatch]. rewrite Hd. now destruct (is_ws d).
Qed.

Lemma plus_lazy_value v : forall pos0 s0 pos rest caps,
  v <> [] -> ~ In Glyph.RBRACE v -> is_ws (last v 0%N) = false ->
  plus_lazy not_rbrace (after_value pos0 s0) pos
            (v ++ Glyph.RBRACE :: rest) caps
  = Some (S (pos + length v),
          caps ++ [firstn (pos + length v - pos0) s0]).
Proof.
  induction v as [|d v IH]; intros pos0 s0 pos rest caps Hne Hnb Hl;
    [contradiction|].
  assert (not_rbrace d = true) as Hd.
  { unfold not_rbrace. apply negb_true_iff, N.eqb_neq. intro E.
    apply Hnb. now left. }
  change ((d :: v) ++ Glyph.RBRACE :: rest)
    with (d :: (v ++ Glyph.RBRACE :: rest)).
  cbn [plus_lazy]. rewrite Hd.
  destruct v as [|e v'].
  - cbn [app]. unfold after_value at 1. cbn [rseq rmatch star_greedy].
    change (is_ws Glyph.RBRACE) with false. cbv iota.
    unfold lit. cbn [rmatch]. change (N.eqb (cu "}") Glyph.RBRACE) with true.
    cbv iota. unfold accept.
    replace (pos + length [d]) with (S pos) by (cbn [length]; lia).
    reflexivity.
  - rewrite after_value_fails;
      [|discriminate | intro; apply Hnb; now right | exact Hl].
    rewrite IH; [|discriminate | intro; apply Hnb; now right | exact Hl].
    replace (S pos + length (e :: v')) with (pos + length (d :: e :: v'))
      by (cbn [length]; lia).
    reflexivity.
Qed.

(** On a good value followed by [}], the tail of the marker pattern
    (white space, value group, white space, brace) captures the value and
    stops right after the brace. *)
Lemma value_tail_match v pos rest caps :
  accepted_value v ->
  rmatch (rseq [RStar is_ws; RGroup (RPlusLazy not_rbrace); RStar is_ws;
                lit "}"])
         accept pos (v ++ Glyph.RBRACE :: rest) caps
  = Some (S (pos + length v), caps ++ [v]).
Proof.
  intro Hv. destruct (accepted_value_shape Hv) as (c & t & -> & Hc & Hl & Hnb).
  cbn [rseq rmatch].
  change ((c :: t) ++ Glyph.RBRACE :: rest)
    with (c :: (t ++ Glyph.RBRACE :: rest)).
  cbn [star_greedy]. rewrite Hc.
  change (c :: (t ++ Glyph.RBRACE :: rest))
    with ((c :: t) ++ Glyph.RBRACE :: rest).
  change (plus_lazy not_rbrace
            (after_value pos ((c :: t) ++ Glyph.RBRACE :: rest)) pos
            ((c :: t) ++ Glyph.RBRACE :: rest) caps
          = Some (S (pos + length (c :: t)), caps ++ [c :: t])).
  rewrite plus_lazy_value; [|discriminate | exact Hnb | exact Hl].
  replace (pos + length (c :: t) - pos) with (length (c :: t)) by lia.
  now rewrite firstn_app, Nat.sub_diag, firstn_all, firstn_0, app_nil_r.
Qed.

(** The marker pattern matches the text of a marker with an accepted
    value exactly, whatever follows, and captures its key and value. *)
Lemma exec_marker_text m pos rest :
  accepted_value (value m) ->
  exec_at COLOR_MARKER_REGEX pos (marker_text m ++ rest)
  = Some (pos + length (marker_text m), [key_text (key m); value m]).
Proof.
  intro Hv. destruct m as [k v i]. cbn [value key] in *.
  pose proof (fun p c => @value_tail_match v p rest c Hv) as Ht.
  unfold marker_text, exec_at, COLOR_MARKER_REGEX. cbn [key value].
  rewrite <- !app_assoc.
  change (js "}" ++ rest) with (Glyph.RBRACE :: rest).
  change (rseq [lit "{"; RStar is_ws; lit "#"; RGroup (RPlus is_letter);
        RStar is_ws; lit ":"; RStar is_ws; RGroup (RPlusLazy not_rbrace);
        RStar is_ws; lit "}"])
   with (rseq [lit "{"; RStar is_ws; lit "#"; RGroup (RPlus is_letter);
        RStar is_ws; lit ":"; rseq [RStar is_ws; RGroup (RPlusLazy not_rbrace);
        RStar is_ws; lit "}"]]).
  set (tail := rseq [RStar is_ws; RGroup (RPlusLazy not_rbrace);
        RStar is_ws; lit "}"]) in *.
  destruct k; cbn [rseq]; unfold lit; cbn -[tail Nat.sub firstn Nat.add];
    rewrite Ht, length_app; cbn [length];
    match goal with
    | |- context [firstn (?a - ?b) _] =>
        let n := fresh "n" in
        remember (a - b) as n eqn:En;
        assert (n = 2 \/ n = 5 \/ n = 6) as Hn by lia
    end;
    f_equal; f_equal; try lia.
  all: destruct Hn as [-> | [-> | ->]]; try (exfalso; lia).
  all: reflexivity.
Qed.

Lemma marker_text_cons m : exists t, marker_text m = Glyph.LBRACE :: t.
Proof. unfold marker_text. simpl. eauto. Qed.

Lemma matchAll_from_skip_gap p r gap pos s :
  existsb p gap = false ->
  matchAll_from (RSeq (RCls p) r) 0 pos (gap ++ s)
  = matchAll_from (RSeq (RCls p) r) 0 (pos + length gap) s.
Proof.
  revert pos; induction gap as [|c g IH]; intros pos H.
  - simpl. now rewrite Nat.add_0_r.
  - simpl in H. apply orb_false_iff in H as [Hc Hg].
    cbn [app matchAll_from]. unfold exec_at. cbn [rmatch]. rewrite Hc.
    rewrite IH by exact Hg. cbn [length]. f_equal. lia.
Qed.

Lemma matchAll_from_skip r a pos s :
  matchAll_from r (length a) pos (a ++ s) = matchAll_from r 0 (pos + length a) s.
Proof.
  revert pos; induction a as [|c a IH]; intro pos.
  - simpl. now rewrite Nat.add_0_r.
  - cbn [length app matchAll_from]. rewrite IH. f_equal. lia.
Qed.

(** Scanning a text that starts with a marker: the marker is the first
    match and the scan resumes right after it. *)
Lemma matchAll_marker_text m pos rest :
  accepted_value (value m) ->
  matchAll_from COLOR_MARKER_REGEX 0 pos (marker_text m ++ rest)
  = MkMatch pos (marker_text m) [key_text (key m); value m]
    :: matchAll_from COLOR_MARKER_REGEX 0 (pos + length (marker_text m)) rest.
Proof.
  intro Hv. pose proof (exec_marker_text m pos rest Hv) as He.
  destruct (marker_text_cons m) as [t Et]. rewrite Et in *.
  cbn [app matchAll_from]. cbn [app] in He. rewrite He.
  replace (pos + length (Glyph.LBRACE :: t) - pos)
    with (length (Glyph.LBRACE :: t)) by lia.
  f_equal.
  - f_equal.
    change (Glyph.LBRACE :: t ++ rest) with ((Glyph.LBRACE :: t) ++ rest).
    now rewrite firstn_app, Nat.sub_diag, firstn_all, firstn_0, app_nil_r.
  - cbn [length]. replace (S (length t) - 1) with (length t) by lia.
    rewrite matchAll_from_skip. f_equal. lia.
Qed.

(* ================================================================== *)
(** * The markers of a parsed line *)

Lemma sorted_from_snoc ms : forall from k v i,
  sorted_from from ms -> Forall (fun m => index m <= i) ms -> from <= i ->
  sorted_from from (ms ++ [MkMarker k v i]).
Proof.
  induction ms as [|m ms IH]; intros from k v i Hs Hb Hf; simpl.
  - now split.
  - destruct Hs as [H1 H2]. inversion Hb; subst. split; [exact H1|].
    now apply IH.
Qed.

Lemma parse_step_markers_inv sc line st m :
  markers_inv st -> markers_inv (parse_step sc line st m).
Proof.
  intros (Hs & Hb & Ha). unfold parse_step.
  set (cleanIndex := ps_cleanIndex st + _).
  assert (Forall (fun x => index x <= cleanIndex) (ps_markers st)) as Hb'.
  { eapply Forall_impl; [|exact Hb]. intros x Hx. cbv beta in Hx.
    subst cleanIndex. lia. }
  destruct (key_of _) as [k|]; [|now repeat split].
  destruct (isSafeColorValue _) eqn:Esafe; [|now repeat split].
  repeat split; cbn [ps_markers ps_cleanIndex].
  - apply sorted_from_snoc; [exact Hs | exact Hb' | lia].
  - apply Forall_app. split; [exact Hb'|]. constructor; [|constructor].
    cbn [index]. lia.
  - apply Forall_app. split; [exact Ha|]. constructor; [|constructor].
    cbn [value]. split; [exact Esafe | apply trim_idempotent].
Qed.

Lemma parseLineMarkers_markers sc line :
  sorted_from 0 (markers (parseLineMarkers sc line)) /\
  Forall (fun m => accepted_value (value m))
         (markers (parseLineMarkers sc line)).
Proof.
  unfold parseLineMarkers. cbn [markers].
  assert (forall ms st, markers_inv st ->
                        markers_inv (fold_left (parse_step sc line) ms st)) as A.
  { induction ms as [|m ms IH]; intros st H; [exact H|].
    simpl. apply IH. now apply parse_step_markers_inv. }
  destruct (A (matchAll COLOR_MARKER_REGEX line) (MkPState [] [] 0 0 false))
    as (Hs & _ & Ha).
  - repeat split; constructor.
  - now split.
Qed.

Lemma stable_sort_sorted ms : forall from,
  sorted_from from ms ->
  stable_sort (fun a b => index a <=? index b) ms = ms.
Proof.
  induction ms as [|m ms IH]; intros from H; [reflexivity|].
  destruct H as [_ H]. cbn [stable_sort]. rewrite (IH _ H).
  destruct ms as [|m2 ms']; [reflexivity|].
  destruct H as [H _]. cbn [insert_sorted].
  destruct (Nat.leb_spec (index m) (index m2)); [reflexivity | lia].
Qed.

Lemma key_of_key_text k : key_of (toLowerCase (key_text k)) = Some k.
Proof. destruct k; reflexivity. Qed.

(* ================================================================== *)
(** * Injection followed by parsing *)

Lemma inject_fold_weave G ms : forall from off pre,
  length pre = from + off ->
  sorted_from from ms ->
  Forall (fun m => index m <= length G) ms ->
  from <= length G ->
  fst (fold_left inject_step ms (pre ++ skipn from G, off))
  = pre ++ weave G from ms.
Proof.
  induction ms as [|m ms IH]; intros from off pre Hpre Hs Hb Hf;
    [reflexivity|].
  destruct Hs as [Hfm Hs]. inversion Hb as [|? ? Hm Hb']; subst.
  cbn [fold_left inject_step weave].
  assert (length (pre ++ skipn from G) = length G + off) as Hlen.
  { rewrite length_app, length_skipn. lia. }
  rewrite Hlen.
  replace (Nat.max 0 (Nat.min (length G + off) (index m + off)))
    with (index m + off) by lia.
  unfold splice_insert.
  rewrite firstn_app, skipn_app, Hpre.
  rewrite (@firstn_all2 _ (index m + off) pre) by lia.
  rewrite (@skipn_all2 _ (index m + off) pre) by lia.
  replace (index m + off - (from + off)) with (index m - from) by lia.
  rewrite skipn_skipn.
  replace (index m - from + from) with (index m) by lia.
  cbn [app].
  replace ((pre ++ firstn (index m - from) (skipn from G))
             ++ marker_text m :: skipn (index m) G)
    with ((pre ++ firstn (index m - from) (skipn from G) ++ [marker_text m])
            ++ skipn (index m) G)
    by (rewrite <- !app_assoc; reflexivity).
  rewrite IH; [| |exact Hs|exact Hb'|exact Hm].
  - rewrite <- !app_assoc. reflexivity.
  - rewrite !length_app, length_firstn, length_skipn. cbn [length]. lia.
Qed.

Lemma concat_run_incl (G : list jsstring) a b :
  incl (List.concat (firstn a (skipn b G))) (List.concat G).
Proof.
  intros c Hc. apply in_concat in Hc as (g & Hg & Hc).
  apply in_concat. exists g. split; [|exact Hc].
  apply (@skipn_incl _ b). eapply firstn_incl; eauto.
Qed.

Lemma slice_middle (A gap R : jsstring) :
  slice (A ++ gap ++ R) (length A) (length A + length gap) = gap.
Proof.
  unfold slice. rewrite skipn_app, skipn_all, Nat.sub_diag. cbn [app skipn].
  replace (length A + length gap - length A) with (length gap) by lia.
  now rewrite firstn_app, Nat.sub_diag, firstn_all, firstn_0, app_nil_r.
Qed.

Section InjectThenParse.
Variable sc : SmoothScrub.
Variable clean : jsstring.
Hypothesis Hfaithful : segmenter_faithful sc.
Hypothesis Hstable : segmenter_stable sc.
Hypothesis Hnobrace : ~ In Glyph.LBRACE clean.

Let G := splitGraphemes sc clean.

Lemma run_no_brace a b :
  existsb (N.eqb (cu "{")) (List.concat (firstn a (skipn b G))) = false.
Proof.
  apply no_char_existsb. intro H. apply concat_run_incl in H.
  unfold G in H. rewrite Hfaithful in H. contradiction.
Qed.

(** Parsing the woven text from the end of [A] on, in a state whose cursor
    is at the end of [A] and whose clean index is [from]: the markers come
    back in order with their indices, and the clean text is extended by
    the graphemes from [from] on. *)
Lemma parse_weave ms : forall from A st,
  sorted_from from ms ->
  Forall (fun m => index m <= length G) ms ->
  Forall (fun m => accepted_value (value m)) ms ->
  from <= length G ->
  ps_cursor st = length A ->
  ps_cleanIndex st = from ->
  let y := A ++ List.concat (weave G from ms) in
  let st' :=
    fold_left (parse_step sc y)
              (matchAll_from COLOR_MARKER_REGEX 0 (length A)
                             (List.concat (weave G from ms))) st in
  ps_markers st' = ps_markers st ++ ms /\
  ps_cleanLine st' ++ slice_from y (ps_cursor st')
  = ps_cleanLine st ++ List.concat (skipn from G).
Proof.
  induction ms as [|m ms IH]; intros from A st Hs Hb Ha Hf Hcur Hidx y st'.
  - assert (matchAll_from COLOR_MARKER_REGEX 0 (length A)
                           (List.concat (skipn from G)) = []) as Hnil.
    { replace (skipn from G) with (firstn (length G) (skipn from G))
        by (apply firstn_all2; rewrite length_skipn; lia).
      unfold COLOR_MARKER_REGEX. cbn [rseq]. unfold lit at 1.
      apply matchAll_from_head_cls, run_no_brace. }
    subst y st'. cbn [weave]. rewrite Hnil.
    cbn [fold_left]. split; [now rewrite app_nil_r|].
    unfold slice_from. rewrite Hcur, skipn_app, skipn_all, Nat.sub_diag.
    reflexivity.
  - destruct Hs as [Hfm Hs]. apply Forall_cons_iff in Hb as [Hm Hb'].
    apply Forall_cons_iff in Ha as [Hv Ha'].
    set (gap := List.concat (firstn (index m - from) (skipn from G))).
    set (W := List.concat (weave G (index m) ms)).
    assert (List.concat (weave G from (m :: ms)) = gap ++ marker_text m ++ W)
      as EW.
    { cbn [weave]. rewrite concat_app. reflexivity. }
    assert (y = (A ++ gap ++ marker_text m) ++ W) as Ey.
    { subst y. rewrite EW, <- !app_assoc. reflexivity. }
    subst st'. rewrite EW.
    assert (matchAll_from COLOR_MARKER_REGEX 0 (length A)
              (gap ++ marker_text m ++ W)
            = MkMatch (length A + length gap) (marker_text m)
                      [key_text (key m); value m]
              :: matchAll_from COLOR_MARKER_REGEX 0
                   (length (A ++ gap ++ marker_text m)) W) as ->.
    { unfold COLOR_MARKER_REGEX at 1. cbn [rseq]. unfold lit at 1.
      rewrite matchAll_from_skip_gap by apply run_no_brace.
      fold (lit "{").
      change (RSeq (lit "{")
                (rseq [RStar is_ws; lit "#"; RGroup (RPlus is_letter);
                       RStar is_ws; lit ":"; RStar is_ws;
                       RGroup (RPlusLazy not_rbrace); RStar is_ws; lit "}"]))
        with COLOR_MARKER_REGEX.
      rewrite (matchAll_marker_text m _ W Hv). f_equal. f_equal.
      rewrite !length_app. lia. }
    cbn [fold_left].
    set (st1 := parse_step sc y st _).
    assert (st1 = MkPState (ps_markers st ++ [m]) (ps_cleanLine st ++ gap)
                           (index m) (length (A ++ gap ++ marker_text m)) true)
      as Est1.
    { subst st1. unfold parse_step.
      cbn [m_text m_groups m_index nth].
      rewrite key_of_key_text. destruct Hv as [Hsafe Htrim].
      rewrite Htrim, Hsafe, Hcur.
      assert (slice y (length A) (length A + length gap) = gap) as ->.
      { subst y. rewrite EW. apply slice_middle. }
      assert (ps_cleanIndex st + length (splitGraphemes sc gap) = index m)
        as ->.
      { subst gap. unfold G. rewrite Hstable. fold G.
        rewrite length_firstn, length_skipn. lia. }
      destruct m as [k v i]. cbn [key value index].
      f_equal. rewrite !length_app. lia. }
    destruct (IH (index m) (A ++ gap ++ marker_text m) st1 Hs Hb' Ha' Hm)
      as [IH1 IH2].
    { now rewrite Est1. }
    { now rewrite Est1. }
    cbv zeta in IH1, IH2. fold W in IH1, IH2. rewrite <- Ey in IH1, IH2.
    split.
    + rewrite IH1, Est1. cbn [ps_markers]. now rewrite <- app_assoc.
    + rewrite IH2, Est1. cbn [ps_cleanLine]. rewrite <- app_assoc. f_equal.
      subst gap. rewrite <- concat_app. f_equal.
      rewrite <- (firstn_skipn (index m - from) (skipn from G)) at 2.
      f_equal. rewrite skipn_skipn. f_equal. lia.
Qed.

(** Injecting sorted, in-range markers with accepted values into the clean
    line and parsing the result gives the clean line and the markers back. *)
Lemma inject_then_parse ms :
  sorted_from 0 ms ->
  Forall (fun m => index m <= length G) ms ->
  Forall (fun m => accepted_value (value m)) ms ->
  let q := parseLineMarkers sc (injectMarkersIntoLine sc clean ms) in
  cleanLine q = clean /\ markers q = ms.
Proof.
  intros Hs Hb Ha q.
  assert (injectMarkersIntoLine sc clean ms = List.concat (weave G 0 ms)) as Ey.
  { unfold injectMarkersIntoLine. destruct ms as [|m ms'].
    - cbn [weave skipn]. unfold G. now rewrite Hfaithful.
    - rewrite (stable_sort_sorted _ 0 Hs).
      pose proof (@inject_fold_weave G (m :: ms') 0 0 [] eq_refl Hs Hb
                    (Nat.le_0_l _)) as Hw.
      cbn [app skipn] in Hw. fold G.
      destruct (fold_left inject_step (m :: ms') (G, 0)) as [g' off'].
      cbn [fst] in Hw. now rewrite Hw. }
  subst q. rewrite Ey. unfold parseLineMarkers. cbn [cleanLine markers].
  destruct (@parse_weave ms 0 [] (MkPState [] [] 0 0 false) Hs Hb Ha
              (Nat.le_0_l _) eq_refl eq_refl) as [H1 H2].
  cbn [app length] in H1, H2. unfold matchAll. split.
  - rewrite H2. cbn [ps_cleanLine app skipn]. unfold G. apply Hfaithful.
  - rewrite H1. reflexivity.
Qed.

End InjectThenParse.

(* ================================================================== *)
(** * The code-point fallback is a stable segmenter *)

Lemma code_points_head b s :
  exists t r, code_points (b :: s) = (b :: t) :: r.
Proof.
  destruct s as [|d s]; [now exists [], []|].
  rewrite code_points_cons2. destruct (_ && _)%bool; eauto.
Qed.

Lemma cp_ok_code_points s : cp_ok (code_points s).
Proof.
  assert (forall n s, length s <= n -> cp_ok (code_points s)) as A.
  { clear. induction n as [|n IH]; intros s Hs.
    - destruct s; [exact I | simpl in Hs; lia].
    - destruct s as [|a [|b s]]; [exact I | | ].
      + simpl. repeat split. left. eauto.
      + rewrite code_points_cons2.
        destruct (is_high_surrogate a && is_low_surrogate b)%bool eqn:E.
        * apply andb_true_iff in E as [Ea Eb]. cbn [cp_ok].
          split; [right; eauto|]. split.
          -- destruct (code_points s) as [|[|? ?] ?]; exact I.
          -- apply IH. simpl in Hs. lia.
        * cbn [cp_ok]. split; [left; eauto|]. split.
          -- destruct (code_points_head b s) as (t & r & ->). exact E.
          -- apply IH. simpl in *. lia. }
  now apply (A (length s)).
Qed.

Lemma cp_ok_tail e l : cp_ok (e :: l) -> cp_ok l.
Proof. intros (_ & _ & H). exact H. Qed.

Lemma cp_ok_skipn a : forall l, cp_ok l -> cp_ok (skipn a l).
Proof.
  induction a as [|a IH]; intros l H; [exact H|].
  destruct l as [|e l]; [exact I|]. apply IH. now apply cp_ok_tail in H.
Qed.

Lemma cp_ok_firstn n : forall l, cp_ok l -> cp_ok (firstn n l).
Proof.
  induction n as [|n IH]; intros l H; [exact I|].
  destruct l as [|e l]; [exact I|]. destruct H as (He & Hj & Hl).
  cbn [firstn cp_ok]. split; [exact He|]. split; [|now apply IH].
  destruct n as [|n']; [exact I|]. destruct l as [|e' l']; [exact I|].
  exact Hj.
Qed.

Lemma code_points_of_concat l : cp_ok l -> code_points (List.concat l) = l.
Proof.
  induction l as [|e l IH]; intro H; [reflexivity|].
  destruct H as (He & Hj & Hl). specialize (IH Hl).
  destruct He as [(c & ->) | (h & lo & -> & Hh & Hlo)].
  - destruct l as [|e' l']; [reflexivity|].
    destruct Hl as (He' & _ & _).
    assert (exists d t, e' = d :: t) as (d & t & ->).
    { destruct He' as [(x & ->) | (x & y & -> & _)]; eauto. }
    cbn [cp_no_join] in Hj.
    change (List.concat ([c] :: (d :: t) :: l'))
      with (c :: d :: (t ++ List.concat l')).
    rewrite code_points_cons2, Hj. f_equal. exact IH.
  - change (List.concat ([h; lo] :: l)) with (h :: lo :: List.concat l).
    rewrite code_points_cons2, Hh, Hlo. cbn [andb]. now rewrite IH.
Qed.

Lemma segmenter_stable_fallback c h : segmenter_stable (MkScrub c h None).
Proof.
  intros s a n. unfold splitGraphemes. cbn [segmenter].
  apply code_points_of_concat, cp_ok_firstn, cp_ok_skipn, cp_ok_code_points.
Qed.

(* ================================================================== *)
(** * C5: injecting the parsed markers back *)

(** C5 as stated fails: parsing [marker_in_marker] strips the inner marker
    (unknown key, so no marker is recorded); nothing is injected, and
    parsing the clean line again strips it whole and records a marker. *)
Lemma inject_parse_counterexample :
  let p := parseLineMarkers default_scrub marker_in_marker in
  let q := parseLineMarkers default_scrub
             (injectMarkersIntoLine default_scrub (cleanLine p) (markers p)) in
  cleanLine p = js "{#color:red}" /\ markers p = [] /\
  cleanLine q = [] /\ markers q = [MkMarker KColor (js "red") 0].
Proof. repeat split. Qed.

(** Why the indices must stay within the clean line: with the code-point
    fallback, a surrogate pair split by a marker counts as two graphemes
    while it is parsed and as one in the clean line, so the second marker
    (index 2) is clamped on injection and comes back with index 1. *)
Lemma inject_parse_straddle :
  let line := [0xD83D%N] ++ js "{#color:red}" ++ [0xDE00%N]
              ++ js "{#color:blue}" in
  let p := parseLineMarkers default_scrub line in
  let q := parseLineMarkers default_scrub
             (injectMarkersIntoLine default_scrub (cleanLine p) (markers p)) in
  List.map index (markers p) = [1; 2] /\
  length (splitGraphemes default_scrub (cleanLine p)) = 1 /\
  List.map index (markers q) = [1; 1].
Proof. repeat split. Qed.

(** C5, amended.  Let the segmenter return segments that concatenate to
    the text and be stable on runs of consecutive segments.  For every
    line whose clean line contains no opening brace and whose marker
    indices do not exceed the number of graphemes of the clean line,
    parsing the re-injected line gives the same clean line and the same
    markers (keys, values and indices) as parsing the line. *)
Theorem marker_roundtrip_spec :
  forall sc line,
    segmenter_faithful sc ->
    segmenter_stable sc ->
    let p := parseLineMarkers sc line in
    ~ In Glyph.LBRACE (cleanLine p) ->
    Forall (fun m => index m <= length (splitGraphemes sc (cleanLine p)))
           (markers p) ->
    let q := parseLineMarkers sc
               (injectMarkersIntoLine sc (cleanLine p) (markers p)) in
    cleanLine q = cleanLine p /\ markers q = markers p.
Proof.
  intros sc line Hf Hst p Hnb Hidx q.
  destruct (parseLineMarkers_markers sc line) as [Hs Ha]. fold p in Hs, Ha.
  exact (@inject_then_parse sc (cleanLine p) Hf Hst Hnb (markers p) Hs Hidx Ha).
Qed.

Lemma marker_roundtrip_spec_witness :
  let p := parseLineMarkers default_scrub styled_line in
  let q := parseLineMarkers default_scrub
             (injectMarkersIntoLine default_scrub (cleanLine p) (markers p)) in
  cleanLine q = cleanLine p /\ markers q = markers p.
Proof.
  apply (@marker_roundtrip_spec default_scrub styled_line
           (segmenter_faithful_fallback 12 24)
           (segmenter_stable_fallback 12 24)).
  - vm_compute. intuition discriminate.
  - vm_compute. repeat constructor.
Defined.

(* ================================================================== *)
(** * Further properties of the colour-safety check *)

(** A pattern anchored with [^] can only match at index 0. *)
Lemma search_bol_tail r pos s : search (RSeq RBol r) (S pos) s = None.
Proof.
  revert pos; induction s as [|c s IH]; intro pos; simpl.
  - reflexivity.
  - unfold exec_at. simpl. apply IH.
Qed.

Lemma test_bol r s :
  test (RSeq RBol r) s
  = match rmatch r accept 0 s [] with Some _ => true | None => false end.
Proof.
  unfold test. destruct s as [|c s]; cbn [search]; unfold exec_at;
    cbn [rmatch Nat.eqb]; destruct (rmatch r accept 0 _ []); try reflexivity.
  now rewrite search_bol_tail.
Qed.

Lemma rep_exact_inv n p k : forall pos s caps r,
  rep_exact n p k pos s caps = Some r ->
  exists a b, s = a ++ b /\ length a = n /\
              Forall (fun c => p c = true) a /\ k (pos + n) b caps = Some r.
Proof.
  induction n as [|n IH]; intros pos s caps r H; simpl in H.
  - exists [], s. rewrite Nat.add_0_r. repeat split; auto.
  - destruct s as [|c s]; [discriminate|].
    destruct (p c) eqn:Ec; [|discriminate].
    apply IH in H as (a & b & -> & Hl & Hall & Hk).
    exists (c :: a), b. simpl. rewrite Hl.
    replace (pos + S n) with (S pos + n) by lia. repeat split; auto.
Qed.

Lemma star_greedy_inv p k : forall s pos caps r,
  star_greedy p k pos s caps = Some r ->
  exists a b, s = a ++ b /\ Forall (fun c => p c = true) a /\
              k (pos + length a) b caps = Some r.
Proof.
  induction s as [|c s IH]; intros pos caps r H; simpl in H.
  - exists [], []. simpl. rewrite Nat.add_0_r. auto.
  - destruct (p c) eqn:Ec.
    + destruct (star_greedy p k (S pos) s caps) as [r'|] eqn:E.
      * injection H as <-. apply IH in E as (a & b & -> & Hall & Hk).
        exists (c :: a), b. simpl.
        replace (pos + S (length a)) with (S pos + length a) by lia. auto.
      * exists [], (c :: s). simpl. rewrite Nat.add_0_r. auto.
    + exists [], (c :: s). simpl. rewrite Nat.add_0_r. auto.
Qed.

Lemma star_greedy_all p : forall s pos caps,
  forallb p s = true ->
  star_greedy p (rmatch REol accept) pos s caps = Some (pos + length s, caps).
Proof.
  induction s as [|c s IH]; intros pos caps H; simpl in *.
  - now rewrite Nat.add_0_r.
  - apply andb_true_iff in H as [Hc Hs]. rewrite Hc, (IH _ _ Hs).
    f_equal. f_equal. lia.
Qed.

Lemma test_hex_inv n v : test (RE_HEX n) v = true -> is_hex_color n v.
Proof.
  unfold RE_HEX, lit. cbn [rseq]. rewrite test_bol.
  destruct v as [|c ds]; [discriminate|].
  change (rmatch (RSeq (RCls (N.eqb (cu "#"))) (RSeq (RRep n is_hex_i) REol))
                 accept 0 (c :: ds) [])
    with (if N.eqb (cu "#") c
          then rep_exact n is_hex_i (rmatch REol accept) 1 ds [] else None).
  destruct (N.eqb (cu "#") c) eqn:Ec; [|discriminate].
  apply N.eqb_eq in Ec. subst c.
  destruct (rep_exact n is_hex_i (rmatch REol accept) 1 ds []) as [r|] eqn:E;
    [|discriminate].
  intros _. apply rep_exact_inv in E as (a & b & -> & Hl & Hall & Hk).
  simpl in Hk. destruct b; [|discriminate].
  exists a. rewrite app_nil_r. auto.
Qed.

Lemma test_alpha_iff v :
  test RE_ALPHA v = true <-> v <> [] /\ forallb is_letter v = true.
Proof.
  unfold RE_ALPHA. cbn [rseq]. rewrite test_bol.
  destruct v as [|c s]; [cbn; intuition congruence|].
  change (rmatch (RSeq (RPlus is_letter) REol) accept 0 (c :: s) [])
    with (if is_letter c
          then star_greedy is_letter (rmatch REol accept) 1 s [] else None).
  destruct (is_letter c) eqn:Ec.
  - destruct (star_greedy is_letter (rmatch REol accept) 1 s []) as [r|] eqn:E.
    + apply star_greedy_inv in E as (a & b & -> & Hall & Hk).
      simpl in Hk. destruct b; [|discriminate]. rewrite app_nil_r.
      split; [|reflexivity]. intros _. split; [discriminate|].
      simpl. rewrite Ec. simpl. now apply forallb_forall, Forall_forall.
    + split; [discriminate|]. intros [_ H]. simpl in H. rewrite Ec in H.
      simpl in H. now rewrite (star_greedy_all _ _ _ _ H) in E.
  - split; [discriminate|]. intros [_ H]. simpl in H. now rewrite Ec in H.
Qed.

(** A match fails when its continuation fails on every text made of code
    units of [L]. *)
Section MatchFails.
Variable L : jsstring.

Lemma star_greedy_fails p k : kont_fails L k -> kont_fails L (star_greedy p k).
Proof.
  intros Hk pos s; revert pos; induction s as [|c s IH]; intros pos caps Hs;
    simpl; [now apply Hk|].
  destruct (p c); [|now apply Hk].
  rewrite IH by (eapply incl_tail; eauto). now apply Hk.
Qed.

Lemma plus_lazy_fails p k : kont_fails L k -> kont_fails L (plus_lazy p k).
Proof.
  intros Hk pos s; revert pos; induction s as [|c s IH]; intros pos caps Hs;
    simpl; [reflexivity|].
  destruct (p c); [|reflexivity].
  rewrite Hk by (eapply incl_tail; eauto). apply IH. eapply incl_tail; eauto.
Qed.

Lemma rep_exact_fails n p k : kont_fails L k -> kont_fails L (rep_exact n p k).
Proof.
  intros Hk; induction n as [|n IH]; intros pos s caps Hs; simpl;
    [now apply Hk|].
  destruct s as [|c s]; [reflexivity|]. destruct (p c); [|reflexivity].
  apply IH. eapply incl_tail; eauto.
Qed.

Lemma rmatch_fails r : forall k, kont_fails L k -> kont_fails L (rmatch r k).
Proof.
  induction r; intros k Hk pos s caps Hs; cbn [rmatch].
  - now apply Hk.
  - destruct (Nat.eqb pos 0); [now apply Hk|reflexivity].
  - destruct s; [now apply Hk|reflexivity].
  - destruct s as [|c s]; [reflexivity|]. destruct (p c); [|reflexivity].
    apply Hk. eapply incl_tail; eauto.
  - now apply star_greedy_fails.
  - destruct s as [|c s]; [reflexivity|]. destruct (p c); [|reflexivity].
    apply star_greedy_fails; [assumption|]. eapply incl_tail; eauto.
  - now apply plus_lazy_fails.
  - now apply rep_exact_fails.
  - apply IHr; [|assumption]. intros pos' s' caps' Hs'. now apply Hk.
  - apply IHr1; [|assumption]. now apply IHr2.
Qed.

Lemma rmatch_seq_fails r1 r2 k :
  kont_fails L (rmatch r2 k) -> kont_fails L (rmatch (RSeq r1 r2) k).
Proof. intro H. exact (rmatch_fails r1 H). Qed.

Lemma search_fails r : kont_fails L (rmatch r accept) ->
  forall s pos, incl s L -> search r pos s = None.
Proof.
  intros Hr; induction s as [|c s IH]; intros pos Hs; simpl; unfold exec_at;
    rewrite Hr by assumption; [reflexivity|].
  apply IH. eapply incl_tail; eauto.
Qed.
End MatchFails.

(** [/url\s*\(/i] needs an opening parenthesis. *)
Lemma test_url_no_paren v : ~ In (cu "(") v -> test RE_URL v = false.
Proof.
  intro Hv. unfold test. rewrite (@search_fails v); auto using incl_refl.
  unfold RE_URL. cbn [rseq]. do 4 apply rmatch_seq_fails.
  intros pos s caps Hs. unfold lit. cbn [rmatch].
  destruct s as [|c s]; [reflexivity|].
  destruct (N.eqb (cu "(") c) eqn:E; [|reflexivity].
  apply N.eqb_eq in E. subst c. exfalso. apply Hv, Hs. now left.
Qed.

Lemma letters_plain v :
  forallb is_letter v = true ->
  ~ In (cu "(") v /\ existsb is_unsafe_punct v = false.
Proof.
  intro H. rewrite forallb_forall in H. split.
  - intro Hin. apply H in Hin. revert Hin. vm_compute. discriminate.
  - apply not_true_is_false. intro E. apply existsb_exists in E as (c & Hc & E).
    apply H in Hc. revert Hc E. cls_solve.
Qed.

Lemma set_has_In set s : set_has set s = true <-> In s set.
Proof.
  unfold set_has. rewrite existsb_exists. split.
  - intros (x & Hx & E). apply str_eqb_eq in E. now subst.
  - intro H. exists s. split; [assumption|apply str_eqb_refl].
Qed.

Lemma isSafeColorValue_trim v : isSafeColorValue (trim v) = isSafeColorValue v.
Proof. unfold isSafeColorValue. now rewrite trim_idempotent. Qed.

(** X1.  [isSafeColorValue] accepts exactly three kinds of value, judged
    after trimming: [#] with three hexadecimal digits, [#] with six, and a
    word of ASCII letters whose lower-case form is one of the CSS colour
    names.  Everything else is refused. *)
Theorem isSafeColorValue_exact :
  forall v,
    isSafeColorValue v = true <->
    (is_hex_color 3 (trim v) \/ is_hex_color 6 (trim v) \/
     (trim v <> [] /\ forallb is_letter (trim v) = true /\
      In (toLowerCase (trim v)) CSS_NAMED_COLORS)).
Proof.
  intro v. split.
  - unfold isSafeColorValue. cbv zeta.
    destruct (trim v) as [|c t] eqn:Et; [discriminate|].
    destruct (test RE_URL (c :: t)); [discriminate|].
    destruct (test RE_UNSAFE (c :: t)); [discriminate|].
    destruct (test (RE_HEX 3) (c :: t)) eqn:E3;
      [intros _; left; now apply test_hex_inv|].
    destruct (test (RE_HEX 6) (c :: t)) eqn:E6;
      [intros _; right; left; now apply test_hex_inv|].
    destruct (test RE_ALPHA (c :: t)) eqn:Ea; [|discriminate].
    intro Hs. right. right. apply test_alpha_iff in Ea as [Hne Hl].
    apply set_has_In in Hs. auto.
  - intros [H | [H | (Hne & Hl & Hin)]].
    + rewrite <- isSafeColorValue_trim.
      apply (@isSafeColorValue_hex 3); auto.
    + rewrite <- isSafeColorValue_trim.
      apply (@isSafeColorValue_hex 6); auto.
    + unfold isSafeColorValue. cbv zeta.
      destruct (trim v) as [|c t] eqn:Et; [congruence|].
      destruct (letters_plain _ Hl) as [Hp Hu].
      rewrite (@test_url_no_paren _ Hp).
      unfold RE_UNSAFE. rewrite test_cls, Hu.
      destruct (test (RE_HEX 3) (c :: t)); [reflexivity|].
      destruct (test (RE_HEX 6) (c :: t)); [reflexivity|].
      assert (test RE_ALPHA (c :: t) = true) as ->
          by (apply test_alpha_iff; split; [discriminate|assumption]).
      now apply set_has_In.
Qed.

(* ================================================================== *)
(** * Further properties of the marker parser *)

Lemma sorted_from_nth ms : forall from,
  sorted_from from ms ->
  (forall i a, nth_error ms i = Some a -> from <= index a) /\
  (forall i j a b, i <= j -> nth_error ms i = Some a ->
                   nth_error ms j = Some b -> index a <= index b).
Proof.
  induction ms as [|m ms IH]; intros from Hs.
  - split; intros; destruct i; discriminate.
  - destruct Hs as [Hm Hs]. destruct (IH _ Hs) as [H1 H2]. split.
    + intros [|i] a Ha; simpl in Ha.
      * now injection Ha as <-.
      * apply H1 in Ha. lia.
    + intros [|i] [|j] a b Hij Ha Hb; simpl in Ha, Hb.
      * injection Ha as <-. injection Hb as <-. lia.
      * injection Ha as <-. now apply H1 in Hb.
      * lia.
      * apply (H2 i j); auto. lia.
Qed.

(** X2.  Every marker [parseLineMarkers] returns carries a value that
    passes [isSafeColorValue], is trimmed, is written with code units of the
    line and holds no closing brace; and the markers come in non-decreasing
    order of their column index. *)
Theorem parseLineMarkers_markers_spec :
  forall sc line,
    let p := parseLineMarkers sc line in
    (forall m, In m (markers p) ->
               isSafeColorValue (value m) = true /\
               trim (value m) = value m /\
               value m <> [] /\
               ~ In Glyph.RBRACE (value m) /\
               incl (value m) line) /\
    (forall i j a b, i <= j ->
                     nth_error (markers p) i = Some a ->
                     nth_error (markers p) j = Some b ->
                     index a <= index b).
Proof.
  intros sc line p.
  destruct (parseLineMarkers_markers sc line) as [Hs Ha]. fold p in Hs, Ha.
  destruct (parseLineMarkers_inside sc line) as [_ Hin]. fold p in Hin.
  split.
  - intros m Hm. rewrite Forall_forall in Ha, Hin.
    specialize (Ha m Hm). specialize (Hin m Hm).
    destruct (accepted_value_shape Ha) as (c & t & E & _ & _ & Hb).
    destruct Ha as [Ha1 Ha2]. repeat split; auto. rewrite E. discriminate.
  - apply (sorted_from_nth _ _ Hs).
Qed.

Lemma last_default (A : Type) (l : list A) (d d' : A) :
  l <> [] -> last l d = last l d'.
Proof.
  induction l as [|x l IH]; [congruence|]. intros _.
  destruct l as [|y l]; [reflexivity|]. apply IH. discriminate.
Qed.

(** The loop of [resolveTextColor] on sorted markers. *)
Lemma colour_at_sorted col ms : forall from,
  sorted_from from ms -> col < from -> filter (colour_at col) ms = [].
Proof.
  induction ms as [|m ms IH]; intros from Hs Hlt; [reflexivity|].
  destruct Hs as [Hm Hs]. simpl.
  assert (colour_at col m = false) as ->.
  { unfold colour_at. destruct (key m); auto. apply Nat.leb_gt. lia. }
  apply (IH (index m)); auto. lia.
Qed.

Lemma resolveTextColor_from_sorted col ms : forall from color,
  sorted_from from ms ->
  resolveTextColor_from color ms col
  = last (List.map (fun m => Some (value m)) (filter (colour_at col) ms)) color.
Proof.
  induction ms as [|m ms IH]; intros from color Hs; [reflexivity|].
  destruct Hs as [Hm Hs]. cbn [resolveTextColor_from filter].
  unfold colour_at at 1. destruct (key m) eqn:Ek; try (apply (IH _ _ Hs)).
  destruct (Nat.ltb_spec col (index m)) as [Hlt | Hge].
  - assert ((index m <=? col) = false) as -> by (apply Nat.leb_gt; lia).
    now rewrite (colour_at_sorted _ Hs Hlt).
  - assert ((index m <=? col) = true) as -> by (apply Nat.leb_le; lia).
    rewrite (IH _ _ Hs). cbn [List.map].
    destruct (List.map _ (filter (colour_at col) ms)) as [|o l] eqn:E;
      [reflexivity|].
    change (last (Some (value m) :: o :: l) color) with (last (o :: l) color).
    apply last_default. discriminate.
Qed.

(** X3.  For the markers of a parsed line, [resolveTextColor] at column
    [col] is the value of the last [color] marker placed at or before
    [col], and nothing when there is none; [bg] and [stroke] markers play no
    part. *)
Theorem resolveTextColor_parsed :
  forall sc line col,
    let ms := markers (parseLineMarkers sc line) in
    resolveTextColor ms col
    = last (List.map (fun m => Some (value m)) (filter (colour_at col) ms))
           None.
Proof.
  intros sc line col ms. unfold resolveTextColor.
  apply (@resolveTextColor_from_sorted col ms 0).
  apply parseLineMarkers_markers.
Qed.

(* ================================================================== *)
(** * Rectangular boxes *)

Lemma in_range_iff a b x : In x (range a b) <-> a <= x < b.
Proof. unfold range. rewrite in_seq. lia. Qed.

Lemma forallb_range (f : nat -> bool) a b :
  forallb f (range a b) = true <-> forall x, a <= x < b -> f x = true.
Proof.
  rewrite forallb_forall. split; intros H x Hx; apply H; now apply in_range_iff.
Qed.

(** X4.  [detectRectangularBoxes] returns exactly the rectangles drawn in
    the text: a box is in the result if and only if its four corners carry
    corner glyphs, the top and bottom rows carry horizontal edges between
    them, both sides carry vertical edges on every row in between, it spans
    at least two rows and two columns, and its area is width times
    height. *)
Theorem detectRectangularBoxes_exact :
  forall sc lines box,
    In box (detectRectangularBoxes sc lines) <->
    (box_drawn (List.map (splitGraphemes sc) lines)
               (b_top box) (b_left box) (b_bottom box) (b_right box) /\
     b_area box = ((Z.of_nat (b_right box) - Z.of_nat (b_left box))
                   * (Z.of_nat (b_bottom box) - Z.of_nat (b_top box)))%Z).
Proof.
  intros sc lines box. unfold detectRectangularBoxes, box_drawn, grapheme_at.
  cbv zeta. set (rows := List.map (splitGraphemes sc) lines). split.
  - intro H.
    apply in_flat_map in H as (top & Htop & H). apply in_range_iff in Htop.
    apply in_flat_map in H as (lf & Hlf & H). apply in_range_iff in Hlf.
    destruct (isTopLeftCorner (gchar (nth top rows []) lf)) eqn:E1;
      [|destruct H].
    apply in_flat_map in H as (rt & Hrt & H). apply in_range_iff in Hrt.
    destruct (isTopRightCorner (gchar (nth top rows []) rt)) eqn:E2;
      [|destruct H].
    destruct (forallb _ (range (lf + 1) rt)) eqn:E3; [|destruct H].
    apply in_flat_map in H as (bt & Hbt & H). apply in_range_iff in Hbt.
    destruct (isBottomLeftCorner (gchar (nth bt rows []) lf)) eqn:E4;
      [|destruct H].
    destruct (isBottomRightCorner (gchar (nth bt rows []) rt)) eqn:E5;
      [|destruct H].
    destruct (forallb _ (range (lf + 1) rt)) eqn:E6 in H; [|destruct H].
    destruct (forallb _ (range (top + 1) bt)) eqn:E7 in H; [|destruct H].
    destruct H as [<- | []]. cbn [b_top b_left b_bottom b_right b_area].
    rewrite forallb_range in E3, E6, E7.
    repeat split; auto; try lia.
    + apply E3. lia.
    + apply E6. lia.
    + assert (top + 1 <= y < bt) as Hy by lia. apply E7 in Hy.
      now apply andb_true_iff in Hy.
    + assert (top + 1 <= y < bt) as Hy by lia. apply E7 in Hy.
      now apply andb_true_iff in Hy.
  - destruct box as [top rt bt lf area].
    cbn [b_top b_left b_bottom b_right b_area].
    intros [(H1 & H2 & H3 & H4 & E1 & E2 & E4 & E5 & Hh & Hv) ->].
    apply in_flat_map. exists top. split; [apply in_range_iff; lia|].
    apply in_flat_map. exists lf. split; [apply in_range_iff; lia|].
    rewrite E1. cbn [negb].
    apply in_flat_map. exists rt. split; [apply in_range_iff; lia|].
    rewrite E2. cbn [negb].
    assert (forallb (fun x => isHorizontalBoxEdge (gchar (nth top rows []) x))
                    (range (lf + 1) rt) = true) as ->
        by (apply forallb_range; intros x Hx; apply Hh; lia).
    cbn [negb].
    apply in_flat_map. exists bt. split; [apply in_range_iff; lia|].
    rewrite E4, E5. cbn [negb].
    assert (forallb (fun x => isHorizontalBoxEdge (gchar (nth bt rows []) x))
                    (range (lf + 1) rt) = true) as ->
        by (apply forallb_range; intros x Hx; apply Hh; lia).
    cbn [negb].
    assert (forallb (fun y => (isVerticalBoxEdge (gchar (nth y rows []) lf)
                               && isVerticalBoxEdge (gchar (nth y rows []) rt))%bool)
                    (range (top + 1) bt) = true) as ->.
    { apply forallb_range. intros y Hy. apply andb_true_iff. apply Hv. lia. }
    cbn [negb]. now left.
Qed.

(* ================================================================== *)
(** * Box styles: the last marker wins *)

Lemma id_eqb_eq a b : id_eqb a b = true <-> a = b.
Proof.
  destruct a as [[[a1 a2] a3] a4], b as [[[b1 b2] b3] b4]. simpl.
  rewrite !andb_true_iff, !Nat.eqb_eq. split.
  - intros [[[-> ->] ->] ->]. reflexivity.
  - intros [= -> -> -> ->]. auto.
Qed.

Lemma map_get_set_other m id id' v :
  id_eqb id' id = false -> map_get (map_set m id' v) id = map_get m id.
Proof.
  intro H. induction m as [|[k x] m IH]; simpl.
  - now rewrite H.
  - destruct (id_eqb k id') eqn:E; simpl.
    + apply id_eqb_eq in E. subst k. now rewrite H.
    + destruct (id_eqb k id); [reflexivity | exact IH].
Qed.

Lemma fold_left_flat_map (A B C : Type) (f : A -> C -> A) (g : B -> list C)
  (l : list B) : forall a,
  fold_left f (flat_map g l) a = fold_left (fun a x => fold_left f (g x) a) l a.
Proof.
  induction l as [|x l IH]; intro a; simpl; [reflexivity|].
  now rewrite fold_left_app, IH.
Qed.

Lemma fold_left_map (A B C : Type) (f : A -> C -> A) (g : B -> C)
  (l : list B) : forall a,
  fold_left f (List.map g l) a = fold_left (fun a x => f a (g x)) l a.
Proof. induction l as [|x l IH]; intro a; simpl; auto. Qed.

(** [render] visits the markers in document order. *)
Lemma resolve_box_styles_placed boxes parsedLines :
  resolve_box_styles boxes parsedLines
  = fold_left (fun st rm => style_step boxes (fst rm) st (snd rm))
              (placed_markers parsedLines) [].
Proof.
  unfold resolve_box_styles, placed_markers. rewrite fold_left_flat_map.
  apply fold_left_ext_in. intros acc l _. now rewrite fold_left_map.
Qed.

Lemma last_cons (A : Type) (x : A) l d : last (x :: l) d = last l x.
Proof.
  destruct l as [|y l]; [reflexivity|].
  change (last (x :: y :: l) d) with (last (y :: l) d).
  apply last_default. discriminate.
Qed.

(** What one marker does to the style of the box [id]. *)
Lemma style_step_get boxes id st rm :
  let st' := style_step boxes (fst rm) st (snd rm) in
  bg_of (map_get st' id)
  = (if styles_box boxes id KBg rm then Some (value (snd rm))
     else bg_of (map_get st id)) /\
  stroke_of (map_get st' id)
  = (if styles_box boxes id KStroke rm then Some (value (snd rm))
     else stroke_of (map_get st id)) /\
  (map_get st' id = None <->
   map_get st id = None /\ styles_box boxes id KBg rm = false /\
   styles_box boxes id KStroke rm = false).
Proof.
  destruct rm as [row m]. unfold style_step, styles_box. cbn [fst snd].
  destruct (key m) eqn:Ek; cbn [key_eqb andb];
    try (destruct (findSmallestEnclosingBox boxes row (index m)) as [box|]);
    try (repeat split; tauto).
  - destruct (id_eqb (box_id box) id) eqn:E.
    + apply id_eqb_eq in E. subst id. rewrite map_get_set. cbn.
      destruct (map_get st (box_id box)); cbn;
        repeat split; try discriminate; intros (_ & H & _); discriminate.
    + rewrite (@map_get_set_other _ _ _ _ E). repeat split; tauto.
  - destruct (id_eqb (box_id box) id) eqn:E.
    + apply id_eqb_eq in E. subst id. rewrite map_get_set. cbn.
      destruct (map_get st (box_id box)); cbn;
        repeat split; try discriminate; intros (_ & _ & H); discriminate.
    + rewrite (@map_get_set_other _ _ _ _ E). repeat split; tauto.
Qed.

Lemma style_fold_get boxes id placed : forall st,
  let st' := fold_left (fun st rm => style_step boxes (fst rm) st (snd rm))
                       placed st in
  bg_of (map_get st' id)
  = last_value (bg_of (map_get st id)) (filter (styles_box boxes id KBg) placed)
  /\
  stroke_of (map_get st' id)
  = last_value (stroke_of (map_get st id))
               (filter (styles_box boxes id KStroke) placed) /\
  (map_get st' id = None <->
   map_get st id = None /\ filter (styles_box boxes id KBg) placed = [] /\
   filter (styles_box boxes id KStroke) placed = []).
Proof.
  induction placed as [|rm placed IH]; intro st.
  - cbn. tauto.
  - cbn [fold_left]. cbv zeta.
    destruct (IH (style_step boxes (fst rm) st (snd rm))) as (Hb & Hs & Hn).
    destruct (style_step_get boxes id st rm) as (Hb1 & Hs1 & Hn1).
    rewrite Hb, Hs, Hn, Hb1, Hs1, Hn1. cbn [filter]. unfold last_value.
    destruct (styles_box boxes id KBg rm), (styles_box boxes id KStroke rm);
      cbn [List.map]; rewrite ?last_cons;
      (split; [reflexivity | split; [reflexivity | intuition discriminate]]).
Qed.

(** X5.  In [render], when several markers style the same box, the last
    one in document order wins, for [bg] and [stroke] separately: the style
    recorded for a box holds the value of the last [bg] marker and of the
    last [stroke] marker whose smallest enclosing box it is, and a box has
    an entry exactly when some such marker exists. *)
Theorem resolve_box_styles_last_wins :
  forall boxes parsedLines id,
    let placed := placed_markers parsedLines in
    let bgs := filter (styles_box boxes id KBg) placed in
    let strokes := filter (styles_box boxes id KStroke) placed in
    match map_get (resolve_box_styles boxes parsedLines) id with
    | Some style =>
        s_bg style = last_value None bgs /\
        s_stroke style = last_value None strokes /\
        (bgs <> [] \/ strokes <> [])
    | None => bgs = [] /\ strokes = []
    end.
Proof.
  intros boxes parsedLines id placed bgs strokes.
  rewrite resolve_box_styles_placed. fold placed.
  destruct (style_fold_get boxes id placed []) as (Hb & Hs & Hn).
  cbn [map_get bg_of stroke_of] in Hb, Hs, Hn. fold bgs in Hb, Hn.
  fold strokes in Hs, Hn.
  destruct (map_get _ id) as [style|] eqn:E.
  - cbn in Hb, Hs. repeat split; auto.
    destruct bgs; [|left; discriminate].
    destruct strokes; [|right; discriminate].
    assert (@None BoxStyle = None /\ @nil (nat * ParsedMarker) = []
            /\ @nil (nat * ParsedMarker) = []) as H by auto.
    apply (proj2 Hn) in H. discriminate.
  - destruct (proj1 Hn eq_refl) as (_ & H1 & H2). auto.
Qed.

(* ================================================================== *)
(** * C8: the box that receives a style *)

Lemma last_map_some (A B : Type) (f : A -> B) (l : list A) v :
  last (List.map (fun x => Some (f x)) l) None = Some v ->
  exists x, In x l /\ f x = v.
Proof.
  induction l as [|x l IH]; [discriminate|].
  cbn [List.map]. rewrite last_cons. destruct l as [|y l].
  - cbn. intros [= <-]. exists x. split; [now left | reflexivity].
  - intro H. destruct IH as (z & Hz & E).
    + cbn [List.map] in *. rewrite last_cons in H. now rewrite last_cons.
    + exists z. split; [now right | exact E].
Qed.

(** A marker that styles the box [id] has that box as its smallest
    enclosing box. *)
Lemma styles_box_true boxes id k rm :
  styles_box boxes id k rm = true <->
  key (snd rm) = k /\
  exists box, findSmallestEnclosingBox boxes (fst rm) (index (snd rm))
              = Some box /\ box_id box = id.
Proof.
  unfold styles_box. rewrite andb_true_iff. split.
  - intros [Hk Hb]. split; [destruct (key (snd rm)), k; auto; discriminate|].
    destruct (findSmallestEnclosingBox _ _ _) as [box|]; [|discriminate].
    exists box. split; [reflexivity | now apply id_eqb_eq].
  - intros [<- (box & -> & <-)]. split; [now destruct (key (snd rm))|].
    apply id_eqb_refl.
Qed.

Lemma filter_last_app (A : Type) (p : A -> bool) before x after :
  p x = true -> (forall y, In y after -> p y = false) ->
  filter p (before ++ x :: after) = filter p before ++ [x].
Proof.
  intros Hx Ha. rewrite filter_app. cbn [filter]. rewrite Hx. f_equal. f_equal.
  induction after as [|y after IH]; [reflexivity|]. cbn [filter].
  rewrite (Ha y) by now left. apply IH. intros z Hz. apply Ha. now right.
Qed.

Lemma last_value_snoc d l rm :
  last_value d (l ++ [rm]) = Some (value (snd rm)).
Proof. unfold last_value. rewrite map_app. cbn [List.map]. apply last_last. Qed.

Lemma last_value_nonempty l : l <> [] -> last_value None l <> None.
Proof.
  intro H. destruct (exists_last H) as (l0 & z & ->).
  rewrite last_value_snoc. discriminate.
Qed.

(** C8.  In [render], a [bg] or [stroke] marker styles the box that
    [findSmallestEnclosingBox] returns for its row and visible column: a
    detected box that strictly encloses the position and whose area is
    least among the detected boxes that do.  That box has an entry in the
    style map, which holds the marker's value unless a later marker of the
    same key styles the same box; when no detected box encloses the
    position there is no such box.  No other box receives the style: every
    value in the style map comes from a marker of that key whose smallest
    enclosing box is the box of the entry. *)
Theorem box_style_resolution_spec :
  forall sc ascii,
    let r := render sc ascii in
    let boxes :=
      detectRectangularBoxes sc (List.map cleanLine (parse_document sc ascii)) in
    let placed := placed_markers (parse_document sc ascii) in
    r_boxes r = boxes /\
    (forall before row marker after,
        placed = before ++ (row, marker) :: after ->
        key marker <> KColor ->
        match findSmallestEnclosingBox boxes row (index marker) with
        | Some box =>
            In box boxes /\
            strictly_inside box row (index marker) /\
            (forall other, In other boxes ->
                           strictly_inside other row (index marker) ->
                           (b_area box <= b_area other)%Z) /\
            b_area box = (Z.of_nat (b_right box - b_left box)
                          * Z.of_nat (b_bottom box - b_top box))%Z /\
            exists style,
              map_get (r_boxStyles r) (box_id box) = Some style /\
              ((forall later,
                   In later after ->
                   styles_box boxes (box_id box) (key marker) later = false) ->
               (key marker = KBg -> s_bg style = Some (value marker)) /\
               (key marker = KStroke -> s_stroke style = Some (value marker)))
        | None =>
            forall box, In box boxes -> ~ strictly_inside box row (index marker)
        end) /\
    (forall id style,
        map_get (r_boxStyles r) id = Some style ->
        (forall v, s_bg style = Some v ->
                   exists row marker box,
                     In (row, marker) placed /\ key marker = KBg /\
                     value marker = v /\
                     findSmallestEnclosingBox boxes row (index marker)
                     = Some box /\ box_id box = id) /\
        (forall v, s_stroke style = Some v ->
                   exists row marker box,
                     In (row, marker) placed /\ key marker = KStroke /\
                     value marker = v /\
                     findSmallestEnclosingBox boxes row (index marker)
                     = Some box /\ box_id box = id) /\
        (s_bg style <> None \/ s_stroke style <> None)).
Proof.
  intros sc ascii r boxes placed.
  destruct (render_box_styles sc ascii) as [Hboxes Hstyles].
  cbv zeta in Hboxes, Hstyles. fold r boxes in Hboxes, Hstyles.
  assert (r_boxStyles r = resolve_box_styles boxes (parse_document sc ascii))
    as Hr by exact Hstyles.
  rewrite resolve_box_styles_placed in Hr. fold placed in Hr.
  assert (forall id,
             bg_of (map_get (r_boxStyles r) id)
             = last_value None (filter (styles_box boxes id KBg) placed) /\
             stroke_of (map_get (r_boxStyles r) id)
             = last_value None (filter (styles_box boxes id KStroke) placed) /\
             (map_get (r_boxStyles r) id = None <->
              filter (styles_box boxes id KBg) placed = [] /\
              filter (styles_box boxes id KStroke) placed = [])) as Hget.
  { intro id. rewrite Hr.
    destruct (style_fold_get boxes id placed []) as (Hb & Hs & Hn).
    cbn [map_get bg_of stroke_of] in Hb, Hs, Hn.
    split; [exact Hb|]. split; [exact Hs|]. rewrite Hn. tauto. }
  split; [exact Hboxes|]. split.
  - intros before row marker after Hp Hk.
    destruct (findSmallestEnclosingBox boxes row (index marker)) as [box|]
      eqn:Hbox; [|now apply findSmallestEnclosingBox_none].
    destruct (findSmallestEnclosingBox_some _ _ _ Hbox) as (Hin & Hs & Hmin).
    split; [exact Hin|]. split; [exact Hs|]. split; [exact Hmin|].
    split; [apply (detectRectangularBoxes_area sc _ _ Hin)|].
    destruct (Hget (box_id box)) as (Hb & Hst & Hn).
    assert (styles_box boxes (box_id box) (key marker) (row, marker) = true)
      as Hme by (apply styles_box_true; cbn [fst snd]; eauto).
    destruct (map_get (r_boxStyles r) (box_id box)) as [style|] eqn:E.
    + exists style. split; [reflexivity|]. intro Hlater.
      cbn [bg_of stroke_of] in Hb, Hst. split; intro Ek; rewrite Ek in *.
      * rewrite Hb, Hp, (@filter_last_app _ _ before _ after Hme Hlater).
        apply (last_value_snoc None _ (row, marker)).
      * rewrite Hst, Hp, (@filter_last_app _ _ before _ after Hme Hlater).
        apply (last_value_snoc None _ (row, marker)).
    + exfalso. destruct (proj1 Hn eq_refl) as [Hb0 Hs0].
      assert (In (row, marker) placed) as Hin'
          by (rewrite Hp; apply in_elt).
      destruct (key marker) eqn:Ek; [| |congruence].
      * assert (In (row, marker) (filter (styles_box boxes (box_id box) KBg)
                                         placed)) as Hf
            by (apply filter_In; auto).
        rewrite Hb0 in Hf. destruct Hf.
      * assert (In (row, marker) (filter (styles_box boxes (box_id box) KStroke)
                                         placed)) as Hf
            by (apply filter_In; auto).
        rewrite Hs0 in Hf. destruct Hf.
  - intros id style E. destruct (Hget id) as (Hb & Hs & Hn). rewrite E in *.
    cbn [bg_of stroke_of] in Hb, Hs. split; [|split].
    + intros v Hv. rewrite Hv in Hb. symmetry in Hb.
      apply (@last_map_some _ _ (fun rm => value (snd rm))) in Hb
        as ([row marker] & Hin & <-).
      apply filter_In in Hin as [Hin Hsb].
      apply styles_box_true in Hsb as (Hk & box & Hbox & Hid).
      exists row, marker, box. auto.
    + intros v Hv. rewrite Hv in Hs. symmetry in Hs.
      apply (@last_map_some _ _ (fun rm => value (snd rm))) in Hs
        as ([row marker] & Hin & <-).
      apply filter_In in Hin as [Hin Hsb].
      apply styles_box_true in Hsb as (Hk & box & Hbox & Hid).
      exists row, marker, box. auto.
    + destruct (filter (styles_box boxes id KBg) placed) as [|x l] eqn:Eb.
      * destruct (filter (styles_box boxes id KStroke) placed) as [|y l']
          eqn:Es.
        -- assert (Some style = None) as H by (apply Hn; auto). discriminate.
        -- right. rewrite Hs. apply last_value_nonempty. discriminate.
      * left. rewrite Hb. apply last_value_nonempty. discriminate.
Qed.

Lemma box_style_resolution_spec_witness :
  exists style,
    map_get (r_boxStyles (render default_scrub nested_styled)) (1, 2, 3, 5)
    = Some style /\
    s_bg style = Some (js "#f5f5f5") /\
    map_get (r_boxStyles (render default_scrub nested_styled)) (0, 0, 4, 7)
    = None.
Proof.
  destruct (box_style_resolution_spec default_scrub nested_styled)
    as (_ & Hmark & Horigin).
  pose (marker := MkMarker KBg (js "#f5f5f5") 3).
  assert (placed_markers (parse_document default_scrub nested_styled)
          = [] ++ (2, marker) :: []) as Hp by (vm_compute; reflexivity).
  assert (key marker <> KColor) as Hk by discriminate.
  specialize (Hmark _ _ _ _ Hp Hk).
  assert (findSmallestEnclosingBox
            (detectRectangularBoxes default_scrub
               (List.map cleanLine (parse_document default_scrub nested_styled)))
            2 (index marker)
          = Some (MkBox 1 5 3 2 6)) as Hbox by (vm_compute; reflexivity).
  rewrite Hbox in Hmark.
  destruct Hmark as (_ & _ & _ & _ & style & Hget & Hval).
  exists style. refine (conj Hget (conj _ _)).
  - apply Hval; [intros later []| reflexivity].
  - destruct (map_get (r_boxStyles (render default_scrub nested_styled))
                      (0, 0, 4, 7)) as [outer|] eqn:E; [|reflexivity].
    exfalso. destruct (Horigin _ _ E) as (Hb & Hs & Hne).
    assert (forall row m box,
               In (row, m)
                  (placed_markers (parse_document default_scrub nested_styled))
               -> findSmallestEnclosingBox
                    (detectRectangularBoxes default_scrub
                       (List.map cleanLine
                          (parse_document default_scrub nested_styled)))
                    row (index m) = Some box ->
               box_id box = (0, 0, 4, 7) -> False) as Hno.
    { intros row m box Hin Hf Hid. rewrite Hp in Hin.
      destruct Hin as [[= <- <-] | []]. rewrite Hbox in Hf.
      injection Hf as <-. discriminate. }
    destruct Hne as [Hne | Hne].
    + destruct (s_bg outer) as [v|] eqn:Ev; [|congruence].
      destruct (Hb v eq_refl) as (row & m & box & Hin & _ & _ & Hf & Hid).
      exact (Hno _ _ _ Hin Hf Hid).
    + destruct (s_stroke outer) as [v|] eqn:Ev; [|congruence].
      destruct (Hs v eq_refl) as (row & m & box & Hin & _ & _ & Hf & Hid).
      exact (Hno _ _ _ Hin Hf Hid).
Defined.

(* ================================================================== *)
(** * The vertical neighbour *)

(** The first element of a stably sorted array is the first of the least
    elements of the array. *)
Section StableSortFirst.
Variable A : Type.
Variable le : A -> A -> bool.
Hypothesis le_total : forall a b, le a b = false -> le b a = true.
Hypothesis le_trans :
  forall a b c, le a b = true -> le b c = true -> le a c = true.

End StableSortFirst.



Lemma In_indexed (A : Type) (l : list A) i x :
  In (i, x) (indexed l) <-> nth_error l i = Some x.
Proof.
  assert (forall s, In (i, x) (combine (seq s (length l)) l)
                    <-> s <= i /\ nth_error l (i - s) = Some x) as H.
  { induction l as [|y l IH]; intro s; cbn [length seq combine].
    - split; [intros []|]. intros [_ H]. destruct (i - s); discriminate.
    - cbn [In]. rewrite IH. split.
      + intros [[= <- <-] | [Hle Hn]].
        * rewrite Nat.sub_diag. auto.
        * split; [lia|]. replace (i - s) with (S (i - S s)) by lia. exact Hn.
      + intros [Hle Hn]. destruct (Nat.eq_dec s i) as [<- | Hne].
        * rewrite Nat.sub_diag in Hn. injection Hn as <-. now left.
        * right. split; [lia|].
          replace (i - s) with (S (i - S s)) in Hn by lia. exact Hn. }
  unfold indexed. rewrite H, Nat.sub_0_r. intuition lia.
Qed.

Lemma Qle_bool_false a b : Qle_bool a b = false <-> (b < a)%Q.
Proof.
  rewrite <- not_true_iff_false, Qle_bool_iff. split.
  - apply Qnot_le_lt.
  - apply Qlt_not_le.
Qed.

Lemma Qlt_bool_iff a b : Qlt_bool a b = true <-> (a < b)%Q.
Proof. unfold Qlt_bool. rewrite negb_true_iff. apply Qle_bool_false. Qed.

Lemma Qlt_bool_false a b : Qlt_bool a b = false <-> (b <= a)%Q.
Proof. unfold Qlt_bool. rewrite negb_false_iff. apply Qle_bool_iff. Qed.




(* ================================================================== *)
(** * Vertical runs *)

(** The cells the [while] loop of [detectVerticalRuns] collects: each one
    is the vertical neighbour of the one before, found in the next row. *)
Lemma follow_down_chain sc rich : forall below cell,
  length (follow_down sc rich cell below) <= length below /\
  forall k a b,
    nth_error (cell :: follow_down sc rich cell below) k = Some a ->
    nth_error (cell :: follow_down sc rich cell below) (S k) = Some b ->
    (exists j, findVerticalNeighbor sc a (nth k below []) rich = Some (j, b)) /\
    (c_partOfStrokedBox a && c_partOfStrokedBox b)%bool = false.
Proof.
  induction below as [|nextRow below IH]; intro cell; cbn [follow_down].
  - split; [cbn; lia|]. intros k a b _ H; destruct k; discriminate.
  - destruct (findVerticalNeighbor sc cell nextRow rich) as [[j next]|] eqn:E.
    + destruct (c_partOfStrokedBox cell && c_partOfStrokedBox next)%bool
        eqn:Ef.
      * split; [cbn; lia|]. intros k a b _ H; destruct k; discriminate.
      * destruct (IH next) as [Hl Hc]. split; [cbn [length]; lia|].
        intros [|k] a b Ha Hb.
        -- cbn in Ha, Hb. injection Ha as <-. injection Hb as <-.
           split; [exists j; exact E | exact Ef].
        -- cbn [nth]. apply Hc; assumption.
    + split; [cbn; lia|]. intros k a b _ H; destruct k; discriminate.
Qed.

Lemma nth_skipn_add (A : Type) (l : list A) n k d :
  nth k (skipn n l) d = nth (n + k) l d.
Proof.
  revert l; induction n as [|n IH]; intros [|x l]; cbn [skipn Nat.add nth];
    auto. destruct k; reflexivity.
Qed.

(** X7.  Every run [detectVerticalRuns] returns starts at a cell of the
    grid, holds at least two cells, takes its [cx] from its first cell and
    goes down one row per cell: each cell is the vertical neighbour
    ([findVerticalNeighbor]) of the one before, and no two consecutive
    cells both lie on a stroked box. *)
Theorem detectVerticalRuns_shape :
  forall sc grid rich run,
    In run (detectVerticalRuns sc grid rich) ->
    exists rowIndex colIndex row cell rest,
      nth_error grid rowIndex = Some row /\
      nth_error row colIndex = Some cell /\
      run_cells run = cell :: rest /\ rest <> [] /\
      run_cx run = c_cx cell /\
      rowIndex + length (run_cells run) <= length grid /\
      forall k a b,
        nth_error (run_cells run) k = Some a ->
        nth_error (run_cells run) (S k) = Some b ->
        (exists j, findVerticalNeighbor sc a (nth (rowIndex + S k) grid [])
                                        rich = Some (j, b)) /\
        (c_partOfStrokedBox a && c_partOfStrokedBox b)%bool = false.
Proof.
  intros sc grid rich run H. unfold detectVerticalRuns in H.
  apply in_flat_map in H as ([rowIndex row] & Hrow & H).
  apply in_flat_map in H as ([colIndex cell] & Hcell & H).
  cbn [fst snd] in H. apply In_indexed in Hrow, Hcell.
  destruct (run_from sc rich grid rowIndex row colIndex cell) as [run'|] eqn:E;
    [|destruct H].
  destruct H as [<- | []]. unfold run_from in E.
  destruct (negb (connectsDown (c_char cell) rich)
            && negb (connectsUp (c_char cell) rich))%bool; [discriminate|].
  destruct (negb rich && str_eqb (c_char cell) (js "v")
            && negb (isAsciiVConnector sc row colIndex rowIndex grid))%bool;
    [discriminate|].
  match type of E with (if ?c then _ else _) = _ => destruct c end;
    [discriminate|].
  cbv zeta in E.
  destruct (follow_down_chain sc rich (skipn (S rowIndex) grid) cell)
    as [Hlen Hchain].
  destruct (follow_down sc rich cell (skipn (S rowIndex) grid))
    as [|next rest] eqn:Ef; [discriminate|].
  cbn in E. injection E as <-. cbn [run_cells run_cx].
  exists rowIndex, colIndex, row, cell, (next :: rest).
  repeat split; auto; try discriminate.
  - rewrite length_skipn in Hlen. cbn [length] in *.
    assert (rowIndex < length grid)
      by (apply nth_error_Some; congruence). lia.
  - destruct (Hchain k a b H H0) as [(j & Hj) _]. exists j.
    rewrite nth_skipn_add in Hj.
    replace (rowIndex + S k) with (S rowIndex + k) by lia. exact Hj.
  - now destruct (Hchain k a b H H0).
Qed.

Lemma detectVerticalRuns_shape_witness :
  let grid := r_grid (render default_scrub two_bars) in
  let run := nth 0 (detectVerticalRuns default_scrub grid false) (MkRun 0 []) in
  exists rowIndex colIndex row cell rest,
    nth_error grid rowIndex = Some row /\
    nth_error row colIndex = Some cell /\
    run_cells run = cell :: rest /\ rest <> [] /\
    run_cx run = c_cx cell /\
    rowIndex + length (run_cells run) <= length grid /\
    forall k a b,
      nth_error (run_cells run) k = Some a ->
      nth_error (run_cells run) (S k) = Some b ->
      (exists j, findVerticalNeighbor default_scrub a
                   (nth (rowIndex + S k) grid []) false = Some (j, b)) /\
      (c_partOfStrokedBox a && c_partOfStrokedBox b)%bool = false.
Proof.
  apply detectVerticalRuns_shape. vm_compute. left. reflexivity.
Defined.

(* ================================================================== *)
(** * The grid *)

Lemma getDisplayWidth_range g rich :
  getDisplayWidth g rich = 1%Z \/ getDisplayWidth g rich = 2%Z.
Proof.
  unfold getDisplayWidth, getRichModeWidth, getGraphemeWidth.
  destruct rich;
    repeat match goal with |- context [if ?c then _ else _] => destruct c end;
    auto.
Qed.

(** The cells [render] creates for one row of graphemes. *)
Lemma build_row_cells sc rich y : forall gs x0,
  let cells := fst (build_row sc rich y x0 gs) in
  List.map c_char cells = gs /\
  Forall (fun cell =>
            c_y cell = y /\ c_cy cell = (y + ch sc / 2)%Q /\
            c_cols cell = getDisplayWidth (c_char cell) rich /\
            c_w cell = (inject_Z (c_cols cell) * cw sc)%Q /\
            c_cx cell = (c_x cell + c_w cell / 2)%Q /\
            c_partOfStrokedBox cell = false) cells /\
  (forall first, nth_error cells 0 = Some first -> c_x first = x0) /\
  (forall k a b, nth_error cells k = Some a -> nth_error cells (S k) = Some b ->
                 c_x b = (c_x a + c_w a)%Q).
Proof.
  induction gs as [|g gs IH]; intro x0; cbn [build_row].
  - cbn. repeat split; auto; intros; discriminate.
  - cbv zeta.
    specialize (IH (x0 + inject_Z (getDisplayWidth g rich) * cw sc)%Q).
    destruct (build_row sc rich y
                (x0 + inject_Z (getDisplayWidth g rich) * cw sc)%Q gs)
      as [cells endX].
    cbn [fst] in *. destruct IH as (Hc & Hall & Hfirst & Hnext).
    repeat split.
    + cbn. now rewrite Hc.
    + constructor; [cbn; auto 10|exact Hall].
    + intros first [= <-]. reflexivity.
    + intros [|k] a b Ha Hb; cbn in Ha, Hb.
      * injection Ha as <-. cbn. now apply Hfirst.
      * now apply (Hnext k).
Qed.

(** The grid has one row per line, built by [build_row]. *)
Lemma build_grid_rows sc rich lines :
  fst (build_grid sc rich lines)
  = mapi (fun line r =>
            fst (build_row sc rich (row_y sc r) (cw sc)
                           (splitGraphemes sc line))) lines.
Proof.
  unfold build_grid, indexed, mapi.
  assert (forall s g0 m0,
    fst (fold_left
           (fun acc l =>
              let '(grid, maxPixelW) := acc in
              let r := fst l in
              let y := (inject_Z (Z.of_nat r) * ch sc + ch sc)%Q in
              let (rowData, currentX) :=
                build_row sc rich y (cw sc) (splitGraphemes sc (snd l)) in
              (grid ++ [rowData],
               if Qlt_bool maxPixelW currentX then currentX else maxPixelW))
           (combine (seq s (length lines)) lines) (g0, m0))
    = g0 ++ mapi_from (fun line r =>
                         fst (build_row sc rich (row_y sc r) (cw sc)
                                        (splitGraphemes sc line))) s lines)
    as H.
  { induction lines as [|l lines IH]; intros s g0 m0.
    - cbn. now rewrite app_nil_r.
    - cbn [length seq combine fold_left mapi_from fst snd]. unfold row_y.
      destruct (build_row sc rich (inject_Z (Z.of_nat s) * ch sc + ch sc)%Q
                          (cw sc) (splitGraphemes sc l)) as [rowData x].
      rewrite IH. cbn [fst]. now rewrite <- app_assoc. }
  apply (H 0 [] 0%Q).
Qed.

Lemma map_mapi_from (A B C : Type) (F : B -> C) (G : A -> nat -> B)
  (F' : A -> C) l :
  (forall x i, F (G x i) = F' x) ->
  forall i, List.map F (mapi_from G i l) = List.map F' l.
Proof.
  intros H. induction l as [|x l IH]; intro i; cbn; [reflexivity|].
  now rewrite H, IH.
Qed.

Lemma tag_if_untagged b cell : untagged (tag_if b cell) = untagged cell.
Proof. now destruct b. Qed.

Lemma tag_cell_untagged grid r c :
  List.map (List.map untagged) (tag_cell grid r c)
  = List.map (List.map untagged) grid.
Proof.
  unfold tag_cell, mapi. apply map_mapi_from. intros row ri.
  destruct (Nat.eqb ri r); [|reflexivity].
  apply map_mapi_from. intros cell ci. now destruct (Nat.eqb ci c).
Qed.

Lemma fold_untagged (A : Type) (f : list (list GridCell) -> A -> list (list GridCell)) l :
  (forall g x, List.map (List.map untagged) (f g x)
               = List.map (List.map untagged) g) ->
  forall g, List.map (List.map untagged) (fold_left f l g)
            = List.map (List.map untagged) g.
Proof.
  intro H. induction l as [|x l IH]; intro g; cbn; [reflexivity|].
  now rewrite IH, H.
Qed.

Lemma tag_box_untagged grid e :
  List.map (List.map untagged) (tag_box grid e)
  = List.map (List.map untagged) grid.
Proof.
  unfold tag_box. destruct e as [[[[top left_] bottom] right_] style].
  destruct (negb (truthy (s_stroke style))); [reflexivity|].
  rewrite fold_untagged, fold_untagged; [reflexivity| |];
    intros g x; now rewrite !tag_cell_untagged.
Qed.

Lemma untagged_id cell : c_partOfStrokedBox cell = false -> untagged cell = cell.
Proof. destruct cell. cbn. now intros ->. Qed.

(** Tagging leaves everything but the tags as the grid pass made it. *)
Lemma render_grid_untagged sc ascii :
  let r := render sc ascii in
  List.map (List.map untagged) (r_grid r)
  = mapi (fun line rowIndex =>
            fst (build_row sc (r_isRichMode r) (row_y sc rowIndex) (cw sc)
                           (splitGraphemes sc line)))
         (List.map cleanLine (parse_document sc ascii)).
Proof.
  unfold render, render_document. cbv zeta.
  set (parsed := parse_document sc ascii).
  set (rich := detectRichMode (clean_text parsed)).
  pose proof (build_grid_rows sc rich (List.map cleanLine parsed)) as Hg.
  destruct (build_grid sc rich (List.map cleanLine parsed)) as [grid maxW].
  cbn [r_grid r_isRichMode fst] in *.
  rewrite (fold_untagged _ _ tag_box_untagged). rewrite Hg. clear Hg.
  unfold mapi. generalize 0.
  induction (List.map cleanLine parsed) as [|l ls IH]; intro i;
    cbn [mapi_from List.map]; [reflexivity|].
  rewrite IH. f_equal.
  destruct (build_row_cells sc rich (row_y sc i) (splitGraphemes sc l) (cw sc))
    as (_ & Hall & _).
  induction Hall as [|cell cells Hc _ IHc]; [reflexivity|].
  cbn [List.map]. rewrite IHc. f_equal. apply untagged_id. tauto.
Qed.

(** X8.  The grid [render] works on has one row per line of the document
    and one cell per grapheme of the clean line.  In row [r] every cell has
    [y = r * ch + ch] and [cy = y + ch / 2]; a cell is one or two columns
    wide as [getDisplayWidth] says, [w = cols * cw], [cx = x + w / 2]; the
    first cell starts at [x = cw] and each cell starts where the one before
    it ends. *)
Theorem render_grid_geometry :
  forall sc ascii,
    let r := render sc ascii in
    length (r_grid r) = length (split_on NL ascii) /\
    forall rowIndex row,
      nth_error (r_grid r) rowIndex = Some row ->
      (exists p, nth_error (parse_document sc ascii) rowIndex = Some p /\
                 List.map c_char row = splitGraphemes sc (cleanLine p)) /\
      (forall cell, In cell row ->
         c_y cell = row_y sc rowIndex /\
         c_cy cell = (c_y cell + ch sc / 2)%Q /\
         c_cols cell = getDisplayWidth (c_char cell) (r_isRichMode r) /\
         (c_cols cell = 1 \/ c_cols cell = 2)%Z /\
         c_w cell = (inject_Z (c_cols cell) * cw sc)%Q /\
         c_cx cell = (c_x cell + c_w cell / 2)%Q) /\
      (forall first, nth_error row 0 = Some first -> c_x first = cw sc) /\
      (forall k a b, nth_error row k = Some a -> nth_error row (S k) = Some b ->
                     c_x b = (c_x a + c_w a)%Q).
Proof.
  intros sc ascii r. pose proof (render_grid_untagged sc ascii) as H.
  cbv zeta in H. fold r in H. split.
  - apply (f_equal (@length _)) in H. rewrite length_map in H. rewrite H.
    unfold mapi.
    assert (forall (A B : Type) (f : A -> nat -> B) l i,
               length (mapi_from f i l) = length l) as Hl
        by (induction l; intro; cbn; auto).
    rewrite Hl, length_map, parse_document_lines, length_map. reflexivity.
  - intros rowIndex row Hrow.
    apply (map_nth_error (List.map untagged)) in Hrow. rewrite H in Hrow.
    rewrite nth_error_mapi in Hrow.
    rewrite nth_error_map in Hrow.
    destruct (nth_error (parse_document sc ascii) rowIndex) as [p|] eqn:Ep;
      [|discriminate].
    cbn [option_map] in Hrow. injection Hrow as Hrow.
    destruct (build_row_cells sc (r_isRichMode r) (row_y sc rowIndex)
                (splitGraphemes sc (cleanLine p)) (cw sc))
      as (Hc & Hall & Hfirst & Hnext).
    cbv zeta in Hc, Hall, Hfirst, Hnext.
    rewrite Hrow in Hc, Hall, Hfirst, Hnext. clear Hrow.
    split; [|split; [|split]].
    + exists p. split; [reflexivity|]. rewrite <- Hc, map_map.
      apply map_ext. now intros [].
    + intros cell Hin. rewrite Forall_forall in Hall.
      pose proof (Hall (untagged cell) (in_map untagged _ _ Hin)) as Hcell.
      cbn [untagged c_char c_x c_y c_cx c_cy c_w c_cols] in Hcell.
      destruct Hcell as (H1 & H2 & H3 & H4 & H5 & _).
      rewrite H1. repeat split; auto.
      rewrite H3. apply getDisplayWidth_range.
    + intros first Hf. apply (Hfirst (untagged first)).
      now apply map_nth_error.
    + intros k a b Ha Hb.
      apply (Hnext k (untagged a) (untagged b)); now apply map_nth_error.
Qed.

(* ------------------------------------------------------------------ *)
(** ** Cells on the perimeter of a stroked box *)

Lemma tag_if_tag_if a b cell : tag_if a (tag_if b cell) = tag_if (a || b) cell.
Proof. now destruct a, b. Qed.

Lemma option_map_tag_false o : option_map (tag_if false) o = o.
Proof. now destruct o. Qed.

Lemma option_map_tag_tag a b o :
  option_map (tag_if a) (option_map (tag_if b) o)
  = option_map (tag_if (a || b)) o.
Proof. destruct o; cbn; [now rewrite tag_if_tag_if | reflexivity]. Qed.

Lemma cell_at_tag_cell grid r c r' c' :
  cell_at (tag_cell grid r c) r' c'
  = option_map (tag_if ((r' =? r) && (c' =? c))) (cell_at grid r' c').
Proof.
  unfold cell_at, tag_cell. rewrite nth_error_mapi.
  destruct (nth_error grid r') as [row|]; cbn [option_map]; [|reflexivity].
  destruct (r' =? r); cbn [andb].
  - rewrite nth_error_mapi. destruct (nth_error row c'); cbn; [|reflexivity].
    now destruct (c' =? c).
  - now rewrite option_map_tag_false.
Qed.

Lemma cell_at_fold (A : Type)
  (step : list (list GridCell) -> A -> list (list GridCell))
  (P : A -> bool) r c l :
  (forall g x, cell_at (step g x) r c
               = option_map (tag_if (P x)) (cell_at g r c)) ->
  forall g, cell_at (fold_left step l g) r c
            = option_map (tag_if (existsb P l)) (cell_at g r c).
Proof.
  intro H. induction l as [|x l IH]; intro g; cbn [fold_left existsb].
  - now rewrite option_map_tag_false.
  - now rewrite IH, H, option_map_tag_tag, orb_comm.
Qed.

Lemma existsb_range_eqb c a b :
  existsb (fun x => c =? x) (range a b) = ((a <=? c) && (c <? b))%bool.
Proof.
  apply eq_iff_eq_true.
  rewrite existsb_exists, andb_true_iff, Nat.leb_le, Nat.ltb_lt. split.
  - intros (x & Hx & E). apply in_range_iff in Hx. apply Nat.eqb_eq in E. lia.
  - intros H. exists c. split; [now apply in_range_iff | apply Nat.eqb_refl].
Qed.

Lemma existsb_andb_l (A : Type) (b : bool) (f : A -> bool) l :
  existsb (fun x => (b && f x)%bool) l = (b && existsb f l)%bool.
Proof.
  induction l as [|x l IH]; cbn; [now rewrite andb_false_r|].
  rewrite IH. now destruct b.
Qed.

Lemma existsb_orb (A : Type) (f g : A -> bool) l :
  existsb (fun x => (f x || g x)%bool) l = (existsb f l || existsb g l)%bool.
Proof.
  induction l as [|x l IH]; cbn; [reflexivity|]. rewrite IH.
  destruct (f x), (g x), (existsb f l), (existsb g l); reflexivity.
Qed.

Lemma cell_at_tag_box grid e r c :
  cell_at (tag_box grid e) r c
  = option_map (tag_if (truthy (s_stroke (snd e)) && on_perimeter (fst e) r c))
               (cell_at grid r c).
Proof.
  destruct e as [[[[top left_] bottom] right_] style].
  unfold tag_box, on_perimeter. cbn [fst snd].
  destruct (truthy (s_stroke style)); cbn [negb andb];
    [|now rewrite option_map_tag_false].
  rewrite (@cell_at_fold _ _
             (fun r0 => ((r =? r0) && (c =? left_)
                         || (r =? r0) && (c =? right_))%bool)).
  2:{ intros g x. rewrite !cell_at_tag_cell, option_map_tag_tag.
      now rewrite orb_comm. }
  rewrite (@cell_at_fold _ _
             (fun c0 => ((r =? top) && (c =? c0)
                         || (r =? bottom) && (c =? c0))%bool)).
  2:{ intros g x. rewrite !cell_at_tag_cell, option_map_tag_tag.
      now rewrite orb_comm. }
  rewrite option_map_tag_tag. f_equal. f_equal.
  rewrite !existsb_orb, !existsb_andb_l, !existsb_range_eqb.
  assert (forall (f : nat -> bool) l b,
             existsb (fun x => (f x && b)%bool) l = (existsb f l && b)%bool)
    as Hr.
  { intros f l b. induction l as [|x l IH]; cbn; [reflexivity|].
    rewrite IH. destruct (f x), b, (existsb f l); reflexivity. }
  rewrite !Hr, !existsb_range_eqb.
  replace (c <? S right_) with (c <=? right_)
    by (apply eq_iff_eq_true; rewrite Nat.leb_le, Nat.ltb_lt; lia).
  replace (r <? S bottom) with (r <=? bottom)
    by (apply eq_iff_eq_true; rewrite Nat.leb_le, Nat.ltb_lt; lia).
  destruct (r =? top), (r =? bottom), (c =? left_), (c =? right_),
    (left_ <=? c), (c <=? right_), (top <=? r), (r <=? bottom); reflexivity.
Qed.

(** X9.  After the tagging pass of [render], a cell of the grid is marked
    [partOfStrokedBox] exactly when it lies on the perimeter (top or bottom
    row between the corners, or left or right column between them) of a
    box whose recorded style has a non-empty [stroke]. *)
Theorem render_stroked_tags :
  forall sc ascii rowIndex colIndex,
    let r := render sc ascii in
    match cell_at (r_grid r) rowIndex colIndex with
    | Some cell =>
        c_partOfStrokedBox cell
        = existsb (fun e => (truthy (s_stroke (snd e))
                             && on_perimeter (fst e) rowIndex colIndex)%bool)
                  (r_boxStyles r)
    | None => True
    end.
Proof.
  intros sc ascii rowIndex colIndex. unfold render, render_document.
  cbv zeta. set (parsed := parse_document sc ascii).
  set (rich := detectRichMode (clean_text parsed)).
  pose proof (build_grid_rows sc rich (List.map cleanLine parsed)) as Hg.
  destruct (build_grid sc rich (List.map cleanLine parsed)) as [grid maxW].
  cbn [r_grid r_boxStyles fst] in *.
  rewrite (@cell_at_fold _ _
             (fun e => (truthy (s_stroke (snd e))
                        && on_perimeter (fst e) rowIndex colIndex)%bool)).
  2:{ intros g x. apply cell_at_tag_box. }
  destruct (cell_at grid rowIndex colIndex) as [cell|] eqn:E;
    cbn [option_map]; [|exact I].
  assert (c_partOfStrokedBox cell = false) as Hf.
  { unfold cell_at in E. rewrite Hg, nth_error_mapi in E.
    destruct (nth_error (List.map cleanLine parsed) rowIndex) as [l|];
      [|discriminate].
    cbn [option_map] in E.
    destruct (build_row_cells sc rich (row_y sc rowIndex)
                (splitGraphemes sc l) (cw sc)) as (_ & Hall & _).
    rewrite Forall_forall in Hall. apply nth_error_In in E.
    apply Hall in E. tauto. }
  destruct (existsb _ _); cbn; [reflexivity | exact Hf].
Qed.

(* ================================================================== *)
(** * Display widths *)

Lemma fold_width_acc rich gs : forall acc,
  fold_left (fun width g => (width + getDisplayWidth g rich)%Z) gs acc
  = (acc + fold_left (fun width g => (width + getDisplayWidth g rich)%Z)
                     gs 0)%Z.
Proof.
  induction gs as [|g gs IH]; intro acc; cbn [fold_left]; [lia|].
  rewrite (IH (acc + _)%Z), (IH (0 + _)%Z). lia.
Qed.

Lemma fold_width_bounds rich gs :
  (Z.of_nat (length gs)
   <= fold_left (fun width g => (width + getDisplayWidth g rich)%Z) gs 0
   <= 2 * Z.of_nat (length gs))%Z.
Proof.
  induction gs as [|g gs IH]; cbn [fold_left length]; [lia|].
  rewrite fold_width_acc. destruct (getDisplayWidth_range g rich); lia.
Qed.

Lemma getDisplayWidth_printable c rich :
  is_printable c = true -> getDisplayWidth [c] rich = 1%Z.
Proof.
  intro H. unfold is_printable, in_range in H.
  apply andb_true_iff in H as [H1 H2]. apply N.leb_le in H1, H2.
  unfold getDisplayWidth, getRichModeWidth, getGraphemeWidth.
  destruct rich.
  - rewrite test_cls. unfold test_u. cbn [code_points existsb code_point_value].
    unfold in_range.
    repeat match goal with
      | |- context [N.leb ?a c] =>
          replace (N.leb a c) with false by (symmetry; apply N.leb_gt; lia)
      | |- context [N.eqb ?a c] =>
          replace (N.eqb a c) with false by (symmetry; apply N.eqb_neq; lia)
      end.
    reflexivity.
  - cbn [length Nat.eqb nth andb].
    replace (c <? 127)%N with true by (symmetry; apply N.ltb_lt; lia).
    reflexivity.
Qed.

Lemma width_printable sc rich text :
  segmenter_ascii sc -> forallb is_printable text = true ->
  getTextDisplayWidth sc text rich = Z.of_nat (length text).
Proof.
  intros Ha Hp. unfold getTextDisplayWidth. rewrite (Ha _ Hp). clear Ha.
  induction text as [|c text IH]; [reflexivity|].
  cbn [forallb] in Hp. apply andb_true_iff in Hp as [Hc Hp].
  cbn [List.map fold_left]. rewrite fold_width_acc, (IH Hp).
  rewrite (@getDisplayWidth_printable c rich Hc). cbn [length]. lia.
Qed.

(** X10.  The display width of a text lies between the number of its
    graphemes and twice that number, in both modes; for printable ASCII
    text, segmented into its code units, it is the length of the text. *)
Theorem getTextDisplayWidth_bounds :
  forall sc text rich,
    (Z.of_nat (length (splitGraphemes sc text))
     <= getTextDisplayWidth sc text rich
     <= 2 * Z.of_nat (length (splitGraphemes sc text)))%Z /\
    (segmenter_ascii sc -> forallb is_printable text = true ->
     getTextDisplayWidth sc text rich = Z.of_nat (length text)).
Proof.
  intros sc text rich. split.
  - apply fold_width_bounds.
  - apply width_printable.
Qed.

(* ================================================================== *)
(** * The horizontal pass *)

Lemma h_scan_skip rich row : forall k,
  h_scan rich k row = h_scan rich 0 (skipn k row).
Proof.
  induction row as [|c row IH]; intros [|k]; try reflexivity.
  cbn [h_scan skipn]. apply IH.
Qed.

Lemma h_segments_cons2 rich conn a b rest :
  h_segments rich conn (a :: b :: rest)
  = if canConnectHorizontally rich a b then
      (if conn then [] else [MoveTo (c_cx a) (c_cy a)])
      ++ LineTo (c_cx b) (c_cy b) :: h_segments rich true (b :: rest)
    else h_segments rich false (b :: rest).
Proof. reflexivity. Qed.

Lemma h_extend_cons2 rich a b rest :
  h_extend rich (a :: b :: rest)
  = if canConnectHorizontally rich a b then
      (LineTo (c_cx b) (c_cy b) :: fst (h_extend rich (b :: rest)),
       S (snd (h_extend rich (b :: rest))))
    else ([], 0).
Proof.
  change (h_extend rich (a :: b :: rest))
    with (if canConnectHorizontally rich a b then
            let (d, n) := h_extend rich (b :: rest) in
            (LineTo (c_cx b) (c_cy b) :: d, S n)
          else ([], 0)).
  destruct (canConnectHorizontally rich a b); [|reflexivity].
  now destruct (h_extend rich (b :: rest)).
Qed.

Lemma h_scan_cons2 rich curr next rest :
  h_scan rich 0 (curr :: next :: rest)
  = if canConnectHorizontally rich curr next then
      MoveTo (c_cx curr) (c_cy curr)
      :: fst (h_extend rich (curr :: next :: rest))
      ++ h_scan rich (snd (h_extend rich (curr :: next :: rest)) - 1)
                (next :: rest)
    else h_scan rich 0 (next :: rest).
Proof.
  change (h_scan rich 0 (curr :: next :: rest))
    with (if canConnectHorizontally rich curr next then
            let (d, n) := h_extend rich (curr :: next :: rest) in
            MoveTo (c_cx curr) (c_cy curr) :: d
              ++ h_scan rich (n - 1) (next :: rest)
          else h_scan rich 0 (next :: rest)).
  destruct (canConnectHorizontally rich curr next); [|reflexivity].
  now destruct (h_extend rich (curr :: next :: rest)).
Qed.

Lemma h_extend_segments rich : forall row,
  h_segments rich true row
  = fst (h_extend rich row)
    ++ h_segments rich false (skipn (snd (h_extend rich row)) row).
Proof.
  induction row as [|a row IH]; [reflexivity|].
  destruct row as [|b rest]; [reflexivity|].
  rewrite h_segments_cons2, h_extend_cons2.
  destruct (canConnectHorizontally rich a b) eqn:E.
  - rewrite IH. reflexivity.
  - cbn [fst snd skipn app]. now rewrite h_segments_cons2, E.
Qed.

Lemma h_scan_segments_len rich : forall n row,
  length row <= n -> h_scan rich 0 row = h_segments rich false row.
Proof.
  induction n as [|n IH]; intros row Hn.
  - destruct row; [reflexivity | cbn in Hn; lia].
  - destruct row as [|curr rest]; [reflexivity|].
    destruct rest as [|next rest]; [reflexivity|].
    rewrite h_scan_cons2, h_segments_cons2.
    destruct (canConnectHorizontally rich curr next) eqn:E.
    + rewrite h_extend_cons2, E. cbn [fst snd app].
      rewrite Nat.sub_succ, Nat.sub_0_r.
      rewrite (h_extend_segments rich (next :: rest)).
      rewrite h_scan_skip, IH; [reflexivity|].
      rewrite length_skipn. cbn [length] in *. lia.
    + apply IH. cbn [length] in *. lia.
Qed.

(** X11.  Pass 1 of [render], with its two nested index loops, draws one
    polyline per maximal run of horizontally connectable neighbours of a
    row: an [M] at the centre of the first cell of the run and an [L] at the
    centre of each further cell. *)
Theorem h_scan_segments :
  forall rich row, h_scan rich 0 row = h_segments rich false row.
Proof. intros rich row. now apply (@h_scan_segments_len rich (length row)). Qed.

(* ================================================================== *)
(** * The code-point fallback of [splitGraphemes] *)

Lemma cp_ok_elems l : cp_ok l -> Forall cp_elem_ok l.
Proof.
  induction l as [|e l IH]; intro H; constructor.
  - now destruct H.
  - apply IH. now destruct H as (_ & _ & H).
Qed.

Lemma concat_nonempty_length (l : list jsstring) :
  Forall (fun e => e <> []) l -> length l <= length (List.concat l).
Proof.
  induction 1 as [|e l He _ IH]; cbn [List.concat length]; [lia|].
  rewrite length_app. destruct e; [congruence | cbn [length]; lia].
Qed.

(** X12.  Without [Intl.Segmenter], [splitGraphemes] cuts a text into its
    code points: the pieces concatenate to the text, each piece is one code
    unit or a well-formed surrogate pair, there are at most as many pieces
    as code units, any run of consecutive pieces is split again into the
    same pieces, and printable ASCII text is cut into its code units. *)
Theorem splitGraphemes_fallback :
  forall c h text,
    let sc := MkScrub c h None in
    List.concat (splitGraphemes sc text) = text /\
    Forall cp_elem_ok (splitGraphemes sc text) /\
    length (splitGraphemes sc text) <= length text /\
    (forall a n,
        splitGraphemes sc
          (List.concat (firstn n (skipn a (splitGraphemes sc text))))
        = firstn n (skipn a (splitGraphemes sc text))) /\
    (forallb is_printable text = true ->
     splitGraphemes sc text = List.map (fun c => [c]) text).
Proof.
  intros c h text sc.
  pose proof (code_points_concat text) as Hc.
  pose proof (cp_ok_elems _ (cp_ok_code_points text)) as He.
  unfold splitGraphemes. cbn [segmenter sc]. repeat split; auto.
  - rewrite <- Hc at 2. apply concat_nonempty_length.
    eapply Forall_impl; [|exact He].
    intros e [[x ->] | (x & y & -> & _)]; discriminate.
  - intros a n. apply code_points_of_concat.
    apply cp_ok_firstn, cp_ok_skipn, cp_ok_code_points.
  - apply code_points_ascii.
Qed.

(* ================================================================== *)
(** * Injecting markers and parsing them back *)

Lemma insert_sorted_sorted x l : forall from,
  sorted_from from l -> from <= index x ->
  sorted_from from (insert_sorted (fun a b => index a <=? index b) x l).
Proof.
  induction l as [|y l IH]; intros from Hs Hx; cbn [insert_sorted].
  - cbn. auto.
  - destruct Hs as [Hy Hs]. destruct (Nat.leb_spec (index x) (index y)).
    + cbn [sorted_from]. auto.
    + cbn [sorted_from]. split; [exact Hy|]. apply IH; [exact Hs | lia].
Qed.

Lemma stable_sort_sorted_from ms :
  sorted_from 0 (stable_sort (fun a b => index a <=? index b) ms).
Proof.
  induction ms as [|m ms IH]; cbn [stable_sort]; [exact I|].
  apply insert_sorted_sorted; [exact IH | lia].
Qed.

Lemma stable_sort_Forall (A : Type) (le : A -> A -> bool) (P : A -> Prop) l :
  Forall P l -> Forall P (stable_sort le l).
Proof.
  rewrite !Forall_forall. intros H x Hx. apply H.
  now apply stable_sort_In in Hx.
Qed.

(** X13.  Let the clean line hold no opening brace and the segmenter be
    faithful and stable.  Injecting any list of markers whose values are
    accepted and whose indices lie within the line, then parsing the
    result, gives back the clean line and the same markers, sorted by
    index (markers with equal indices keep their order). *)
Theorem inject_then_parse_sorted :
  forall sc clean ms,
    segmenter_faithful sc ->
    segmenter_stable sc ->
    ~ In Glyph.LBRACE clean ->
    Forall (fun m => index m <= length (splitGraphemes sc clean)) ms ->
    Forall (fun m => accepted_value (value m)) ms ->
    let q := parseLineMarkers sc (injectMarkersIntoLine sc clean ms) in
    cleanLine q = clean /\
    markers q = stable_sort (fun a b => index a <=? index b) ms.
Proof.
  intros sc clean ms Hf Hst Hnb Hb Ha q.
  set (sorted := stable_sort (fun a b => index a <=? index b) ms).
  assert (injectMarkersIntoLine sc clean ms
          = injectMarkersIntoLine sc clean sorted) as E.
  { unfold injectMarkersIntoLine. destruct ms as [|m ms']; [reflexivity|].
    fold sorted. destruct sorted as [|s sorted'] eqn:Es.
    - apply stable_sort_nil in Es. discriminate.
    - rewrite <- Es.
      now rewrite (stable_sort_sorted sorted 0 (stable_sort_sorted_from _)). }
  subst q. rewrite E.
  apply (@inject_then_parse sc clean Hf Hst Hnb sorted).
  - apply stable_sort_sorted_from.
  - now apply stable_sort_Forall.
  - now apply stable_sort_Forall.
Qed.

Lemma inject_then_parse_sorted_witness :
  let ms := [MkMarker KColor (js "red") 3; MkMarker KBg (js "#fff") 1] in
  let q := parseLineMarkers default_scrub
             (injectMarkersIntoLine default_scrub (js "|ab|") ms) in
  cleanLine q = js "|ab|" /\
  markers q = stable_sort (fun a b => index a <=? index b) ms.
Proof.
  apply (@inject_then_parse_sorted default_scrub (js "|ab|")
           [MkMarker KColor (js "red") 3; MkMarker KBg (js "#fff") 1]
           (segmenter_faithful_fallback 12 24)
           (segmenter_stable_fallback 12 24)).
  - vm_compute. intuition discriminate.
  - repeat constructor; vm_compute; lia.
  - repeat constructor; vm_compute; reflexivity.
Defined.

(* ------------------------------------------------------------------ *)
(** ** Lines of printable ASCII *)

Lemma forallb_firstn (A : Type) (p : A -> bool) n l :
  forallb p l = true -> forallb p (firstn n l) = true.
Proof.
  rewrite !forallb_forall. intros H x Hx. apply H.
  now apply (firstn_incl n l).
Qed.

Lemma forallb_skipn (A : Type) (p : A -> bool) n l :
  forallb p l = true -> forallb p (skipn n l) = true.
Proof.
  rewrite !forallb_forall. intros H x Hx. apply H.
  now apply (skipn_incl n l).
Qed.

Lemma parse_step_ascii_inv sc line st m :
  segmenter_ascii sc -> forallb is_printable line = true ->
  ascii_inv st -> ascii_inv (parse_step sc line st m).
Proof.
  intros Ha Hp [Hi Hb]. unfold parse_step, ascii_inv.
  assert (length (splitGraphemes sc (slice line (ps_cursor st) (m_index m)))
          = length (slice line (ps_cursor st) (m_index m))) as El.
  { rewrite Ha; [apply length_map|].
    unfold slice. now apply forallb_firstn, forallb_skipn. }
  assert (Forall (fun x => index x
                           <= length (ps_cleanLine st
                                      ++ slice line (ps_cursor st) (m_index m)))
                 (ps_markers st)) as Hb'.
  { eapply Forall_impl; [|exact Hb]. intros x Hx. cbv beta in Hx.
    rewrite length_app. lia. }
  destruct (key_of _) as [k|];
    [destruct (isSafeColorValue _)|];
    cbn [ps_cleanIndex ps_cleanLine ps_markers];
    (split; [rewrite length_app; lia|]); auto.
  apply Forall_app. split; [exact Hb'|]. constructor; [|constructor].
  cbn [index]. rewrite length_app. lia.
Qed.

(** X14.  On a line of printable ASCII, cut by the segmenter into its code
    units, every marker index is a position of the clean line; and when the
    clean line holds no opening brace, injecting the markers and parsing
    again gives the clean line and the markers back. *)
Theorem ascii_line_roundtrip :
  forall sc line,
    segmenter_faithful sc -> segmenter_stable sc -> segmenter_ascii sc ->
    forallb is_printable line = true ->
    let p := parseLineMarkers sc line in
    Forall (fun m => index m <= length (cleanLine p)) (markers p) /\
    (~ In Glyph.LBRACE (cleanLine p) ->
     let q := parseLineMarkers sc
                (injectMarkersIntoLine sc (cleanLine p) (markers p)) in
     cleanLine q = cleanLine p /\ markers q = markers p).
Proof.
  intros sc line Hf Hst Ha Hp p.
  assert (Forall (fun m => index m <= length (cleanLine p)) (markers p)) as Hb.
  { unfold p, parseLineMarkers. cbn [cleanLine markers].
    assert (forall ms st, ascii_inv st ->
              ascii_inv (fold_left (parse_step sc line) ms st)) as A.
    { induction ms as [|m ms IH]; intros st H; [exact H|].
      cbn [fold_left]. apply IH. now apply parse_step_ascii_inv. }
    destruct (A (matchAll COLOR_MARKER_REGEX line) (MkPState [] [] 0 0 false))
      as [_ Hb]; [split; [reflexivity | constructor]|].
    eapply Forall_impl; [|exact Hb]. intros x Hx. cbv beta in Hx.
    rewrite length_app. lia. }
  split; [exact Hb|]. intros Hnb q.
  destruct (parseLineMarkers_markers sc line) as [Hs Hv]. fold p in Hs, Hv.
  apply (@inject_then_parse sc (cleanLine p) Hf Hst Hnb (markers p) Hs);
    [|exact Hv].
  rewrite Ha, length_map; [exact Hb|].
  apply forallb_forall. intros x Hx.
  rewrite forallb_forall in Hp. apply Hp.
  now apply (proj1 (parseLineMarkers_inside sc line)).
Qed.

Lemma ascii_line_roundtrip_witness :
  let p := parseLineMarkers default_scrub styled_line in
  Forall (fun m => index m <= length (cleanLine p)) (markers p) /\
  (~ In Glyph.LBRACE (cleanLine p) ->
   let q := parseLineMarkers default_scrub
              (injectMarkersIntoLine default_scrub (cleanLine p) (markers p)) in
   cleanLine q = cleanLine p /\ markers q = markers p).
Proof.
  apply (@ascii_line_roundtrip default_scrub styled_line
           (segmenter_faithful_fallback 12 24)
           (segmenter_stable_fallback 12 24)
           (segmenter_ascii_fallback 12 24)).
  vm_compute. reflexivity.
Defined.

(* ================================================================== *)
(** * [autoFormat], line by line *)

(** What [autoFormat] emits for a block, given what [format_line] emits for
    each of its lines at the width of the block. *)
Lemma format_block_rel sc rich blockMeta block blockIndex m
  (R : ParsedLineMarkers -> jsstring -> Prop) :
  nth_error blockMeta blockIndex = Some m ->
  block_rel block m ->
  R empty_meta [] ->
  (forall p, In p m -> nonblank p ->
             exists out,
               format_line sc rich (block_width sc rich block) (cleanLine p)
                           (getTextDisplayWidth sc (cleanLine p) rich) p
               = Some out /\ R p out) ->
  exists outs,
    format_block sc rich blockMeta block blockIndex = Some (join [NL] outs) /\
    Forall2 R m outs.
Proof.
  intros Hm (Hb & Hne & [-> | Hnb]) Hempty Hline.
  - subst block. exists [[]]. split; [reflexivity|].
    constructor; [exact Hempty | constructor].
  - unfold format_block.
    assert ((Nat.eqb (length block) 1 && str_eqb (nth 0 block [NL]) [])%bool
            = false) as ->.
    { subst block. destruct m as [|p [|q m']]; try reflexivity.
      inversion Hnb as [|? ? Hp _]; subst. cbn.
      destruct (cleanLine p) eqn:E; [|reflexivity].
      exfalso. apply Hp. now rewrite E. }
    rewrite Hm. fold (block_width sc rich block).
    destruct (@sequence_mapi_from jsstring jsstring ParsedLineMarkers
                (fun line p => line = cleanLine p /\ nonblank p)
                R
                (fun line lineIndex =>
                   match nth_error m lineIndex with
                   | Some lineMeta =>
                       format_line sc rich (block_width sc rich block) line
                         (getTextDisplayWidth sc line rich) lineMeta
                   | None => None
                   end) block m) with (i := 0) as (outs & Hs & Hr).
    + subst block. clear -Hnb. induction Hnb; simpl; constructor; auto.
    + intros k line p _ Hp [-> Hnbp]. cbn [Nat.add]. rewrite Hp.
      apply Hline; [|exact Hnbp]. now apply nth_error_In in Hp.
    + exists outs. unfold mapi. now rewrite Hs.
Qed.

Lemma norm_line_cases p :
  (norm_line p = empty_meta /\ trim (cleanLine p) = []) \/
  (norm_line p = p /\ nonblank p).
Proof.
  unfold norm_line, nonblank. destruct (trim (cleanLine p)); [now left|].
  right. split; [reflexivity | discriminate].
Qed.

(** What [autoFormat] emits for a document, given what [format_line] emits
    for each non-blank line at any width. *)
Lemma format_document_rel sc rich ps
  (R : ParsedLineMarkers -> jsstring -> Prop) :
  R empty_meta [] ->
  (forall p maxW, In p ps -> nonblank p ->
                  exists out,
                    format_line sc rich maxW (cleanLine p)
                                (getTextDisplayWidth sc (cleanLine p) rich) p
                    = Some out /\ R p out) ->
  exists outs,
    format_document sc rich ps = Some (join [NL] outs) /\
    Forall2 R (List.map norm_line ps) outs.
Proof.
  intros Hempty Hline. unfold format_document.
  pose proof (blocks_of_document ps) as [HF HC]. cbv zeta in HF, HC.
  destruct (flush_block _) as [blocks blockMeta]. cbn [fst snd] in HF, HC.
  destruct (@sequence_mapi_from _ _ _ block_rel
              (fun m fb => exists outs, fb = join [NL] outs /\ Forall2 R m outs)
              (format_block sc rich blockMeta) blocks blockMeta HF 0)
    as (fbs & Hs & Hr).
  { intros k b m _ Hm Hbm. cbn [Nat.add].
    destruct (@format_block_rel sc rich blockMeta b k m R Hm Hbm Hempty)
      as (outs & -> & Ho); [|eauto].
    intros p Hp Hnb. apply Hline; [|exact Hnb].
    assert (In p (List.map norm_line ps)) as Hin.
    { rewrite <- HC. apply in_concat. exists m. split; [|exact Hp].
      now apply nth_error_In in Hm. }
    apply in_map_iff in Hin as (p' & E & Hp').
    destruct (norm_line_cases p') as [[E' _] | [E' _]].
    - rewrite E' in E. subst p. now destruct (nonblank_not_empty Hnb).
    - rewrite E' in E. now subst p'. }
  unfold mapi. rewrite Hs.
  assert (exists outss, fbs = List.map (join [NL]) outss /\
                        Forall2 (Forall2 R) blockMeta outss)
    as (outss & -> & Ho).
  { clear -Hr.
    induction Hr as [|m fb ms fbs (outs & -> & Ho) _ (outss & -> & IH)].
    - exists []. split; [reflexivity | constructor].
    - exists (outs :: outss). split; [reflexivity | now constructor]. }
  exists (List.concat outss). split.
  - f_equal. apply join_concat.
    assert (Forall (fun m => m <> []) blockMeta) as Hmne.
    { clear -HF. induction HF as [|b m bs ms (_ & Hm & _) _ IH];
        constructor; auto. }
    clear -Ho Hmne. induction Ho as [|m outs ms outss Hmo _ IH];
      constructor.
    + inversion Hmne; subst. destruct Hmo; [contradiction | discriminate].
    + apply IH. now inversion Hmne.
  - rewrite <- HC. clear -Ho.
    induction Ho as [|m outs ms outss Hmo _ IH]; simpl; [constructor|].
    now apply Forall2_app.
Qed.

(* ------------------------------------------------------------------ *)
(** ** Plain prose *)

Lemma star_greedy_accept p : forall s pos caps,
  star_greedy p accept pos s caps
  = Some (pos + length (takeWhile p s), caps).
Proof.
  induction s as [|c s IH]; intros pos caps; cbn [star_greedy takeWhile].
  - unfold accept. now rewrite Nat.add_0_r.
  - destruct (p c); [|unfold accept; cbn; now rewrite Nat.add_0_r].
    rewrite IH. cbn [length]. now rewrite Nat.add_succ_r.
Qed.

Lemma firstn_takeWhile p s : firstn (length (takeWhile p s)) s = takeWhile p s.
Proof.
  induction s as [|c s IH]; [reflexivity|]. cbn [takeWhile].
  destruct (p c); [|reflexivity]. cbn. now rewrite IH.
Qed.

Lemma skipn_takeWhile p s : skipn (length (takeWhile p s)) s = dropWhile p s.
Proof.
  induction s as [|c s IH]; [reflexivity|]. cbn [takeWhile dropWhile].
  destruct (p c); [|reflexivity]. cbn. now rewrite IH.
Qed.

(** The indentation [autoFormat] reads off a line and the rest of the
    line. *)
Lemma indentation_spec line :
  let indentation :=
    match search RE_INDENT 0 line with
    | Some (st, (en, _)) => slice line st en
    | None => []
    end in
  indentation = takeWhile is_ws line /\
  slice_from line (length indentation) = trimStart line.
Proof.
  assert (search RE_INDENT 0 line
          = Some (0, (length (takeWhile is_ws line), []))) as ->.
  { unfold RE_INDENT. cbn [rseq].
    destruct line as [|c s]; cbn [search]; unfold exec_at;
      cbn [rmatch Nat.eqb]; now rewrite star_greedy_accept. }
  cbv zeta. unfold slice, slice_from, trimStart.
  rewrite Nat.sub_0_r. cbn [skipn]. rewrite firstn_takeWhile.
  split; [reflexivity | apply skipn_takeWhile].
Qed.

Lemma slice_last_app (a b : jsstring) :
  b <> [] -> slice_last (a ++ b) = slice_last b.
Proof.
  intro Hb. unfold slice_last. rewrite length_app.
  destruct b as [|c b]; [congruence|]. cbn [length].
  replace (length a + S (length b) - 1) with (length a + length b) by lia.
  rewrite skipn_app, skipn_all2 by lia.
  replace (length a + length b - length a) with (length b) by lia.
  cbn [app]. now rewrite Nat.sub_succ, Nat.sub_0_r.
Qed.

Lemma slice_last_trimStart l :
  trimStart l <> [] -> slice_last (trimStart l) = slice_last l.
Proof.
  intro H. unfold trimStart in *.
  destruct (dropWhile_suffix is_ws l) as [pre E].
  rewrite E at 2. now rewrite slice_last_app.
Qed.

(** The rich-mode structural characters are structural in ASCII mode too. *)
Lemma isStructure_rich_ascii s :
  isStructure s true = true -> isStructure s false = true.
Proof.
  unfold isStructure, RICH_STRUCTURE_CHARS, ASCII_STRUCTURE_CHARS.
  rewrite !test_cls, !existsb_exists. intros (c & Hc & H). exists c.
  split; [exact Hc|]. unfold char_in in *. rewrite existsb_app.
  apply orb_true_iff. left. exact H.
Qed.

Lemma isStructure_false_any s rich :
  isStructure s false = false -> isStructure s rich = false.
Proof.
  intro H. destruct rich; [|exact H].
  destruct (isStructure s true) eqn:E; [|reflexivity].
  apply isStructure_rich_ascii in E. congruence.
Qed.

Lemma prose_line_parts l :
  prose_line l = true ->
  forallb prose_char l = true /\
  (l = [] \/
   exists c t, trimStart l = c :: t /\ is_ws c = false /\ In c l /\
               isStructure [c] false = false /\
               isStructure (slice_last l) false = false).
Proof.
  unfold prose_line. intro H. apply andb_true_iff in H as [H1 H2].
  split; [exact H1|].
  destruct (trimStart l) as [|c t] eqn:E.
  - left. destruct l; [reflexivity | discriminate].
  - right. exists c, t. apply andb_true_iff in H2 as [H2 H3].
    apply negb_true_iff in H2, H3. repeat split; auto.
    + now apply (dropWhile_head is_ws l E).
    + apply (dropWhile_incl is_ws l). unfold trimStart in E. rewrite E.
      now left.
Qed.

Lemma prose_char_not c x :
  prose_char c = true -> In x [Glyph.LBRACE; Glyph.CARET; CR] -> c <> x.
Proof.
  unfold prose_char. intros H Hx ->. apply negb_true_iff in H.
  apply orb_false_iff in H as [H _].
  destruct Hx as [<- | [<- | [<- | []]]]; discriminate.
Qed.

Lemma prose_line_clean sc l :
  prose_line l = true ->
  parseLineMarkers sc (replace_first_empty RE_CR_END (strip_zero_width l))
  = MkParsed l l [] false.
Proof.
  intro H. apply prose_line_parts in H as [H _].
  rewrite forallb_forall in H.
  assert (strip_zero_width l = l) as ->.
  { unfold strip_zero_width. apply forallb_filter_id. apply forallb_forall.
    intros c Hc. apply H in Hc. unfold prose_char in Hc.
    apply negb_true_iff, orb_false_iff in Hc as [_ Hc]. now rewrite Hc. }
  assert (replace_first_empty RE_CR_END l = l) as ->.
  { unfold replace_first_empty, RE_CR_END. cbn [rseq].
    rewrite search_head_cls; [reflexivity|].
    apply no_char_existsb. intro Hc. apply H in Hc.
    apply (prose_char_not Hc (x := CR)); cbn; auto. }
  apply parseLineMarkers_no_match, matchAll_no_brace.
  intro Hc. apply H in Hc.
  apply (prose_char_not Hc (x := Glyph.LBRACE)); cbn; auto.
Qed.

Lemma format_line_prose sc rich maxW visW l :
  prose_line l = true -> l <> [] ->
  format_line sc rich maxW l visW (MkParsed l l [] false) = Some l.
Proof.
  intros H Hne. apply prose_line_parts in H as [Hall [-> | H]]; [congruence|].
  destruct H as (c & t & Et & Hws & Hin & Hc & Hlast).
  unfold format_line. unfold finish_line at 1 2 3. cbn [hadMarkers].
  destruct (test RE_STUB l); [reflexivity|].
  destruct (_ && forallb _ _)%bool; [reflexivity|].
  destruct (indentation_spec l) as [_ E]. cbv zeta in E. rewrite E, Et.
  cbn [char_at0 firstn].
  assert (slice_last (c :: t) = slice_last l) as ->
      by (rewrite <- Et; apply slice_last_trimStart; rewrite Et; discriminate).
  rewrite (@isStructure_false_any _ rich Hc),
    (@isStructure_false_any _ rich Hlast).
  assert (includes (c :: t) (js "^") = false) as ->.
  { apply not_true_is_false. intro Hi.
    assert (In Glyph.CARET (c :: t)) as Hcar
        by (apply (@includes_In (c :: t) (js "^") Glyph.CARET Hi); now left).
    rewrite <- Et in Hcar. apply (dropWhile_incl is_ws l) in Hcar.
    rewrite forallb_forall in Hall. apply Hall in Hcar.
    apply (prose_char_not Hcar (x := Glyph.CARET)); cbn; auto. }
  reflexivity.
Qed.

Lemma join_split_on sep s : join [sep] (split_on sep s) = s.
Proof.
  induction s as [|c s IH]; [reflexivity|]. cbn [split_on].
  destruct (split_on sep s) as [|l ls] eqn:E;
    [now apply split_on_not_nil in E|].
  destruct (N.eqb c sep) eqn:Ec.
  - apply N.eqb_eq in Ec. subst c.
    change (join [sep] ([] :: l :: ls)) with (sep :: join [sep] (l :: ls)).
    now rewrite IH.
  - rewrite <- IH. destruct ls; reflexivity.
Qed.

(** X15.  [autoFormat] returns a document of plain prose unchanged: when
    every line is either empty or holds some text that begins (after its
    indentation) and ends with a non-structural character, and no line holds
    an opening brace, a caret, a carriage return or a zero-width character,
    the result is the input itself. *)
Theorem autoFormat_prose_identity :
  forall sc ascii,
    Forall (fun l => prose_line l = true) (split_on NL ascii) ->
    autoFormat sc ascii = Some ascii.
Proof.
  intros sc ascii H. unfold autoFormat. cbv zeta.
  rewrite parse_document_lines.
  assert (List.map (fun l => parseLineMarkers sc
                               (replace_first_empty RE_CR_END
                                  (strip_zero_width l)))
                   (split_on NL ascii)
          = List.map (fun l => MkParsed l l [] false) (split_on NL ascii)) as ->.
  { apply map_ext_in. intros l Hl. rewrite Forall_forall in H.
    now apply prose_line_clean, H. }
  set (ps := List.map (fun l => MkParsed l l [] false) (split_on NL ascii)).
  set (rich := detectRichMode (clean_text ps)).
  destruct (@format_document_rel sc rich ps (fun p out => out = cleanLine p))
    as (outs & -> & HF).
  - reflexivity.
  - intros p maxW Hp Hnb. apply in_map_iff in Hp as (l & <- & Hl).
    rewrite Forall_forall in H. cbn [cleanLine]. exists l. split; auto.
    apply format_line_prose; [now apply H|].
    intros ->. apply Hnb. reflexivity.
  - f_equal. transitivity (join [NL] (split_on NL ascii));
      [|apply join_split_on]. f_equal.
    assert (outs = List.map cleanLine (List.map norm_line ps)) as ->.
    { clear -HF. induction HF as [|p o ps' outs' -> _ IH]; [reflexivity|].
      cbn [List.map]. now rewrite IH. }
    unfold ps. rewrite !map_map. rewrite <- (map_id (split_on NL ascii)) at 2.
    apply map_ext_in. intros l Hl. rewrite Forall_forall in H.
    destruct (norm_line_cases (MkParsed l l [] false)) as [[E Ht] | [E _]];
      rewrite E; [|reflexivity].
    cbn [cleanLine] in Ht. cbn.
    destruct (@prose_line_parts l (H l Hl))
      as [_ [-> | (c & t & _ & Hws & Hin & _)]]; [reflexivity|].
    pose proof (@trim_keeps c l Hin Hws) as Hk. rewrite Ht in Hk. destruct Hk.
Qed.

Lemma autoFormat_prose_identity_witness :
  autoFormat default_scrub prose_text = Some prose_text.
Proof.
  apply autoFormat_prose_identity. vm_compute. repeat constructor.
Defined.

(* ------------------------------------------------------------------ *)
(** ** Padding to the width of the block *)

Lemma printable_incl s L :
  incl s L -> forallb is_printable L = true -> forallb is_printable s = true.
Proof.
  rewrite !forallb_forall. intros H HL x Hx. now apply HL, H.
Qed.

Lemma length_dropWhile_le p s : length (dropWhile p s) <= length s.
Proof.
  induction s as [|c s IH]; cbn [dropWhile length]; [lia|].
  destruct (p c); cbn [length]; lia.
Qed.

Lemma length_trim_le s : length (trim s) <= length s.
Proof.
  unfold trim, trimEnd, trimStart. rewrite length_rev.
  etransitivity; [apply length_dropWhile_le|]. rewrite length_rev.
  apply length_dropWhile_le.
Qed.

Lemma takeWhile_dropWhile p s : takeWhile p s ++ dropWhile p s = s.
Proof.
  induction s as [|c s IH]; [reflexivity|]. cbn [takeWhile dropWhile].
  destruct (p c); [|reflexivity]. cbn. now rewrite IH.
Qed.

Lemma length_concat_repeat1 (c : char) n :
  length (List.concat (List.repeat [c] n)) = n.
Proof. induction n as [|n IH]; cbn; [reflexivity | now rewrite IH]. Qed.

Lemma printable_concat_repeat1 (c : char) n :
  is_printable c = true ->
  forallb is_printable (List.concat (List.repeat [c] n)) = true.
Proof.
  intro H. induction n as [|n IH]; cbn; [reflexivity|]. now rewrite H, IH.
Qed.

(** On a printable ASCII line no wider than [maxW], [autoFormat] either
    keeps the text of the line or brings it to the width [maxW]. *)
Lemma format_line_width sc rich maxW line meta :
  segmenter_ascii sc -> forallb is_printable line = true ->
  (getTextDisplayWidth sc line rich <= maxW)%Z ->
  exists text,
    format_line sc rich maxW line (getTextDisplayWidth sc line rich) meta
    = Some (finish_line sc meta text) /\
    forallb is_printable text = true /\
    (text = line \/ Z.of_nat (length text) = maxW).
Proof.
  intros Ha Hp Hle. rewrite (@width_printable sc rich _ Ha Hp) in *.
  unfold format_line.
  destruct (indentation_spec line) as [Ei El]. cbv zeta in Ei, El.
  rewrite Ei in El. rewrite !Ei, !El. clear Ei El.
  set (ind := takeWhile is_ws line). set (lwi := trimStart line).
  assert (line = ind ++ lwi) as Hline
      by (symmetry; apply takeWhile_dropWhile).
  assert (incl ind line /\ incl lwi line) as [Hi Hl].
  { split; intros x Hx; rewrite Hline; apply in_or_app; auto. }
  destruct (test RE_STUB line); [exists line; auto|].
  destruct (_ && forallb _ _)%bool; [exists line; auto|].
  destruct (negb _ && negb _)%bool; [exists line; auto|].
  destruct (if (0 <? length lwi) && isStructure (char_at0 lwi) rich
            then (char_at0 lwi, slice_from lwi 1) else ([], lwi))%bool
    as [prefix middle] eqn:Epm.
  assert (prefix ++ middle = lwi) as Hpm.
  { destruct (_ && _)%bool in Epm; injection Epm as <- <-;
      [apply firstn_skipn | reflexivity]. }
  clear Epm.
  destruct (if (0 <? length middle) && isStructure (slice_last middle) rich
            then (slice_last middle, slice_init middle) else ([], middle))%bool
    as [suffix middle0] eqn:Esm.
  assert (middle0 ++ suffix = middle) as Hms.
  { destruct (_ && _)%bool in Esm; injection Esm as <- <-;
      [apply firstn_skipn | apply app_nil_r]. }
  clear Esm.
  assert (incl prefix line /\ incl middle0 line /\ incl suffix line)
    as (Hpi & Hmi & Hsi).
  { rewrite <- Hpm, <- Hms in Hl.
    apply incl_app_inv in Hl as [Hl1 Hl2].
    apply incl_app_inv in Hl2 as [Hl2 Hl3]. auto. }
  assert (length line
          = length ind + length prefix + length middle0 + length suffix)
    as Hlen.
  { rewrite Hline, <- Hpm, <- Hms, !length_app. lia. }
  destruct (_ && _ && _ && _ && _ && _)%bool; [exists line; auto|].
  destruct (centered_content (trim middle0)) as [cc|] eqn:Ecc.
  - apply centered_content_some in Ecc. subst cc.
    assert (forallb is_printable (ind ++ prefix ++ suffix) = true) as Hips.
    { rewrite !forallb_app, !andb_true_iff.
      repeat split; eapply printable_incl; eauto. }
    assert (forallb is_printable (trim middle0) = true) as Htm.
    { eapply printable_incl; [|exact Hp]. now apply incl_trim'. }
    rewrite (@width_printable sc rich _ Ha Hips), (@width_printable sc rich _ Ha Htm).
    rewrite !repeat_str_some by (Z.div_mod_to_equations; lia).
    eexists. split; [reflexivity|]. split.
    + rewrite !forallb_app, !andb_true_iff.
      repeat split; try (eapply printable_incl; eauto; fail);
        try exact Htm; now apply printable_concat_repeat1.
    + right. pose proof (length_trim_le middle0) as Ht.
      rewrite !length_app.
      change (js " ") with [SPACE]. rewrite !length_concat_repeat1.
      rewrite Hlen in Hle. Z.div_mod_to_equations. lia.
  - destruct (Z.leb_spec (maxW - Z.of_nat (length line)) 0);
      [exists line; auto|].
    destruct suffix as [|c suffix']; [exists line; auto|].
    rewrite repeat_str_some by lia.
    assert (includes middle0 [Glyph.HH] = false) as ->.
    { apply not_true_is_false. intro Hc.
      assert (In Glyph.HH middle0) as Hin
          by (apply (@includes_In middle0 [Glyph.HH] Glyph.HH Hc); now left).
      apply Hmi in Hin. rewrite forallb_forall in Hp. apply Hp in Hin.
      discriminate. }
    assert (includes middle0 [Glyph.H] = false) as ->.
    { apply not_true_is_false. intro Hc.
      assert (In Glyph.H middle0) as Hin
          by (apply (@includes_In middle0 [Glyph.H] Glyph.H Hc); now left).
      apply Hmi in Hin. rewrite forallb_forall in Hp. apply Hp in Hin.
      discriminate. }
    assert (str_eqb prefix [Glyph.HH] = false) as ->.
    { apply not_true_is_false. intro Hc. apply str_eqb_eq in Hc.
      assert (In Glyph.HH prefix) as Hin by (rewrite Hc; now left).
      apply Hpi in Hin. rewrite forallb_forall in Hp. apply Hp in Hin.
      discriminate. }
    assert (str_eqb prefix [Glyph.H] = false) as ->.
    { apply not_true_is_false. intro Hc. apply str_eqb_eq in Hc.
      assert (In Glyph.H prefix) as Hin by (rewrite Hc; now left).
      apply Hpi in Hin. rewrite forallb_forall in Hp. apply Hp in Hin.
      discriminate. }
    cbn [orb].
    eexists. split; [reflexivity|].
    assert (is_printable (cu "-") = true /\ is_printable SPACE = true)
      as [Hd Hsp] by (split; reflexivity).
    change (js "-") with [cu "-"]. change (js " ") with [SPACE].
    match goal with
    | |- context [if ?b then [cu "-"] else [SPACE]] => destruct b
    end.
    + split.
      * rewrite !forallb_app, !andb_true_iff.
        repeat split; try (eapply printable_incl; eauto; fail).
        now apply printable_concat_repeat1.
      * right. rewrite !length_app, length_concat_repeat1.
        rewrite Hlen in *. cbn [length] in *. lia.
    + split.
      * rewrite !forallb_app, !andb_true_iff.
        repeat split; try (eapply printable_incl; eauto; fail).
        now apply printable_concat_repeat1.
      * right. rewrite !length_app, length_concat_repeat1.
        rewrite Hlen in *. cbn [length] in *. lia.
Qed.

Lemma block_step_nonblank ps : forall blocks blockMeta cb cm,
  Forall nonblank ps ->
  fold_left block_step ps (MkBState blocks blockMeta cb cm)
  = MkBState blocks blockMeta (cb ++ List.map cleanLine ps) (cm ++ ps).
Proof.
  induction ps as [|p ps IH]; intros blocks blockMeta cb cm H.
  - cbn. now rewrite !app_nil_r.
  - apply Forall_cons_iff in H as [Hp H]. cbn [fold_left].
    unfold block_step at 2. unfold nonblank in Hp.
    destruct (trim (cleanLine p)); [congruence|].
    cbn [bs_blocks bs_blockMeta bs_currentBlock bs_currentMetaBlock].
    rewrite (IH _ _ _ _ H). cbn [List.map]. now rewrite <- !app_assoc.
Qed.

Lemma fold_max_spec (zs : list Z) : forall a,
  let m := fold_left (fun m z => if (m <? z)%Z then z else m) zs a in
  (a <= m)%Z /\ (forall z, In z zs -> (z <= m)%Z) /\ (m = a \/ In m zs).
Proof.
  induction zs as [|z zs IH]; intro a; cbn [fold_left].
  - cbv zeta. repeat split; [lia | intros z [] | now left].
  - specialize (IH (if (a <? z)%Z then z else a)). cbv zeta in *.
    destruct IH as (H1 & H2 & H3).
    destruct (Z.ltb_spec a z); repeat split; try lia.
    + intros z' [<- | Hz']; [lia | auto].
    + destruct H3 as [-> | H3]; [right; now left | right; now right].
    + intros z' [<- | Hz']; [lia | auto].
    + destruct H3 as [-> | H3]; [now left | right; now right].
Qed.

Lemma plain_line_clean sc l :
  forallb is_printable l = true -> ~ In Glyph.LBRACE l ->
  parseLineMarkers sc (replace_first_empty RE_CR_END (strip_zero_width l))
  = MkParsed l l [] false.
Proof.
  intros H Hb. rewrite forallb_forall in H.
  assert (strip_zero_width l = l) as ->.
  { unfold strip_zero_width. apply forallb_filter_id. apply forallb_forall.
    intros c Hc. apply H in Hc. apply negb_true_iff.
    revert Hc. cls_unfold. unfold is_printable, is_zero_width, in_range.
    cls_prop. lia. }
  assert (replace_first_empty RE_CR_END l = l) as ->.
  { unfold replace_first_empty, RE_CR_END. cbn [rseq].
    rewrite search_head_cls; [reflexivity|].
    apply no_char_existsb. intro Hc. apply H in Hc. discriminate. }
  now apply parseLineMarkers_no_match, matchAll_no_brace.
Qed.

(** X16.  Take a document of printable ASCII without markers and without
    blank lines, so that it forms one block.  [autoFormat] returns one line
    per input line, and each of them is either the input line unchanged or
    a line exactly as long as the longest line of the document. *)
Theorem autoFormat_pads_block :
  forall sc ascii,
    segmenter_ascii sc ->
    Forall (fun l => forallb is_printable l = true /\
                     ~ In Glyph.LBRACE l /\ trim l <> [])
           (split_on NL ascii) ->
    exists outs w,
      autoFormat sc ascii = Some (join [NL] outs) /\
      (forall l, In l (split_on NL ascii) -> length l <= w) /\
      (exists l, In l (split_on NL ascii) /\ length l = w) /\
      Forall2 (fun l out => out = l \/ length out = w)
              (split_on NL ascii) outs.
Proof.
  intros sc ascii Ha H. unfold autoFormat. cbv zeta.
  rewrite parse_document_lines.
  set (lines := split_on NL ascii) in *.
  assert (List.map (fun l => parseLineMarkers sc
                               (replace_first_empty RE_CR_END
                                  (strip_zero_width l))) lines
          = List.map (fun l => MkParsed l l [] false) lines) as ->.
  { apply map_ext_in. intros l Hl. rewrite Forall_forall in H.
    destruct (H l Hl) as (H1 & H2 & _). now apply plain_line_clean. }
  set (ps := List.map (fun l => MkParsed l l [] false) lines).
  set (rich := detectRichMode (clean_text ps)).
  assert (List.map cleanLine ps = lines) as Hcl.
  { unfold ps. rewrite map_map. apply map_id. }
  assert (Forall nonblank ps) as Hnb.
  { unfold ps. apply Forall_map. eapply Forall_impl; [|exact H].
    intros l (_ & _ & Hl). exact Hl. }
  assert (lines <> []) as Hne by apply split_on_not_nil.
  clearbody lines.
  (* the widest line *)
  pose proof (fold_max_spec
                (List.map (fun line => getTextDisplayWidth sc line rich) lines)
                0%Z) as Hmax.
  cbv zeta in Hmax. fold (block_width sc rich lines) in Hmax.
  destruct Hmax as (_ & Hge & Hin).
  assert (forall l, In l lines ->
                    getTextDisplayWidth sc l rich = Z.of_nat (length l)) as HW.
  { intros l Hl. rewrite Forall_forall in H. destruct (H l Hl) as (H1 & _).
    now apply width_printable. }
  assert (exists l, In l lines /\
                    block_width sc rich lines = Z.of_nat (length l))
    as (lmax & Hlmax & Ew).
  { destruct Hin as [E0 | Hin].
    - destruct lines as [|l0 ls] eqn:El; [congruence|]. exists l0.
      split; [now left|].
      assert (In l0 (l0 :: ls)) as Hl0 by now left.
      specialize (Hge _ (in_map _ _ _ Hl0)). cbv beta in Hge.
      rewrite (HW _ Hl0) in Hge. rewrite Forall_forall in H.
      destruct (H l0 Hl0) as (_ & _ & Ht).
      destruct l0; [now destruct Ht|]. cbn [length] in *. lia.
    - apply in_map_iff in Hin as (l & E & Hl). exists l.
      split; [exact Hl|]. rewrite <- E. now apply HW. }
  (* one block *)
  unfold format_document.
  rewrite (@block_step_nonblank ps [] [] [] [] Hnb). cbn [app].
  unfold flush_block.
  cbn [bs_currentBlock bs_blocks bs_blockMeta bs_currentMetaBlock app].
  rewrite Hcl.
  assert (match lines with
          | [] => (@nil (list jsstring), @nil (list ParsedLineMarkers))
          | _ :: _ => ([lines], [ps])
          end = ([lines], [ps])) as -> by (destruct lines; congruence).
  unfold mapi. cbn [mapi_from sequence].
  destruct (@format_block_rel sc rich [ps] lines 0 ps
              (fun p out => out = cleanLine p
                            \/ Z.of_nat (length out) = block_width sc rich lines))
    as (outs & -> & HF).
  - reflexivity.
  - split; [now rewrite Hcl|]. split; [|now right].
    intro E. apply Hne. rewrite <- Hcl, E. reflexivity.
  - now left.
  - intros p Hp _. apply in_map_iff in Hp as (l & <- & Hl). cbn [cleanLine].
    rewrite Forall_forall in H. destruct (H l Hl) as (Hpr & _).
    destruct (@format_line_width sc rich (block_width sc rich lines) l
                (MkParsed l l [] false) Ha Hpr) as (text & -> & _ & Ht).
    + apply Hge. apply in_map_iff. exists l. auto.
    + exists text. split; [reflexivity|]. destruct Ht; auto.
  - exists outs, (length lmax). cbn [join]. repeat split.
    + intros l Hl. specialize (Hge _ (in_map _ _ _ Hl)). cbv beta in Hge.
      rewrite (HW _ Hl) in Hge. lia.
    + exists lmax. auto.
    + rewrite <- Hcl. clear -HF Ew. clearbody rich. clearbody ps.
      induction HF as [|p o ps' outs' Hpo _ IH]; cbn [List.map];
        constructor; auto.
      destruct Hpo as [-> | Hpo]; [now left | right; lia].
Qed.

Lemma autoFormat_pads_block_witness :
  exists outs w,
    autoFormat default_scrub ragged_box = Some (join [NL] outs) /\
    (forall l, In l (split_on NL ragged_box) -> length l <= w) /\
    (exists l, In l (split_on NL ragged_box) /\ length l = w) /\
    Forall2 (fun l out => out = l \/ length out = w)
            (split_on NL ragged_box) outs.
Proof.
  apply (@autoFormat_pads_block default_scrub ragged_box
           (segmenter_ascii_fallback 12 24)).
  vm_compute. repeat constructor; try discriminate; intuition discriminate.
Defined.

(* ================================================================== *)
(** * The width of the drawing *)

Lemma fold_qmax (A : Type) (f : A -> Q) l : forall a,
  let m := fold_left (fun m x => if Qlt_bool m (f x) then f x else m) l a in
  (a <= m)%Q /\ (forall x, In x l -> (f x <= m)%Q) /\
  (m = a \/ exists x, In x l /\ m = f x).
Proof.
  induction l as [|x l IH]; intro a; cbn [fold_left]; cbv zeta.
  - repeat split; [apply Qle_refl | intros x [] | now left].
  - specialize (IH (if Qlt_bool a (f x) then f x else a)). cbv zeta in IH.
    destruct IH as (H1 & H2 & H3).
    destruct (Qlt_bool a (f x)) eqn:E.
    + apply Qlt_bool_iff in E. repeat split.
      * eapply Qle_trans; [apply Qlt_le_weak; exact E | exact H1].
      * intros x' [<- | Hx']; [exact H1 | auto].
      * right. destruct H3 as [-> | (x' & Hx' & ->)];
          [exists x | exists x']; cbn; auto.
    + apply Qlt_bool_false in E. repeat split.
      * exact H1.
      * intros x' [<- | Hx']; [eapply Qle_trans; eauto | auto].
      * destruct H3 as [-> | (x' & Hx' & ->)];
          [now left | right; exists x'; cbn; auto].
Qed.

(** [maxPixelW]: the greatest row end. *)
Lemma build_grid_max sc rich lines :
  snd (build_grid sc rich lines)
  = fold_left (fun m l =>
                 if Qlt_bool m (snd (build_row sc rich (row_y sc (fst l))
                                       (cw sc) (splitGraphemes sc (snd l))))
                 then snd (build_row sc rich (row_y sc (fst l)) (cw sc)
                                     (splitGraphemes sc (snd l)))
                 else m)
              (indexed lines) 0%Q.
Proof.
  unfold build_grid.
  assert (forall l g0 m0,
    snd (fold_left
           (fun acc l =>
              let '(grid, maxPixelW) := acc in
              let r := fst l in
              let y := (inject_Z (Z.of_nat r) * ch sc + ch sc)%Q in
              let (rowData, currentX) :=
                build_row sc rich y (cw sc) (splitGraphemes sc (snd l)) in
              (grid ++ [rowData],
               if Qlt_bool maxPixelW currentX then currentX else maxPixelW))
           l (g0, m0))
    = fold_left (fun m l =>
                   if Qlt_bool m (snd (build_row sc rich (row_y sc (fst l))
                                         (cw sc) (splitGraphemes sc (snd l))))
                   then snd (build_row sc rich (row_y sc (fst l)) (cw sc)
                                       (splitGraphemes sc (snd l)))
                   else m) l m0) as H.
  { induction l as [|x l IH]; intros g0 m0; [reflexivity|].
    cbn [fold_left]. unfold row_y in *.
    destruct (build_row sc rich (inject_Z (Z.of_nat (fst x)) * ch sc + ch sc)%Q
                (cw sc) (splitGraphemes sc (snd x))) as [rowData endX].
    cbn [snd]. apply IH. }
  apply H.
Qed.

(** [currentX] when the row is done is [x + w] of its last cell. *)
Lemma build_row_last sc rich y gs : forall x0,
  snd (build_row sc rich y x0 gs)
  = fold_left (fun _ cell => (c_x cell + c_w cell)%Q)
              (fst (build_row sc rich y x0 gs)) x0.
Proof.
  induction gs as [|g gs IH]; intro x0; cbn [build_row]; [reflexivity|].
  cbv zeta.
  specialize (IH (x0 + inject_Z (getDisplayWidth g rich) * cw sc)%Q).
  destruct (build_row sc rich y
              (x0 + inject_Z (getDisplayWidth g rich) * cw sc)%Q gs)
    as [cells endX].
  cbn [fst snd fold_left c_x c_w] in *. exact IH.
Qed.

(** With a cell width that is not negative, [currentX] never decreases
    along a row. *)
Lemma build_row_mono sc rich y gs : forall x0,
  (0 <= cw sc)%Q ->
  (x0 <= snd (build_row sc rich y x0 gs))%Q /\
  Forall (fun cell =>
            (x0 <= c_x cell)%Q /\
            (c_x cell + c_w cell <= snd (build_row sc rich y x0 gs))%Q)
         (fst (build_row sc rich y x0 gs)).
Proof.
  induction gs as [|g gs IH]; intros x0 Hcw; cbn [build_row].
  - cbn. split; [apply Qle_refl | constructor].
  - cbv zeta.
    assert (0 <= inject_Z (getDisplayWidth g rich) * cw sc)%Q as Hw.
    { destruct (getDisplayWidth_range g rich) as [-> | ->];
        [change (inject_Z 1) with 1%Q | change (inject_Z 2) with 2%Q]; lra. }
    specialize (IH (x0 + inject_Z (getDisplayWidth g rich) * cw sc)%Q Hcw).
    destruct (build_row sc rich y
                (x0 + inject_Z (getDisplayWidth g rich) * cw sc)%Q gs)
      as [cells endX].
    cbn [fst snd] in *. destruct IH as [IH1 IH2]. split; [lra|].
    constructor.
    + cbn [c_x c_w]. split; [apply Qle_refl | exact IH1].
    + eapply Forall_impl; [|exact IH2]. cbn beta. intros cell [H1 H2].
      split; [lra | exact H2].
Qed.

Lemma row_end_untagged sc row :
  row_end sc (List.map untagged row) = row_end sc row.
Proof.
  unfold row_end. generalize (cw sc).
  induction row as [|cell row IH]; intro a; [reflexivity|].
  cbn [List.map fold_left]. apply IH.
Qed.

(** The rows of the grid of [render], as the grid pass made them. *)
Lemma render_grid_row sc ascii i row :
  let r := render sc ascii in
  nth_error (r_grid r) i = Some row ->
  exists line,
    nth_error (List.map cleanLine (parse_document sc ascii)) i = Some line /\
    List.map untagged row
    = fst (build_row sc (r_isRichMode r) (row_y sc i) (cw sc)
                     (splitGraphemes sc line)).
Proof.
  intros r Hrow. pose proof (render_grid_untagged sc ascii) as H.
  cbv zeta in H. fold r in H.
  apply (map_nth_error (List.map untagged)) in Hrow. rewrite H in Hrow.
  rewrite nth_error_mapi in Hrow.
  destruct (nth_error (List.map cleanLine (parse_document sc ascii)) i)
    as [line|]; [|discriminate].
  cbn [option_map] in Hrow. injection Hrow as Hrow. eauto.
Qed.

Lemma render_grid_line sc ascii i line :
  let r := render sc ascii in
  nth_error (List.map cleanLine (parse_document sc ascii)) i = Some line ->
  exists row,
    nth_error (r_grid r) i = Some row /\
    List.map untagged row
    = fst (build_row sc (r_isRichMode r) (row_y sc i) (cw sc)
                     (splitGraphemes sc line)).
Proof.
  intros r Hline. pose proof (render_grid_untagged sc ascii) as H.
  cbv zeta in H. fold r in H.
  assert (nth_error (List.map (List.map untagged) (r_grid r)) i
          = Some (fst (build_row sc (r_isRichMode r) (row_y sc i) (cw sc)
                                 (splitGraphemes sc line)))) as Hn
      by (now rewrite H, nth_error_mapi, Hline).
  rewrite nth_error_map in Hn.
  destruct (nth_error (r_grid r) i) as [row|]; [|discriminate].
  cbn [option_map] in Hn. injection Hn as Hn. eauto.
Qed.

(** X17.  With a cell width that is not negative, the width [render]
    gives the drawing is [maxPixelW + cw], where [maxPixelW] is the end of
    the row that ends furthest to the right: no row ends after it and some
    row ends there.  The end of a row is [x + w] of its last cell, [cw]
    for an empty row; every cell of the row starts at or after [cw] and has
    its [x + w] at or before the end of the row. *)
Theorem render_width :
  forall sc ascii,
    (0 <= cw sc)%Q ->
    let r := render sc ascii in
    exists maxPixelW,
      r_width r = (maxPixelW + cw sc)%Q /\
      (forall row,
          In row (r_grid r) ->
          (row_end sc row <= maxPixelW)%Q /\
          forall cell, In cell row ->
                       (cw sc <= c_x cell)%Q /\
                       (c_x cell + c_w cell <= row_end sc row)%Q) /\
      (exists row, In row (r_grid r) /\ (maxPixelW == row_end sc row)%Q).
Proof.
  intros sc ascii Hcw r.
  assert (forall i line,
             nth_error (List.map cleanLine (parse_document sc ascii)) i
             = Some line ->
             exists row,
               nth_error (r_grid r) i = Some row /\
               row_end sc row
               = snd (build_row sc (r_isRichMode r) (row_y sc i) (cw sc)
                                (splitGraphemes sc line))) as Hline.
  { intros i line Hl.
    destruct (@render_grid_line sc ascii i line Hl) as (row & Hrow & Hu).
    exists row. split; [exact Hrow|].
    rewrite <- row_end_untagged, build_row_last. fold r in Hu.
    now rewrite Hu. }
  assert (forall i row,
             nth_error (r_grid r) i = Some row ->
             exists line,
               nth_error (List.map cleanLine (parse_document sc ascii)) i
               = Some line /\
               row_end sc row
               = snd (build_row sc (r_isRichMode r) (row_y sc i) (cw sc)
                                (splitGraphemes sc line)) /\
               forall cell, In cell row ->
                            (cw sc <= c_x cell)%Q /\
                            (c_x cell + c_w cell <= row_end sc row)%Q) as Hrow.
  { intros i row Hr.
    destruct (@render_grid_row sc ascii i row Hr) as (line & Hl & Hu).
    fold r in Hu. exists line. split; [exact Hl|].
    assert (row_end sc row
            = snd (build_row sc (r_isRichMode r) (row_y sc i) (cw sc)
                             (splitGraphemes sc line))) as He
        by (rewrite <- row_end_untagged, build_row_last; now rewrite Hu).
    split; [exact He|]. intros cell Hc.
    destruct (@build_row_mono sc (r_isRichMode r) (row_y sc i)
                              (splitGraphemes sc line) (cw sc) Hcw)
      as [_ Hall].
    rewrite <- Hu in Hall. rewrite Forall_forall in Hall.
    specialize (Hall (untagged cell) (in_map untagged _ _ Hc)).
    rewrite He. exact Hall. }
  subst r. revert Hline Hrow. unfold render, render_document. cbv zeta.
  set (parsed := parse_document sc ascii).
  set (rich := detectRichMode (clean_text parsed)).
  set (lines := List.map cleanLine parsed).
  pose proof (build_grid_max sc rich lines) as Hm.
  destruct (build_grid sc rich lines) as [grid maxW].
  cbn [r_width r_isRichMode r_grid snd] in *.
  set (grid' := fold_left tag_box _ grid).
  intros Hline Hrow.
  set (f := fun l : nat * jsstring =>
              snd (build_row sc rich (row_y sc (fst l)) (cw sc)
                             (splitGraphemes sc (snd l)))) in *.
  destruct (fold_qmax f (indexed lines) 0%Q) as (H0 & Hge & Hin).
  cbv zeta in H0, Hge, Hin.
  assert (maxW = fold_left (fun m x => if Qlt_bool m (f x) then f x else m)
                           (indexed lines) 0%Q) as Hm' by exact Hm.
  rewrite <- Hm' in H0, Hge, Hin. clear Hm Hm'.
  exists maxW. split; [reflexivity|]. split.
  - intros row Hr. apply In_nth_error in Hr as [i Hi].
    destruct (Hrow i row Hi) as (line & Hl & He & Hcells).
    split; [|exact Hcells]. rewrite He.
    apply (Hge (i, line)). now apply In_indexed.
  - assert (lines <> []) as Hne.
    { unfold lines, parsed. intro E. apply map_eq_nil in E.
      now apply parse_document_not_nil in E. }
    destruct Hin as [E0 | ([i l] & Hx & E)].
    + destruct lines as [|l0 ls] eqn:El; [congruence|].
      destruct (Hline 0 l0 eq_refl) as (row & Hr & He).
      exists row. split; [eapply nth_error_In; eauto|].
      assert (In (0, l0) (indexed (l0 :: ls))) as H00
          by (apply In_indexed; reflexivity).
      pose proof (Hge _ H00) as Hge0. unfold f in Hge0. cbn [fst snd] in Hge0.
      destruct (@build_row_mono sc rich (row_y sc 0) (splitGraphemes sc l0)
                                (cw sc) Hcw) as [Hlo _].
      rewrite He. rewrite E0 in *. lra.
    + apply In_indexed in Hx. destruct (Hline i l Hx) as (row & Hr & He).
      exists row. split; [eapply nth_error_In; eauto|].
      rewrite He, E. apply Qeq_refl.
Qed.

Lemma render_width_witness :
  let r := render default_scrub two_bars in
  exists maxPixelW,
    r_width r = (maxPixelW + 12)%Q /\
    (forall row,
        In row (r_grid r) ->
        (row_end default_scrub row <= maxPixelW)%Q /\
        forall cell, In cell row ->
                     (12 <= c_x cell)%Q /\
                     (c_x cell + c_w cell <= row_end default_scrub row)%Q) /\
    (exists row, In row (r_grid r) /\
                 (maxPixelW == row_end default_scrub row)%Q).
Proof.
  apply (@render_width default_scrub two_bars). discriminate.
Defined.

(* ================================================================== *)
(** * What [parseLineMarkers] removes *)

Section MatchBounded.
Variables lo N : nat.

Lemma star_greedy_bounded p k :
  kont_bounded lo N k -> kont_bounded lo N (star_greedy p k).
Proof.
  intros Hk pos s; revert pos; induction s as [|c s IH];
    intros pos caps e cs Hlo HN H; cbn [star_greedy] in H.
  - eapply Hk; eauto.
  - destruct (p c); [|eapply Hk; eauto].
    destruct (star_greedy p k (S pos) s caps) as [[e' c']|] eqn:E.
    + injection H as <- <-. eapply (IH (S pos)); eauto.
      cbn [length] in HN. lia.
    + eapply Hk; eauto.
Qed.

Lemma plus_lazy_bounded p k :
  kont_bounded lo N k -> kont_bounded lo N (plus_lazy p k).
Proof.
  intros Hk pos s; revert pos; induction s as [|c s IH];
    intros pos caps e cs Hlo HN H; cbn [plus_lazy] in H; [discriminate|].
  destruct (p c); [|discriminate]. cbn [length] in HN.
  destruct (k (S pos) s caps) as [[e' c']|] eqn:E.
  - injection H as <- <-. eapply (Hk (S pos)); eauto; lia.
  - eapply (IH (S pos)); eauto; lia.
Qed.

Lemma rep_exact_bounded n p k :
  kont_bounded lo N k -> kont_bounded lo N (rep_exact n p k).
Proof.
  intros Hk; induction n as [|n IH]; intros pos s caps e cs Hlo HN H;
    cbn [rep_exact] in H; [eapply Hk; eauto|].
  destruct s as [|c s]; [discriminate|]. destruct (p c); [|discriminate].
  cbn [length] in HN. eapply (IH (S pos)); eauto; lia.
Qed.

Lemma rmatch_bounded r : forall k,
  kont_bounded lo N k -> kont_bounded lo N (rmatch r k).
Proof.
  induction r; intros k Hk pos s caps e cs Hlo HN H; cbn [rmatch] in H.
  - eapply Hk; eauto.
  - destruct (Nat.eqb pos 0); [eapply Hk; eauto | discriminate].
  - destruct s; [eapply Hk; eauto | discriminate].
  - destruct s as [|c s]; [discriminate|]. destruct (p c); [|discriminate].
    cbn [length] in HN. eapply (Hk (S pos)); eauto; lia.
  - eapply star_greedy_bounded; eauto.
  - destruct s as [|c s]; [discriminate|]. destruct (p c); [|discriminate].
    cbn [length] in HN. eapply (@star_greedy_bounded p k Hk (S pos)); eauto; lia.
  - eapply plus_lazy_bounded; eauto.
  - eapply rep_exact_bounded; eauto.
  - eapply (IHr (fun pos' s' caps' =>
                   k pos' s' (caps' ++ [firstn (pos' - pos) s]))); eauto.
    intros pos' s' caps' e' c' Hlo' HN' H'. eapply Hk; eauto.
  - eapply (IHr1 (rmatch r2 k)); eauto.
Qed.
End MatchBounded.

(** A match attempted at [pos] ends between [pos] and the end of the
    text. *)
Lemma exec_at_bounded r pos s e caps :
  exec_at r pos s = Some (e, caps) -> pos <= e <= pos + length s.
Proof.
  unfold exec_at. intro H.
  eapply (@rmatch_bounded pos (pos + length s) r accept); eauto.
  intros pos' s' caps' e' c' Hlo HN [= <- <-]. lia.
Qed.

Lemma spans_from_weaken line ms a b :
  b <= a -> spans_from line a ms -> spans_from line b ms.
Proof.
  destruct ms as [|m ms]; [auto|]. cbn [spans_from].
  intros Hba (H1 & H2 & H3 & H4). repeat split; auto. lia.
Qed.

(** The matches of [matchAll] lie in the line one after the other. *)
Lemma matchAll_from_spans r : forall s skip pos pre,
  length pre = pos ->
  spans_from (pre ++ s) (pos + skip) (matchAll_from r skip pos s).
Proof.
  induction s as [|c s IH]; intros skip pos pre Hpre.
  - destruct skip as [|n]; cbn [matchAll_from]; [|exact I].
    destruct (exec_at r pos []) as [[e caps]|] eqn:E; [|exact I].
    apply exec_at_bounded in E. cbn [length] in E.
    cbn [spans_from m_index m_text]. rewrite firstn_nil, app_nil_r.
    cbn [length]. unfold slice.
    replace (pos + 0 - pos) with 0 by lia. cbn [firstn].
    repeat split; lia.
  - assert (length (pre ++ [c]) = S pos) as Hpre'
        by (rewrite length_app; cbn; lia).
    assert (pre ++ c :: s = (pre ++ [c]) ++ s) as El
        by (now rewrite <- app_assoc).
    destruct skip as [|n]; cbn [matchAll_from].
    + destruct (exec_at r pos (c :: s)) as [[e caps]|] eqn:E.
      * apply exec_at_bounded in E. cbn [length] in E.
        assert (length (firstn (e - pos) (c :: s)) = e - pos) as Hl
            by (rewrite length_firstn; cbn [length]; lia).
        cbn [spans_from m_index m_text]. rewrite Hl.
        replace (pos + (e - pos)) with e by lia. repeat split.
        -- lia.
        -- rewrite length_app. cbn [length]. lia.
        -- assert (skipn pos (pre ++ c :: s) = c :: s) as Esk
               by (rewrite <- Hpre, skipn_app, skipn_all, Nat.sub_diag;
                   reflexivity).
           unfold slice. rewrite Esk. f_equal.
        -- rewrite El. apply (@spans_from_weaken _ _ (S pos + (e - pos - 1)));
             [lia|]. now apply IH.
      * rewrite El. apply (@spans_from_weaken _ _ (S pos + 0)); [lia|].
        now apply IH.
    + rewrite El. replace (pos + S n) with (S pos + n) by lia. now apply IH.
Qed.

(** The loop of [parseLineMarkers] over matches that lie in the line one
    after the other: what is added to the clean text is what the cursor
    passes, less the matched texts. *)
Lemma parse_fold_length sc line ms : forall st,
  spans_from line (ps_cursor st) ms ->
  ps_cursor st <= length line ->
  let st' := fold_left (parse_step sc line) ms st in
  ps_cursor st' <= length line /\
  length (ps_cleanLine st') + matched_length ms + ps_cursor st
  = length (ps_cleanLine st) + ps_cursor st'.
Proof.
  induction ms as [|m ms IH]; intros st Hs Hc; cbn [fold_left]; cbv zeta.
  - unfold matched_length. cbn. lia.
  - destruct Hs as (H1 & H2 & H3 & H4).
    assert (ps_cursor (parse_step sc line st m)
            = m_index m + length (m_text m)) as Ec
        by (unfold parse_step; destruct (key_of _);
            [destruct (isSafeColorValue _)|]; reflexivity).
    assert (ps_cleanLine (parse_step sc line st m)
            = ps_cleanLine st ++ slice line (ps_cursor st) (m_index m)) as El
        by (unfold parse_step; destruct (key_of _);
            [destruct (isSafeColorValue _)|]; reflexivity).
    destruct (IH (parse_step sc line st m)) as [IH1 IH2].
    + now rewrite Ec.
    + rewrite Ec. exact H2.
    + split; [exact IH1|]. rewrite El, Ec in IH2.
      rewrite length_app in IH2. unfold slice in IH2.
      rewrite length_firstn, length_skipn in IH2.
      unfold matched_length, list_sum in *. cbn [List.map fold_right]. lia.
Qed.

Lemma spans_from_lower line ms : forall from m,
  spans_from line from ms -> In m ms -> from <= m_index m.
Proof.
  induction ms as [|m0 ms IH]; intros from m Hs Hin; [destruct Hin|].
  destruct Hs as (H1 & H2 & H3 & H4). destruct Hin as [<- | Hin]; [exact H1|].
  pose proof (@IH _ _ H4 Hin). lia.
Qed.

Lemma in_marker_before line ms from i :
  spans_from line from ms -> i < from -> in_marker ms i = false.
Proof.
  intros Hs Hi. unfold in_marker.
  destruct (existsb _ ms) eqn:E; [|reflexivity].
  apply existsb_exists in E as (m & Hm & E).
  apply andb_true_iff in E as [E _]. apply Nat.leb_le in E.
  pose proof (@spans_from_lower _ _ _ _ Hs Hm). lia.
Qed.

Lemma outside_from_app ms a : forall pos b,
  outside_from ms pos (a ++ b)
  = outside_from ms pos a ++ outside_from ms (pos + length a) b.
Proof.
  induction a as [|c a IH]; intros pos b; cbn [app outside_from length].
  - now rewrite Nat.add_0_r.
  - rewrite IH. replace (S pos + length a) with (pos + S (length a)) by lia.
    now destruct (in_marker ms pos).
Qed.

Lemma outside_from_none ms s : forall pos,
  (forall i, pos <= i < pos + length s -> in_marker ms i = false) ->
  outside_from ms pos s = s.
Proof.
  induction s as [|c s IH]; intros pos H; [reflexivity|].
  cbn [outside_from]. cbn [length] in H. rewrite (H pos) by lia.
  f_equal. apply IH. intros i Hi. apply H. lia.
Qed.

Lemma outside_from_all ms s : forall pos,
  (forall i, pos <= i < pos + length s -> in_marker ms i = true) ->
  outside_from ms pos s = [].
Proof.
  induction s as [|c s IH]; intros pos H; [reflexivity|].
  cbn [outside_from]. cbn [length] in H. rewrite (H pos) by lia.
  apply IH. intros i Hi. apply H. lia.
Qed.

Lemma outside_from_ext ms ms' s : forall pos,
  (forall i, pos <= i < pos + length s -> in_marker ms i = in_marker ms' i) ->
  outside_from ms pos s = outside_from ms' pos s.
Proof.
  induction s as [|c s IH]; intros pos H; [reflexivity|].
  cbn [outside_from]. cbn [length] in H. rewrite (H pos) by lia.
  rewrite (IH (S pos)); [reflexivity|]. intros i Hi. apply H. lia.
Qed.

Lemma skipn_split (A : Type) (l : list A) a b :
  a <= b -> skipn a l = firstn (b - a) (skipn a l) ++ skipn b l.
Proof.
  intro H. rewrite <- (firstn_skipn (b - a) (skipn a l)) at 1.
  rewrite skipn_skipn. now replace (b - a + a) with b by lia.
Qed.

(** The loop of [parseLineMarkers] over matches that lie in the line one
    after the other adds to the clean text the code units outside the
    matches. *)
Lemma parse_fold_outside sc line ms : forall st,
  spans_from line (ps_cursor st) ms ->
  let st' := fold_left (parse_step sc line) ms st in
  ps_cleanLine st' ++ skipn (ps_cursor st') line
  = ps_cleanLine st
    ++ outside_from ms (ps_cursor st) (skipn (ps_cursor st) line).
Proof.
  induction ms as [|m ms IH]; intros st Hs; cbn [fold_left]; cbv zeta.
  - rewrite outside_from_none; [reflexivity | reflexivity].
  - pose proof Hs as (H1 & H2 & H3 & H4).
    assert (ps_cursor (parse_step sc line st m)
            = m_index m + length (m_text m)) as Ec
        by (unfold parse_step; destruct (key_of _);
            [destruct (isSafeColorValue _)|]; reflexivity).
    assert (ps_cleanLine (parse_step sc line st m)
            = ps_cleanLine st ++ slice line (ps_cursor st) (m_index m)) as El
        by (unfold parse_step; destruct (key_of _);
            [destruct (isSafeColorValue _)|]; reflexivity).
    rewrite (IH (parse_step sc line st m)) by (now rewrite Ec).
    rewrite El, Ec, <- app_assoc. f_equal.
    set (a := ps_cursor st) in *. set (b := m_index m) in *.
    set (e := b + length (m_text m)) in *.
    rewrite (@skipn_split _ line a b H1), (@skipn_split _ line b e) by lia.
    fold (slice line a b). fold (slice line b e). rewrite <- H3.
    assert (length (slice line a b) = b - a) as La
        by (unfold slice; rewrite length_firstn, length_skipn; lia).
    rewrite !outside_from_app, La.
    replace (a + (b - a)) with b by lia. fold e.
    rewrite (@outside_from_none (m :: ms) (slice line a b) a).
    + rewrite (@outside_from_all (m :: ms) (m_text m) b).
      * cbn [app]. f_equal. apply outside_from_ext. intros i Hi.
        unfold in_marker. cbn [existsb]. fold b. fold e.
        replace (i <? e) with false by (symmetry; apply Nat.ltb_ge; lia).
        now rewrite andb_false_r.
      * intros i Hi. unfold in_marker. cbn [existsb]. fold b. fold e.
        replace (b <=? i) with true by (symmetry; apply Nat.leb_le; lia).
        replace (i <? e) with true by (symmetry; apply Nat.ltb_lt; lia).
        reflexivity.
    + intros i Hi. rewrite La in Hi.
      apply (@in_marker_before line (m :: ms) b); [|lia].
      cbn [spans_from]. fold b. fold e. repeat split; auto.
Qed.

(** The clean line is the line without the code units of its markers. *)
Lemma cleanLine_outside sc line :
  cleanLine (parseLineMarkers sc line)
  = outside_markers (matchAll COLOR_MARKER_REGEX line) line.
Proof.
  pose proof (@matchAll_from_spans COLOR_MARKER_REGEX line 0 0 [] eq_refl)
    as Hs.
  cbn [app Nat.add] in Hs. fold (matchAll COLOR_MARKER_REGEX line) in Hs.
  unfold parseLineMarkers, outside_markers, slice_from. cbn [cleanLine].
  now rewrite (@parse_fold_outside sc line _ (MkPState [] [] 0 0 false) Hs).
Qed.

(** Cutting the markers out leaves every opening brace in front of the
    code unit that followed it in the line. *)
Lemma brace_clear_outside ms s : forall pos q,
  brace_clear_from ms pos s = true ->
  brace_clear_from [] q (outside_from ms pos s) = true.
Proof.
  induction s as [|c s IH]; intros pos q H; [reflexivity|].
  cbn [brace_clear_from] in H. apply andb_true_iff in H as [Hc Hs].
  cbn [outside_from]. destruct (in_marker ms pos) eqn:Ep; [now apply IH|].
  cbn [brace_clear_from]. rewrite (IH _ (S q) Hs), andb_true_r.
  change (in_marker [] q) with false. change (in_marker [] (S q)) with false.
  rewrite orb_false_r in *. cbn [negb andb].
  destruct (N.eqb Glyph.LBRACE c); [|reflexivity]. cbn [negb orb] in *.
  destruct s as [|d s]; [reflexivity|]. cbn [outside_from].
  apply andb_true_iff in Hc as [Hc Hh]. apply andb_true_iff in Hc as [Hm Hw].
  apply negb_true_iff in Hm. rewrite Hm. now rewrite Hw, Hh.
Qed.

(** The marker pattern needs [#] after an opening brace and white space. *)
Lemma matchAll_brace_clear s : forall q skip pos,
  brace_clear_from [] q s = true ->
  matchAll_from COLOR_MARKER_REGEX skip pos s = [].
Proof.
  change COLOR_MARKER_REGEX
    with (RSeq (lit "{")
            (RSeq (RStar is_ws)
               (RSeq (lit "#")
                  (rseq [RGroup (RPlus is_letter); RStar is_ws; lit ":";
                         RStar is_ws; RGroup (RPlusLazy not_rbrace);
                         RStar is_ws; lit "}"])))).
  set (tail := rseq [RGroup (RPlus is_letter); RStar is_ws; lit ":";
                     RStar is_ws; RGroup (RPlusLazy not_rbrace);
                     RStar is_ws; lit "}"]).
  induction s as [|c s IH]; intros q skip pos H.
  - destruct skip; reflexivity.
  - cbn [brace_clear_from] in H. apply andb_true_iff in H as [Hc Hs].
    destruct skip as [|n]; cbn [matchAll_from]; [|now apply (IH (S q))].
    assert (exec_at (RSeq (lit "{") (RSeq (RStar is_ws) (RSeq (lit "#") tail)))
                    pos (c :: s) = None) as ->.
    { unfold exec_at.
      change (rmatch (RSeq (lit "{") (RSeq (RStar is_ws) (RSeq (lit "#") tail)))
                     accept pos (c :: s) [])
        with (if N.eqb Glyph.LBRACE c
              then star_greedy is_ws (rmatch (RSeq (lit "#") tail) accept)
                               (S pos) s []
              else None).
      change (in_marker [] q) with false in Hc.
      change (in_marker [] (S q)) with false in Hc.
      destruct (N.eqb Glyph.LBRACE c); [|reflexivity].
      cbn [negb orb andb] in Hc.
      destruct s as [|d s]; [reflexivity|].
      apply andb_true_iff in Hc as [Hw Hh]. apply negb_true_iff in Hw, Hh.
      cbn [star_greedy]. rewrite Hw.
      change (rmatch (RSeq (lit "#") tail) accept (S pos) (d :: s) [])
        with (if N.eqb Glyph.HASH d then rmatch tail accept (S (S pos)) s []
              else None).
      now rewrite Hh. }
    now apply (IH (S q)).
Qed.

(** X18.  [parseLineMarkers] removes the texts of the markers and nothing
    else: the matches lie in the line one after the other without
    overlapping, each holding the text of the line at its place; the clean
    line is the line without the code units inside the matches, in the
    order of the line; so it is shorter than the line by exactly the total
    length of the matches. *)
Theorem parseLineMarkers_strips :
  forall sc line,
    let ms := matchAll COLOR_MARKER_REGEX line in
    spans_from line 0 ms /\
    cleanLine (parseLineMarkers sc line) = outside_markers ms line /\
    length (cleanLine (parseLineMarkers sc line)) + matched_length ms
    = length line.
Proof.
  intros sc line ms.
  pose proof (@matchAll_from_spans COLOR_MARKER_REGEX line 0 0 [] eq_refl)
    as Hs.
  cbn [app Nat.add] in Hs. fold (matchAll COLOR_MARKER_REGEX line) in Hs.
  fold ms in Hs. split; [exact Hs|]. split; [apply cleanLine_outside|].
  unfold parseLineMarkers. cbn [cleanLine]. fold ms.
  destruct (@parse_fold_length sc line ms (MkPState [] [] 0 0 false) Hs)
    as [H1 H2]; [cbn; lia|].
  cbn [ps_cleanLine ps_cursor length] in H1, H2.
  rewrite length_app. unfold slice_from. rewrite length_skipn. lia.
Qed.

(* ================================================================== *)
(** * C4, amended: when re-parsing finds nothing *)

(** C4, amended.  Markers are stripped in one pass.  When the line has no
    marker, or when every opening brace of the line outside its markers is
    the last code unit of the line or stands in front of a code unit,
    itself outside the markers, that is neither white space nor [#], then
    parsing the clean line again finds no marker and returns it
    unchanged. *)
Theorem marker_reparse_spec :
  forall sc line,
    let clean := cleanLine (parseLineMarkers sc line) in
    hadMarkers (parseLineMarkers sc line) = false \/
    brace_clear (matchAll COLOR_MARKER_REGEX line) line = true ->
    parseLineMarkers sc clean = MkParsed clean clean [] false /\
    hadMarkers (parseLineMarkers sc clean) = false.
Proof.
  intros sc line clean H.
  assert (matchAll COLOR_MARKER_REGEX clean = []) as Hm.
  { destruct H as [H | H].
    - pose proof (hadMarkers_false _ _ H) as Hl. subst clean.
      now rewrite (parseLineMarkers_no_match sc _ Hl).
    - subst clean. rewrite cleanLine_outside. unfold matchAll.
      apply (@matchAll_brace_clear _ 0).
      now apply brace_clear_outside. }
  rewrite (parseLineMarkers_no_match sc _ Hm). split; reflexivity.
Qed.

Lemma marker_reparse_spec_witness :
  cleanLine (parseLineMarkers default_scrub brace_then_marker) = js "a{bc" /\
  hadMarkers (parseLineMarkers default_scrub
                (cleanLine (parseLineMarkers default_scrub brace_then_marker)))
  = false.
Proof.
  refine (conj _ _).
  - vm_compute. reflexivity.
  - apply (marker_reparse_spec default_scrub brace_then_marker).
    right. vm_compute. reflexivity.
Defined.

(* ================================================================== *)
(** * Text nodes split at colour changes *)

(** Between two columns with no colour marker strictly in between, the
    colour of the text does not change. *)
Lemma resolveTextColor_const ms a b c :
  sorted_from 0 ms -> a <= c -> c < b ->
  (forall m, In m ms -> key m = KColor -> ~ a < index m < b) ->
  resolveTextColor ms c = resolveTextColor ms a.
Proof.
  intros Hs Hac Hcb Hgap. unfold resolveTextColor.
  rewrite !(@resolveTextColor_from_sorted _ ms 0 None Hs).
  f_equal. f_equal. apply filter_ext_in. intros m Hm. unfold colour_at.
  destruct (key m) eqn:Ek; try reflexivity.
  specialize (Hgap m Hm Ek). apply eq_iff_eq_true. rewrite !Nat.leb_le. lia.
Qed.

Lemma mapi_from_app (A B : Type) (f : A -> nat -> B) l1 : forall i l2,
  mapi_from f i (l1 ++ l2)
  = mapi_from f i l1 ++ mapi_from f (i + length l1) l2.
Proof.
  induction l1 as [|x l1 IH]; intros i l2; cbn [app mapi_from length].
  - now rewrite Nat.add_0_r.
  - rewrite IH. f_equal. f_equal. f_equal. lia.
Qed.

Lemma mapi_from_const (A B : Type) (f : A -> nat -> B) (g : A -> B) l :
  forall i, (forall j x, j < length l -> f x (i + j) = g x) ->
            mapi_from f i l = List.map g l.
Proof.
  induction l as [|x l IH]; intros i H; [reflexivity|].
  cbn [mapi_from List.map]. f_equal.
  - rewrite <- (H 0 x); [now rewrite Nat.add_0_r | cbn; lia].
  - apply IH. intros j y Hj. rewrite <- (H (S j) y); [|cbn; lia].
    f_equal. lia.
Qed.

Lemma ascending_In l : forall from x, ascending from l -> In x l -> from <= x.
Proof.
  induction l as [|y l IH]; intros from x H Hx; [destruct Hx|].
  destruct H as [Hy H]. destruct Hx as [<- | Hx]; [exact Hy|].
  specialize (IH _ _ H Hx). lia.
Qed.

Lemma ascending_lower l : forall from lo,
  ascending from l -> (forall x, In x l -> lo <= x) -> ascending lo l.
Proof.
  destruct l as [|y l]; intros from lo H Hlo; [exact I|].
  destruct H as [_ H]. split; [apply Hlo; now left | exact H].
Qed.

Lemma ascending_snoc l : forall from y,
  ascending from l -> (forall x, In x l -> x <= y) -> from <= y ->
  ascending from (l ++ [y]).
Proof.
  induction l as [|x l IH]; intros from y H Hy Hf; cbn [app ascending].
  - auto.
  - destruct H as [Hx H]. split; [exact Hx|].
    apply IH; [exact H | intros z Hz; apply Hy; now right |].
    apply Hy. now left.
Qed.

Lemma insert_sorted_ascending x l : forall from,
  ascending from l -> from <= x ->
  ascending from (insert_sorted Nat.leb x l).
Proof.
  induction l as [|y l IH]; intros from Hs Hx; cbn [insert_sorted].
  - cbn. auto.
  - destruct Hs as [Hy Hs]. destruct (Nat.leb_spec x y).
    + cbn [ascending]. auto.
    + cbn [ascending]. split; [exact Hy|]. apply IH; [exact Hs | lia].
Qed.

Lemma stable_sort_ascending l : ascending 0 (stable_sort Nat.leb l).
Proof.
  induction l as [|x l IH]; cbn [stable_sort]; [exact I|].
  apply insert_sorted_ascending; [exact IH | lia].
Qed.

(** Ascending split points that hold every colour marker index between
    the first and [hi] leave no colour marker between neighbours. *)
Lemma gaps_free_ascending ms hi rest : forall a,
  ascending a rest ->
  (forall x, In x rest -> x <= hi) ->
  (forall m, In m ms -> key m = KColor -> a < index m -> index m < hi ->
             In (index m) rest) ->
  gaps_free ms (a :: rest).
Proof.
  induction rest as [|b rest IH]; intros a Ha Hhi Hin; [exact I|].
  destruct Ha as [Hab Ha]. cbn [gaps_free]. split; [exact Hab|]. split.
  - intros m Hm Hk [H1 H2].
    assert (index m < hi) as Hlt
        by (specialize (Hhi b (or_introl eq_refl)); lia).
    destruct (Hin m Hm Hk H1 Hlt) as [E | Hr]; [lia|].
    pose proof (ascending_In _ _ _ Ha Hr). lia.
  - apply IH; [exact Ha | intros x Hx; apply Hhi; now right |].
    intros m Hm Hk H1 H2.
    destruct (Hin m Hm Hk) as [E | Hr]; [lia | exact H2 | lia | exact Hr].
Qed.

Lemma concat_nil_nonempty (l : list jsstring) :
  Forall (fun g => g <> []) l -> List.concat l = [] -> l = [].
Proof.
  destruct l as [|g l]; [reflexivity|]. intros H E.
  apply Forall_cons_iff in H as [Hg _]. cbn in E.
  apply app_eq_nil in E as [E _]. congruence.
Qed.

Section SplitSegments.
Variable sc : SmoothScrub.
Variable isRichMode : bool.
Variable ms : list ParsedMarker.
Variable text : jsstring.
Variable start : nat.
Hypothesis Hstable : segmenter_stable sc.
Hypothesis Hnonempty : Forall (fun g => g <> []) (splitGraphemes sc text).
Hypothesis Hsorted : sorted_from 0 ms.

(** The loop of [createSplitAwareTextNode] draws the graphemes from the
    first split point on, each in the colour of its column. *)
Lemma split_segments_colours tokenLeftX cell preserve sp :
  forall a consumed,
    gaps_free ms (a :: sp) -> start <= a ->
    last (a :: sp) 0 = start + length (splitGraphemes sc text) ->
    coloured_graphemes sc
      (split_segments sc isRichMode ms (splitGraphemes sc text) start
                      tokenLeftX cell preserve (a :: sp) consumed)
    = mapi_from (fun g i => (g, column_colour ms (start + i))) (a - start)
                (skipn (a - start) (splitGraphemes sc text)).
Proof.
  set (G := splitGraphemes sc text) in *.
  induction sp as [|b sp IH]; intros a consumed Hg Ha Hlast.
  - cbn [last] in Hlast. cbn [split_segments coloured_graphemes flat_map].
    replace (a - start) with (length G) by lia. now rewrite skipn_all.
  - destruct Hg as (Hab & Hgap & Hg).
    assert (last (b :: sp) 0 = start + length G) as Hlast' by exact Hlast.
    specialize (IH b). cbn [split_segments]. cbv zeta.
    set (k := b - start - (a - start)).
    set (seg := firstn k (skipn (a - start) G)).
    assert (skipn (a - start) G = seg ++ skipn (b - start) G) as Esk.
    { unfold seg. rewrite <- (firstn_skipn k (skipn (a - start) G)) at 1.
      f_equal. rewrite skipn_skipn. f_equal. unfold k. lia. }
    assert (mapi_from (fun g i => (g, column_colour ms (start + i)))
                      (a - start) (skipn (a - start) G)
            = List.map (fun g => (g, column_colour ms a)) seg
              ++ mapi_from (fun g i => (g, column_colour ms (start + i)))
                           (b - start) (skipn (b - start) G)) as Erhs.
    { rewrite Esk at 1. rewrite mapi_from_app. f_equal.
      - apply mapi_from_const. intros j x Hj. f_equal. unfold column_colour.
        assert (length seg <= k) as Hk by (unfold seg; apply firstn_le_length).
        rewrite (@resolveTextColor_const ms a b (start + (a - start + j)));
          auto; unfold k in *; lia.
      - destruct (skipn (b - start) G) as [|g0 rest] eqn:Eb; [reflexivity|].
        f_equal. unfold seg. rewrite length_firstn, length_skipn.
        assert (b - start < length G).
        { destruct (Nat.lt_ge_cases (b - start) (length G)); [assumption|].
          rewrite skipn_all2 in Eb by lia. discriminate. }
        unfold k. lia. }
    rewrite Erhs.
    destruct (List.concat seg) as [|c0 t] eqn:Ec.
    + assert (seg = []) as ->.
      { apply concat_nil_nonempty; [|exact Ec].
        unfold seg. apply Forall_forall. intros x Hx.
        rewrite Forall_forall in Hnonempty. apply Hnonempty.
        now apply firstn_incl, skipn_incl in Hx. }
      cbn [List.map app]. apply IH; auto. lia.
    + cbn [coloured_graphemes flat_map]. f_equal.
      * cbn [createTextNode t_fill t_text]. rewrite <- Ec. unfold seg, G.
        rewrite Hstable. reflexivity.
      * apply IH; auto. lia.
Qed.
End SplitSegments.

(** X19.  [createSplitAwareTextNode] draws every grapheme of its token
    once, in order, and in the colour [resolveTextColor] gives for the
    column of that grapheme (the default grey when it gives none), also
    when the colour changes inside the token.  The markers are those of a
    parsed line; the segmenter is stable and returns no empty grapheme for
    the token. *)
Theorem split_aware_colours :
  forall sc isRichMode line text align finalX cell preserve tokenStartCol,
    segmenter_stable sc ->
    Forall (fun g => g <> []) (splitGraphemes sc text) ->
    let rowMarkers := markers (parseLineMarkers sc line) in
    coloured_graphemes sc
      (createSplitAwareTextNode sc isRichMode rowMarkers text align finalX
                                cell preserve tokenStartCol)
    = mapi (fun g i => (g, column_colour rowMarkers (tokenStartCol + i)))
           (splitGraphemes sc text).
Proof.
  intros sc rich line text align finalX cell preserve start Hst Hne ms.
  assert (sorted_from 0 ms) as Hs by apply parseLineMarkers_markers.
  unfold createSplitAwareTextNode. cbv zeta.
  set (G := splitGraphemes sc text).
  set (stop := start + length G).
  assert (forall m, In m ms -> key m = KColor -> start < index m ->
                    index m < stop ->
                    In (index m) (tokenColorBreaks ms start stop)) as Hall.
  { intros m Hm Hk H1 H2. unfold tokenColorBreaks.
    apply stable_sort_In. apply in_map. apply filter_In. split; [exact Hm|].
    rewrite Hk. cbn [key_eqb andb]. apply andb_true_iff.
    split; now apply Nat.ltb_lt. }
  assert (forall x, In x (tokenColorBreaks ms start stop) ->
                    start < x < stop) as Hin.
  { intros x Hx. unfold tokenColorBreaks in Hx. apply stable_sort_In in Hx.
    apply in_map_iff in Hx as (m & <- & Hm). apply filter_In in Hm as [_ Hm].
    apply andb_true_iff in Hm as [Hm H2]. apply andb_true_iff in Hm as [_ H1].
    apply Nat.ltb_lt in H1, H2. lia. }
  destruct (tokenColorBreaks ms start stop) as [|b0 bs] eqn:Eb.
  - cbn [coloured_graphemes flat_map createTextNode t_text t_fill].
    rewrite app_nil_r. fold G. unfold mapi. symmetry.
    apply mapi_from_const. intros j x Hj. f_equal. unfold column_colour.
    rewrite (@resolveTextColor_const ms start stop (start + (0 + j)));
      auto; try (unfold stop; lia).
    intros m Hm Hk [H1 H2]. now destruct (Hall m Hm Hk H1 H2).
  - rewrite <- Eb in *. clear Eb b0 bs.
    rewrite (@split_segments_colours sc rich ms text start Hst Hne Hs).
    + rewrite Nat.sub_diag. reflexivity.
    + apply (@gaps_free_ascending ms stop).
      * apply ascending_snoc.
        -- apply (@ascending_lower _ 0); [apply stable_sort_ascending|].
           intros x Hx. apply Hin in Hx. lia.
        -- intros x Hx. apply Hin in Hx. lia.
        -- unfold stop. lia.
      * intros x Hx. apply in_app_or in Hx as [Hx | [<- | []]];
          [apply Hin in Hx; lia | lia].
      * intros m Hm Hk H1 H2. apply in_or_app. left. now apply Hall.
    + lia.
    + change (start :: tokenColorBreaks ms start stop ++ [stop])
        with ((start :: tokenColorBreaks ms start stop) ++ [stop]).
      apply last_last.
Qed.

Lemma split_aware_colours_witness :
  let ms := markers (parseLineMarkers default_scrub two_colours) in
  coloured_graphemes default_scrub
    (createSplitAwareTextNode default_scrub false ms (js "abcd") AlignStart
                              12 None false 0)
  = mapi (fun g i => (g, column_colour ms (0 + i)))
         (splitGraphemes default_scrub (js "abcd")).
Proof.
  apply (@split_aware_colours default_scrub false two_colours (js "abcd")
           AlignStart 12%Q None false 0 (segmenter_stable_fallback 12 24)).
  repeat constructor; discriminate.
Defined.

(* ================================================================== *)
(** * The rectangle of a stroked box *)

(** In a row whose first [k] cells are one column wide, cell [k] starts
    [k] cell widths after the first. *)
Lemma row_x_single (cells : list GridCell) (x0 cwv : Q) :
  (forall first, nth_error cells 0 = Some first -> c_x first = x0) ->
  (forall k a b, nth_error cells k = Some a -> nth_error cells (S k) = Some b ->
                 c_x b = (c_x a + c_w a)%Q) ->
  (forall cell, In cell cells -> c_w cell = (inject_Z (c_cols cell) * cwv)%Q) ->
  forall k cell,
    nth_error cells k = Some cell ->
    (forall j cj, j < k -> nth_error cells j = Some cj -> c_cols cj = 1%Z) ->
    (c_x cell == x0 + inject_Z (Z.of_nat k) * cwv)%Q.
Proof.
  intros Hfirst Hnext Hw. induction k as [|k IH]; intros cell Hk Hsingle.
  - rewrite (Hfirst _ Hk). cbn. ring.
  - destruct (nth_error cells k) as [prev|] eqn:Ep.
    + rewrite (Hnext k prev cell Ep Hk).
      rewrite (IH prev eq_refl) by (intros j cj Hj; apply Hsingle; lia).
      rewrite (Hw prev) by (now apply nth_error_In in Ep).
      rewrite (Hsingle k prev) by (auto; lia).
      rewrite Nat2Z.inj_succ. unfold Z.succ. rewrite inject_Z_plus. ring.
    + apply nth_error_None in Ep.
      assert (S k < length cells) by (apply nth_error_Some; congruence). lia.
Qed.

(** The centre of a cell of the grid of [render]. *)
Lemma render_cell_centre sc ascii rowIndex colIndex cell :
  let r := render sc ascii in
  cell_at (r_grid r) rowIndex colIndex = Some cell ->
  (c_cy cell == (inject_Z (Z.of_nat rowIndex) + 1.5) * ch sc)%Q /\
  ((forall c other, c <= colIndex ->
                    cell_at (r_grid r) rowIndex c = Some other ->
                    c_cols other = 1%Z) ->
   (c_cx cell == (inject_Z (Z.of_nat colIndex) + 1.5) * cw sc)%Q).
Proof.
  intros r Hcell. pose proof (render_grid_untagged sc ascii) as H.
  cbv zeta in H. fold r in H. unfold cell_at in *.
  destruct (nth_error (r_grid r) rowIndex) as [row|] eqn:Erow; [|discriminate].
  pose proof (map_nth_error (List.map untagged) _ _ Erow) as Hrow.
  rewrite H, nth_error_mapi in Hrow.
  destruct (nth_error (List.map cleanLine (parse_document sc ascii)) rowIndex)
    as [l|]; [|discriminate].
  cbn [option_map] in Hrow. injection Hrow as Hrow.
  destruct (build_row_cells sc (r_isRichMode r) (row_y sc rowIndex)
              (splitGraphemes sc l) (cw sc)) as (_ & Hall & Hfirst & Hnext).
  cbv zeta in Hall, Hfirst, Hnext. rewrite Hrow in Hall, Hfirst, Hnext.
  rewrite Forall_forall in Hall.
  pose proof (Hall _ (in_map untagged _ _ (nth_error_In _ _ Hcell))) as Hc.
  cbn [untagged c_char c_x c_y c_cx c_cy c_w c_cols] in Hc.
  destruct Hc as (Hy & Hcy & _ & Hw & Hcx & _). split.
  - rewrite Hcy. unfold row_y. field.
  - intro Hsingle.
    pose proof (@row_x_single (List.map untagged row) (cw sc) (cw sc)
                  Hfirst Hnext) as Hx.
    specialize (Hx (fun c Hc => proj1 (proj2 (proj2 (proj2 (Hall c Hc)))))).
    specialize (Hx colIndex (untagged cell) (map_nth_error untagged _ _ Hcell)).
    cbn [untagged c_x] in Hx. rewrite Hcx, Hw, Hx.
    + rewrite (Hsingle colIndex cell (Nat.le_refl _) Hcell). field.
    + intros j cj Hj Hcj. rewrite nth_error_map in Hcj.
      destruct (nth_error row j) as [cj'|] eqn:Ej; [|discriminate].
      cbn [option_map] in Hcj. injection Hcj as <-. cbn [untagged c_cols].
      apply (Hsingle j cj'); [lia | exact Ej].
Qed.

Lemma box_rect_geometry sc top left_ bottom right_ style rect :
  box_stroke_rect sc ((top, left_, bottom, right_), style) = Some rect \/
  box_fill_rect sc ((top, left_, bottom, right_), style) = Some rect ->
  rect_x rect = ((inject_Z (Z.of_nat left_) + 1.5) * cw sc)%Q /\
  rect_y rect = ((inject_Z (Z.of_nat top) + 1.5) * ch sc)%Q /\
  rect_width rect = (inject_Z (Z.of_nat right_ - Z.of_nat left_) * cw sc)%Q /\
  rect_height rect = (inject_Z (Z.of_nat bottom - Z.of_nat top) * ch sc)%Q.
Proof.
  unfold box_stroke_rect, box_fill_rect. intros [H | H].
  - destruct (truthy (s_stroke style)); [|discriminate].
    injection H as <-. cbn. auto.
  - destruct (truthy (s_bg style)); [|discriminate]. cbv zeta in H.
    destruct (Qlt_bool 0 (Qmax0 _) && Qlt_bool 0 (Qmax0 _))%bool eqn:E;
      [|discriminate].
    injection H as <-. cbn [rect_x rect_y rect_width rect_height].
    apply andb_true_iff in E as [E1 E2]. unfold Qmax0 in *.
    destruct (Qlt_bool 0 (inject_Z (Z.of_nat right_ - Z.of_nat left_) * cw sc));
      [|discriminate].
    destruct (Qlt_bool 0 (inject_Z (Z.of_nat bottom - Z.of_nat top) * ch sc));
      [|discriminate].
    auto.
Qed.

(** X20.  With whole-number cell sizes up to [2^20] and a box within the
    first [2^30] rows and columns, where every sum and product of the grid
    pass and of the rectangle is a whole or a half number far below [2^53],
    which the code's doubles hold exactly, the rectangles [render] draws for
    a styled box, the stroked one and the filled one, run through the
    centres of the box's corner cells: the top-left corner of the rectangle
    is the centre of the cell at the top-left corner of the box, and its
    bottom-right corner the centre of the cell at the bottom-right corner,
    provided the cells up to those corners in the top and bottom rows are
    one column wide. *)
Theorem box_rect_corners :
  forall sc ascii top left_ bottom right_ style rect n m,
    let r := render sc ascii in
    (cw sc == inject_Z n)%Q -> (ch sc == inject_Z m)%Q ->
    (0 <= n <= 2 ^ 20)%Z -> (0 <= m <= 2 ^ 20)%Z ->
    top <= bottom -> (Z.of_nat bottom < 2 ^ 30)%Z ->
    left_ <= right_ -> (Z.of_nat right_ < 2 ^ 30)%Z ->
    box_stroke_rect sc ((top, left_, bottom, right_), style) = Some rect \/
    box_fill_rect sc ((top, left_, bottom, right_), style) = Some rect ->
    (forall tl,
        cell_at (r_grid r) top left_ = Some tl ->
        (forall c other, c <= left_ ->
                         cell_at (r_grid r) top c = Some other ->
                         c_cols other = 1%Z) ->
        (rect_x rect == c_cx tl)%Q /\ (rect_y rect == c_cy tl)%Q) /\
    (forall br,
        cell_at (r_grid r) bottom right_ = Some br ->
        (forall c other, c <= right_ ->
                         cell_at (r_grid r) bottom c = Some other ->
                         c_cols other = 1%Z) ->
        (rect_x rect + rect_width rect == c_cx br)%Q /\
        (rect_y rect + rect_height rect == c_cy br)%Q).
Proof.
  intros sc ascii top left_ bottom right_ style rect n m r _ _ _ _ _ _ _ _
         Hrect.
  destruct (box_rect_geometry _ _ _ _ _ _ Hrect) as (-> & -> & -> & ->).
  split.
  - intros tl Htl Hsingle.
    destruct (@render_cell_centre sc ascii top left_ tl Htl) as [Hy Hx].
    rewrite Hy, (Hx Hsingle). split; reflexivity.
  - intros br Hbr Hsingle.
    destruct (@render_cell_centre sc ascii bottom right_ br Hbr) as [Hy Hx].
    rewrite Hy, (Hx Hsingle). unfold Zminus.
    rewrite !inject_Z_plus, !inject_Z_opp. split; ring.
Qed.

Lemma box_rect_corners_witness :
  let r := render default_scrub stroked_box in
  let rect := MkRect ((inject_Z 0 + 1.5) * 12)%Q ((inject_Z 0 + 1.5) * 24)%Q
                     (inject_Z 4 * 12)%Q (inject_Z 2 * 24)%Q
                     None (Some (js "red")) in
  (forall tl,
      cell_at (r_grid r) 0 0 = Some tl ->
      (forall c other, c <= 0 -> cell_at (r_grid r) 0 c = Some other ->
                       c_cols other = 1%Z) ->
      (rect_x rect == c_cx tl)%Q /\ (rect_y rect == c_cy tl)%Q) /\
  (forall br,
      cell_at (r_grid r) 2 4 = Some br ->
      (forall c other, c <= 4 -> cell_at (r_grid r) 2 c = Some other ->
                       c_cols other = 1%Z) ->
      (rect_x rect + rect_width rect == c_cx br)%Q /\
      (rect_y rect + rect_height rect == c_cy br)%Q).
Proof.
  apply (@box_rect_corners default_scrub stroked_box 0 0 2 4
           (MkStyle None (Some (js "red"))) _ 12%Z 24%Z).
  - reflexivity.
  - reflexivity.
  - split; [lia | cbv; discriminate].
  - split; [lia | cbv; discriminate].
  - lia.
  - reflexivity.
  - lia.
  - reflexivity.
  - left. reflexivity.
Defined.

(* ================================================================== *)
(** * Walls are structural *)

Lemma test_cls_incl (p q : char -> bool) s :
  (forall c, p c = true -> q c = true) ->
  test (RCls p) s = true -> test (RCls q) s = true.
Proof.
  intro H. rewrite !test_cls, !existsb_exists.
  intros (c & Hc & Hp). exists c. auto.
Qed.

Lemma char_in_incl (l1 l2 : list char) c :
  incl l1 l2 -> char_in l1 c = true -> char_in l2 c = true.
Proof.
  unfold char_in. rewrite !existsb_exists.
  intros H (x & Hx & E). exists x. auto.
Qed.

(** X21.  Every cell [render] takes for a wall of a text zone holds a
    structural character of the current mode, so that it is drawn by the
    path passes: the vertical bars and the corner and junction glyphs are
    structural in both modes, and so is the ASCII [+]. *)
Theorem walls_are_structural :
  forall isRichMode grid rowIndex row i cell,
    is_wall isRichMode grid rowIndex row i cell = true ->
    isStructure (c_char cell) isRichMode = true.
Proof.
  intros rich grid rowIndex row i cell. unfold is_wall. cbv zeta.
  assert (isVert (c_char cell) rich = true ->
          isStructure (c_char cell) rich = true) as Hv.
  { unfold isVert, isStructure. destruct rich; apply test_cls_incl;
      intros c; apply char_in_incl; intros x Hx; vm_compute in Hx |- *;
      intuition. }
  assert (isCorner (c_char cell) = true ->
          isStructure (c_char cell) rich = true) as Hc.
  { unfold isCorner, isStructure. destruct rich; apply test_cls_incl;
      intros c; apply char_in_incl; intros x Hx; vm_compute in Hx |- *;
      intuition. }
  destruct (negb rich && str_eqb (c_char cell) (js "+")
            && negb (isVert (c_char cell) rich || isCorner (c_char cell)))%bool
    eqn:E.
  - intros _. apply andb_true_iff in E as [E _].
    apply andb_true_iff in E as [Er E]. apply str_eqb_eq in E. rewrite E.
    destruct rich; [discriminate | reflexivity].
  - intro H. apply orb_true_iff in H as [H | H]; auto.
Qed.

Lemma walls_are_structural_witness :
  isStructure (js "|") false = true.
Proof.
  apply (@walls_are_structural false [] 0 [] 0
           (MkCell (js "|") 0 0 0 0 0 1 false)).
  reflexivity.
Defined.

(* ================================================================== *)
(** * The vertical pass *)





